(** * Piping line extractor: a shallow embedding of
      [process_pdf_to_piping_lines.py] and [main.py], and their properties.

    Text is modelled as a list of 7-bit ASCII characters ([str]); the
    character classes, [upper] and [strip] below are Python's restricted to
    that range, on which they are closed.  Offsets and page coordinates are
    integers ([Z]).  The regular expressions of the source are written in a
    small abstract syntax and run by a backtracking matcher with Python's
    greedy, leftmost semantics.  The core starts at the service's
    document and ends at the assembled result.  Around it, the class's
    handling of environment, credentials, files and the service, the
    command line and the server of [main.py] are embedded over a record
    of oracles for the outside, with the trace of what a run does to
    it. *)

From Stdlib Require Import Ascii String.
From Stdlib Require Import List Bool Arith ZArith Lia.
From Stdlib Require Import Sorting.Sorted Sorting.Permutation.
Import ListNotations.

Set Implicit Arguments.

(* ================================================================== *)
(** ** Characters and Python's [str] operations *)
(* ================================================================== *)

Module Py.

(** A Python [str]; literals are written [lit "..."]. *)
Definition str := list ascii.

Definition lit (s : string) : str := list_ascii_of_string s.

(** The inch mark (double quote, code 34), the dash and the newline. *)
Definition inch : ascii := ascii_of_nat 34.
Definition dash : ascii := ascii_of_nat 45.
Definition newline : ascii := ascii_of_nat 10.

Definition code (c : ascii) : nat := nat_of_ascii c.

Definition between (lo hi : nat) (c : ascii) : bool :=
  (lo <=? code c) && (code c <=? hi).

(** [0-9], which is also what [\d] matches on ASCII text. *)
Definition is_digit (c : ascii) : bool := between 48 57 c.
(** [A-Z] *)
Definition is_upper (c : ascii) : bool := between 65 90 c.
(** [a-z] *)
Definition is_lower (c : ascii) : bool := between 97 122 c.
Definition is_letter (c : ascii) : bool := is_upper c || is_lower c.
Definition is_alnum (c : ascii) : bool := is_letter c || is_digit c.
(** [\w] on ASCII text: letters, digits and the underscore. *)
Definition is_word (c : ascii) : bool := is_alnum c || (code c =? 95).
(** [str.isspace] and [\s] on ASCII text: codes 9-13, 28-31 and 32. *)
Definition is_space (c : ascii) : bool :=
  between 9 13 c || between 28 32 c.

Definition is_char (a c : ascii) : bool := Ascii.eqb a c.

Definition upper_char (c : ascii) : ascii :=
  if is_lower c then ascii_of_nat (code c - 32) else c.

Definition lower_char (c : ascii) : ascii :=
  if is_upper c then ascii_of_nat (code c + 32) else c.

(** [s.upper()] *)
Definition upper (s : str) : str := map upper_char s.

Fixpoint lstrip (s : str) : str :=
  match s with
  | c :: s' => if is_space c then lstrip s' else s
  | [] => []
  end.

Definition rstrip (s : str) : str := rev (lstrip (rev s)).

(** [s.strip()] *)
Definition strip (s : str) : str := rstrip (lstrip s).

(** [s.split(sep)] for a one-character separator: never empty. *)
Fixpoint split (sep : ascii) (s : str) : list str :=
  match s with
  | [] => [[]]
  | c :: s' =>
      if is_char sep c then [] :: split sep s'
      else match split sep s' with
           | p :: ps => (c :: p) :: ps
           | [] => [[c]]
           end
  end.

(** [sep.join(parts)] for a one-character separator. *)
Fixpoint join (sep : ascii) (parts : list str) : str :=
  match parts with
  | [] => []
  | [p] => p
  | p :: ps => p ++ sep :: join sep ps
  end.

Fixpoint starts_with (p s : str) : bool :=
  match p, s with
  | [], _ => true
  | a :: p', b :: s' => Ascii.eqb a b && starts_with p' s'
  | _ :: _, [] => false
  end.

Fixpoint find_from (i : Z) (needle hay : str) : Z :=
  if starts_with needle hay then i
  else match hay with
       | [] => (-1)%Z
       | _ :: hay' => find_from (i + 1) needle hay'
       end.

(** [hay.find(needle)]: the least offset of an occurrence, or [-1]. *)
Definition find (needle hay : str) : Z := find_from 0 needle hay.

(** [len(s)] as a Python integer. *)
Definition len (s : str) : Z := Z.of_nat (length s).

(** [s[a:b]] with Python's treatment of negative and out-of-range
    indices. *)
Definition clamp_index (n i : Z) : Z :=
  if (i <? 0)%Z then Z.max 0 (i + n) else Z.min i n.

Definition slice (s : str) (a b : Z) : str :=
  let a' := clamp_index (len s) a in
  let b' := clamp_index (len s) b in
  firstn (Z.to_nat (b' - a')) (skipn (Z.to_nat a') s).

(** Lexicographic comparison by character code: Python's [<] on [str]. *)
Fixpoint str_ltb (a b : str) : bool :=
  match a, b with
  | [], [] => false
  | [], _ :: _ => true
  | _ :: _, [] => false
  | x :: a', y :: b' =>
      if code x <? code y then true
      else if code y <? code x then false
      else str_ltb a' b'
  end.

Fixpoint str_eqb (a b : str) : bool :=
  match a, b with
  | [], [] => true
  | x :: a', y :: b' => Ascii.eqb x y && str_eqb a' b'
  | _, _ => false
  end.

End Py.

Import Py.

(* ================================================================== *)
(** ** Regular expressions: the fragment of Python's [re] the program uses *)
(* ================================================================== *)

Module Re.

(** Patterns.  Every repetition in the source ranges over a single
    character class, so [Rep] takes the class directly. *)
Inductive regex : Type :=
| Cls (p : ascii -> bool)                       (* one character of a class *)
| Rep (p : ascii -> bool) (lo : nat) (hi : option nat)
                                                (* greedy [p{lo,hi}], [*], [+], [?] *)
| WordB                                         (* \b *)
| Bos                                           (* ^ *)
| Eos                                           (* $ *)
| Cat (r1 r2 : regex)
| Group (r : regex).                            (* capture group 1 *)

(** The subject seen from the current position: the characters already
    passed (nearest first), the characters ahead, and group 1. *)
Record state : Type := mk_state {
  behind : str;
  ahead : str;
  group1 : option str
}.

Definition word_at (s : str) : bool :=
  match s with
  | c :: _ => is_word c
  | [] => false
  end.

(** [\b]: exactly one side of the position is a word character. *)
Definition at_boundary (st : state) : bool :=
  xorb (word_at (behind st)) (word_at (ahead st)).

(** [$] without MULTILINE: at the end, or before a final newline. *)
Definition at_end (st : state) : bool :=
  match ahead st with
  | [] => true
  | [c] => is_char newline c
  | _ => false
  end.

Definition room (hi : option nat) : bool :=
  match hi with
  | Some 0 => false
  | _ => true
  end.

(** Greedy repetition: take one more character while allowed, and give
    characters back one at a time when the rest of the pattern fails. *)
Fixpoint exec_rep (p : ascii -> bool) (lo : nat) (hi : option nat)
    (k : state -> option state) (b a : str) (g : option str) {struct a}
    : option state :=
  let stop := if lo =? 0 then k (mk_state b a g) else None in
  match a with
  | c :: a' =>
      if p c && room hi then
        match exec_rep p (pred lo) (option_map pred hi) k (c :: b) a' g with
        | Some st => Some st
        | None => stop
        end
      else stop
  | [] => stop
  end.

(** The text between two positions of one subject, read from the later. *)
Definition passed (st st' : state) : str :=
  rev (firstn (length (behind st') - length (behind st)) (behind st')).

Fixpoint exec (r : regex) (st : state) (k : state -> option state)
    : option state :=
  match r with
  | Cls p =>
      match ahead st with
      | c :: a' =>
          if p c then k (mk_state (c :: behind st) a' (group1 st)) else None
      | [] => None
      end
  | Rep p lo hi => exec_rep p lo hi k (behind st) (ahead st) (group1 st)
  | WordB => if at_boundary st then k st else None
  | Bos => match behind st with [] => k st | _ => None end
  | Eos => if at_end st then k st else None
  | Cat r1 r2 => exec r1 st (fun st' => exec r2 st' k)
  | Group r1 =>
      exec r1 st
        (fun st' => k (mk_state (behind st') (ahead st') (Some (passed st st'))))
  end.

(** A match object: the matched text and group 1. *)
Record match_obj : Type := mk_match {
  m_text : str;
  m_group1 : option str
}.

Definition accept (must_advance : bool) (st : state) (st' : state)
    : option state :=
  if must_advance && (length (behind st') =? length (behind st)) then None
  else Some st'.

(** One attempt at the current position. *)
Definition attempt (r : regex) (must_advance : bool) (st : state)
    : option state :=
  exec r st (accept must_advance st).

Definition to_match (st st' : state) : match_obj :=
  mk_match (passed st st') (group1 st').

(** [re.match(r, s)]: an attempt at offset 0 only. *)
Definition re_match (r : regex) (s : str) : option match_obj :=
  let st := mk_state [] s None in
  option_map (to_match st) (attempt r false st).

(** [re.search]: the first offset, from the left, where an attempt
    succeeds. *)
Fixpoint search_from (r : regex) (b a : str) {struct a} : option match_obj :=
  let st := mk_state b a None in
  match attempt r false st with
  | Some st' => Some (to_match st st')
  | None =>
      match a with
      | c :: a' => search_from r (c :: b) a'
      | [] => None
      end
  end.

Definition re_search (r : regex) (s : str) : option match_obj :=
  search_from r [] s.

(** [re.findall] for a pattern without groups: the texts of the
    successive non-overlapping matches, left to right.  [skip] counts the
    characters of the last match still to pass over; after an empty match
    the same offset is tried once more for a non-empty one. *)
Fixpoint findall_from (r : regex) (b a : str) (skip : nat) {struct a}
    : list str :=
  match skip with
  | S n =>
      match a with
      | c :: a' => findall_from r (c :: b) a' n
      | [] => []
      end
  | 0 =>
      let st := mk_state b a None in
      let next (n : nat) : list str :=
        match a with
        | c :: a' => findall_from r (c :: b) a' n
        | [] => []
        end in
      match attempt r false st with
      | Some st' =>
          let n := length (behind st') - length b in
          match n with
          | S n' => passed st st' :: next n'
          | 0 =>
              [] :: match attempt r true st with
                    | Some st'' =>
                        passed st st''
                          :: next (length (behind st'') - length b - 1)
                    | None => next 0
                    end
          end
      | None => next 0
      end
  end.

Definition findall (r : regex) (s : str) : list str := findall_from r [] s 0.

(** Building blocks for the patterns. *)
Fixpoint seq (rs : list regex) : regex :=
  match rs with
  | [] => Rep (fun _ => false) 0 (Some 0)
  | [r] => r
  | r :: rs' => Cat r (seq rs')
  end.

(** A character class under [re.IGNORECASE]. *)
Definition icase (p : ascii -> bool) (c : ascii) : bool :=
  p c || p (upper_char c) || p (lower_char c).

(** A literal word under [re.IGNORECASE]. *)
Definition iword (s : string) : regex :=
  seq (map (fun a => Cls (icase (is_char (upper_char a)))) (lit s)).

Definition star (p : ascii -> bool) : regex := Rep p 0 None.
Definition plus (p : ascii -> bool) : regex := Rep p 1 None.
Definition opt (p : ascii -> bool) : regex := Rep p 0 (Some 1).
Definition rng (p : ascii -> bool) (lo hi : nat) : regex := Rep p lo (Some hi).

End Re.

Import Re.

(* ================================================================== *)
(** ** The data model *)
(* ================================================================== *)

(** Exceptions the flattening can raise, and results that may raise. *)
Inductive py_error : Type := IndexError.

Inductive exc (A : Type) : Type :=
| Ok (a : A)
| Raise (e : py_error).

Arguments Ok {A} a.
Arguments Raise {A} e.

Definition bind {A B : Type} (m : exc A) (f : A -> exc B) : exc B :=
  match m with
  | Ok a => f a
  | Raise e => Raise e
  end.

Notation "x <- m ;; f" := (bind m (fun x => f))
  (at level 61, m at next level, right associativity).

(** The service's document dictionary; an absent key is [None]. *)
Record Vertex : Type := { v_x : option Z; v_y : option Z }.
Record Segment : Type := { startIndex : option Z; endIndex : option Z }.
Record TextAnchor : Type := { textSegments : option (list Segment) }.
Record BoundingPoly : Type := { vertices : option (list Vertex) }.
Record Layout : Type := {
  textAnchor : option TextAnchor;
  boundingPoly : option BoundingPoly
}.
Record Token : Type := { layout : option Layout }.
Record Page : Type := { tokens : option (list Token) }.
Record Document : Type := {
  doc_text : option str;
  pages : option (list Page)
}.

(** A bounding box and a text span (one element of [layout_info]). *)
Record BBox : Type := { bx : Z; by_ : Z; width : Z; height : Z }.

Record TextSpan : Type := {
  sp_start : Z;
  sp_end : Z;
  sp_bbox : option BBox;
  sp_text : str
}.

(** The value stored per identifier: (line number, context, coordinates). *)
Definition info : Type := (nat * str * option BBox)%type.

(** A Python [dict] with [str] keys, in insertion order. *)
Definition dict (V : Type) : Type := list (str * V).

Fixpoint dict_get {V : Type} (k : str) (d : dict V) : option V :=
  match d with
  | [] => None
  | (k', v) :: d' => if str_eqb k k' then Some v else dict_get k d'
  end.

(** [k in d] *)
Definition dict_mem {V : Type} (k : str) (d : dict V) : bool :=
  match dict_get k d with
  | Some _ => true
  | None => false
  end.

(** [d[k] = v]: overwrite in place, or append a new key. *)
Fixpoint dict_set {V : Type} (k : str) (v : V) (d : dict V) : dict V :=
  match d with
  | [] => [(k, v)]
  | (k', v') :: d' =>
      if str_eqb k k' then (k, v) :: d' else (k', v') :: dict_set k v d'
  end.

Definition dict_keys {V : Type} (d : dict V) : list str := map fst d.

(** [sorted(keys)]: a stable insertion sort on Python's string order. *)
Fixpoint insert_sorted (k : str) (l : list str) : list str :=
  match l with
  | [] => [k]
  | x :: l' => if str_ltb k x then k :: l else x :: insert_sorted k l'
  end.

Definition sorted (l : list str) : list str :=
  fold_right insert_sorted [] (rev l).

(** One entry of the output list and the assembled result.  The
    timestamp and the constant script name are left out. *)
Record Entry : Type := {
  piping_line_number : str;
  text_line_number : nat;
  context : str;
  coordinates : option BBox
}.

Record Results : Type := {
  source_file : str;
  total_found : nat;
  pid_identifier : option str;
  piping_lines : list Entry
}.

(* ================================================================== *)
(** ** The extractor *)
(* ================================================================== *)

(** [d.get(key, default)] *)
Definition get_or {A : Type} (o : option A) (d : A) : A :=
  match o with
  | Some a => a
  | None => d
  end.

(** [vertices[i]], raising [IndexError] out of range. *)
Definition index {A : Type} (l : list A) (i : nat) : exc A :=
  match nth_error l i with
  | Some a => Ok a
  | None => Raise IndexError
  end.

(** Lines 199-212: the bounding box of a token's layout. *)
Definition token_bbox (lay : Layout) : exc (option BBox) :=
  match boundingPoly lay with
  | Some poly =>
      let vs := get_or (vertices poly) [] in
      match vs with
      | [] => Ok None
      | _ :: _ =>
          v0 <- index vs 0 ;;
          v2 <- index vs 2 ;;
          Ok (Some {| bx := get_or (v_x v0) 0%Z;
                      by_ := get_or (v_y v0) 0%Z;
                      width := (get_or (v_x v2) 0 - get_or (v_x v0) 0)%Z;
                      height := (get_or (v_y v2) 0 - get_or (v_y v0) 0)%Z |})
      end
  | None => Ok None
  end.

(** Lines 214-225: the span appended for one segment. *)
Definition make_span (text : str) (start_idx end_idx : Z) (bbox : option BBox)
    : TextSpan :=
  {| sp_start := start_idx;
     sp_end := end_idx;
     sp_bbox := bbox;
     sp_text := if (end_idx <=? len text)%Z
                then slice text start_idx end_idx else [] |}.

(** A [for] loop over [l] that threads the state and stops at the first
    exception. *)
Fixpoint for_each {A S : Type} (f : S -> A -> exc S) (l : list A) (s : S)
    : exc S :=
  match l with
  | [] => Ok s
  | a :: l' => s' <- f s a ;; for_each f l' s'
  end.

(** The bodies of the loops over segments, tokens and pages (lines
    188-225). *)
Definition segment_step (text : str) (lay : Layout)
    (layout_info : list TextSpan) (segment : Segment) : exc (list TextSpan) :=
  let start_idx := get_or (startIndex segment) 0%Z in
  let end_idx := get_or (endIndex segment) 0%Z in
  bbox <- token_bbox lay ;;
  Ok (layout_info ++ [make_span text start_idx end_idx bbox]).

Definition token_step (text : str) (layout_info : list TextSpan)
    (token : Token) : exc (list TextSpan) :=
  match layout token with
  | Some lay =>
      match textAnchor lay with
      | Some text_anchor =>
          match textSegments text_anchor with
          | Some segs => for_each (segment_step text lay) segs layout_info
          | None => Ok layout_info
          end
      | None => Ok layout_info
      end
  | None => Ok layout_info
  end.

Definition page_step (text : str) (layout_info : list TextSpan)
    (page : Page) : exc (list TextSpan) :=
  match tokens page with
  | Some toks => for_each (token_step text) toks layout_info
  | None => Ok layout_info
  end.

(** Lines 174-227. *)
Definition extract_text_and_layout_from_document (document_dict : Document)
    : exc (str * list TextSpan) :=
  let text := get_or (doc_text document_dict) [] in
  layout_info <-
    match pages document_dict with
    | Some ps => for_each (page_step text) ps []
    | None => Ok []
    end ;;
  Ok (text, layout_info).

(** The overlap test of lines 244-248. *)
Definition overlaps (lay : TextSpan) (start_pos end_pos : Z) : bool :=
  ((sp_start lay <=? start_pos) && (start_pos <? sp_end lay)
   || (sp_start lay <? end_pos) && (end_pos <=? sp_end lay)
   || (start_pos <=? sp_start lay) && (sp_start lay <? end_pos))%Z.

(** The loop of lines 243-252: the first span that passes the test and
    has a box. *)
Fixpoint scan_layout (layout_info : list TextSpan) (start_pos end_pos : Z)
    : option BBox :=
  match layout_info with
  | [] => None
  | lay :: rest =>
      if overlaps lay start_pos end_pos then
        match sp_bbox lay with
        | Some b => Some b
        | None => scan_layout rest start_pos end_pos
        end
      else scan_layout rest start_pos end_pos
  end.

(** Lines 229-252. *)
Definition find_coordinates_for_text (target_text text : str)
    (layout_info : list TextSpan) : option BBox :=
  let text_upper := upper text in
  let target_upper := upper target_text in
  let start_pos := find target_upper text_upper in
  if (start_pos =? -1)%Z then None
  else
    let end_pos := (start_pos + len target_text)%Z in
    scan_layout layout_info start_pos end_pos.

(** Python's truth of an optional value: a match object, or a box (a
    dict with four keys). *)
Definition truthy {A : Type} (o : option A) : bool :=
  match o with
  | Some _ => true
  | None => false
  end.

(** Lines 293-304; the pattern is [^\d+$]. *)
Definition normalize_piping_line (line : str) : str :=
  let components := split dash line in
  match components with
  | first_component :: rest =>
      if truthy (re_match (seq [Bos; plus is_digit; Eos]) first_component)
      then join dash ((first_component ++ [inch]) :: rest)
      else line
  | [] => line
  end.

(** Lines 306-336; the patterns are [[A-Z]], [\d] and [^[A-Z0-9]+$]. *)
Definition validate_piping_line (line : str) : bool :=
  let components := split dash line in
  if negb (length components =? 4) then false
  else if negb (truthy (re_search (Cls is_upper) line)) then false
  else if negb (truthy (re_search (Cls is_digit) line)) then false
  else if (20 <? length line) || (length line <? 7) then false
  else
    let first_component := nth 0 components [] in
    if negb (truthy (re_search (Cls is_digit) first_component)) then false
    else
      let last_component := nth 3 components [] in
      if negb (truthy (re_match (seq [Bos; plus (fun c => is_upper c || is_digit c); Eos])
                         last_component))
      then false
      else true.

(** The three patterns of lines 262-268, under [re.IGNORECASE]. *)
Definition letters : ascii -> bool := icase is_upper.
Definition alnums : ascii -> bool := icase (fun c => is_upper c || is_digit c).
Definition alnums_inch : ascii -> bool :=
  icase (fun c => is_upper c || is_digit c || is_char inch c).
Definition lit_dash : regex := Cls (icase (is_char dash)).

Definition tail_components : list regex :=
  [lit_dash; rng letters 1 3; lit_dash; rng alnums 1 3; lit_dash;
   rng alnums 1 4; WordB].

Definition pattern1 : regex :=
  seq ([WordB; rng (icase is_digit) 1 2; Cls (icase (is_char inch))]
       ++ tail_components).

Definition pattern2 : regex :=
  seq ([WordB; rng (icase is_digit) 1 2] ++ tail_components).

Definition pattern3 : regex :=
  seq ([WordB; rng alnums_inch 1 4] ++ tail_components).

Definition patterns : list regex := [pattern1; pattern2; pattern3].

(** The body of the innermost loop (lines 276-289). *)
Definition match_step (text : str) (layout_info : list TextSpan)
    (line_num : nat) (line : str) (piping_lines : dict info) (m : str)
    : dict info :=
  let cleaned_match := upper (strip m) in
  if existsb (is_char dash) cleaned_match
     && truthy (re_search (Cls is_upper) cleaned_match)
  then
    let normalized_match := normalize_piping_line cleaned_match in
    let context := firstn 100 (strip line) in
    let coords := find_coordinates_for_text m text layout_info in
    if negb (dict_mem normalized_match piping_lines)
    then dict_set normalized_match (line_num, context, coords) piping_lines
    else piping_lines
  else piping_lines.

(** The loops over the matches of a pattern, the patterns and the
    numbered lines (lines 272-275). *)
Definition pattern_step (text : str) (layout_info : list TextSpan)
    (line_num : nat) (line : str) (piping_lines : dict info) (pattern : regex)
    : dict info :=
  fold_left (match_step text layout_info line_num line)
    (findall pattern line) piping_lines.

Definition line_step (text : str) (layout_info : list TextSpan)
    (piping_lines : dict info) (numbered : nat * str) : dict info :=
  fold_left (pattern_step text layout_info (fst numbered) (snd numbered))
    patterns piping_lines.

(** [enumerate(lines, start)] *)
Fixpoint enumerate {A : Type} (start : nat) (l : list A) : list (nat * A) :=
  match l with
  | [] => []
  | a :: l' => (start, a) :: enumerate (S start) l'
  end.

(** Lines 254-291. *)
Definition extract_piping_line_numbers (text : str)
    (layout_info : list TextSpan) : dict info :=
  let lines := split newline text in
  fold_left (line_step text layout_info) (enumerate 1 lines) [].

(** The two patterns of lines 341 and 347. *)
Definition pid_token : regex :=
  Group (seq [plus (icase (fun c => is_upper c || is_digit c || is_char dash c));
              iword "PID";
              star (icase (fun c => is_upper c || is_digit c || is_char dash c))]).

Definition lit_dot : ascii -> bool := icase (is_char (ascii_of_nat 46)).

Definition pid_pattern : regex :=
  seq [iword "DWG"; Cls lit_dot; star is_space; iword "NO"; opt lit_dot;
       star is_space; pid_token].

Definition pid_pattern2 : regex :=
  seq [iword "DWG"; star is_space; iword "NO"; opt lit_dot;
       star is_space; pid_token].

(** [match.group(1)] *)
Definition group (m : match_obj) : str := get_or (m_group1 m) [].

(** Lines 338-352. *)

Definition extract_pid_identifier (text : str) : option str :=
  match re_search pid_pattern text with
  | Some m => Some (strip (group m))
  | None =>
      match re_search pid_pattern2 text with
      | Some m2 => Some (strip (group m2))
      | None => None
      end
  end.

(** Lines 375-382: the entry of a key; the key is one of the mapping's
    own, so the lookup finds it. *)
Definition entry_of (piping_lines_data : dict info) (piping_line : str)
    : Entry :=
  match get_or (dict_get piping_line piping_lines_data) (0, [], None) with
  | (line_num, ctx, coords) =>
      {| piping_line_number := piping_line;
         text_line_number := line_num;
         context := ctx;
         coordinates := if truthy coords then coords else None |}
  end.

(** Lines 362-384: the assembled result, without the write to disk. *)
Definition save_results_as_json (piping_lines_data : dict info)
    (pdf_file : str) (pid : option str) : Results :=
  {| source_file := pdf_file;
     total_found := length piping_lines_data;
     pid_identifier := pid;
     piping_lines :=
       map (entry_of piping_lines_data) (sorted (dict_keys piping_lines_data)) |}.

(** The dict comprehension of lines 428-432. *)
Definition validated (piping_lines_data : dict info) : dict info :=
  fold_left
    (fun d kv => if validate_piping_line (fst kv)
                 then dict_set (fst kv) (snd kv) d else d)
    piping_lines_data [].

(** Steps 3 to 6 of [process_pdf_to_piping_lines], on the flattened
    text and layout. *)
Definition process_text (pdf_path : str) (text : str)
    (layout_info : list TextSpan) : Results :=
  let pid := extract_pid_identifier text in
  let piping_lines_data := extract_piping_line_numbers text layout_info in
  let validated_lines_data := validated piping_lines_data in
  save_results_as_json validated_lines_data pdf_path pid.

(** Steps 2 to 6, from the service's document. *)
Definition process_pdf_to_piping_lines (pdf_path : str)
    (document_dict : Document) : exc Results :=
  tl <- extract_text_and_layout_from_document document_dict ;;
  Ok (process_text pdf_path (fst tl) (snd tl)).


(* ================================================================== *)
(** ** The vocabulary of the properties *)
(* ================================================================== *)

(** *** Positions, matches and the words a pattern spells *)

(** Moving over the word [w] from one position to another. *)
Definition step (st : state) (w : str) (st' : state) : Prop :=
  ahead st = w ++ ahead st' /\ behind st' = rev w ++ behind st
  /\ group1 st' = group1 st.

(** [n] repetitions are within the upper bound. *)
Definition fits (hi : option nat) (n : nat) : Prop :=
  match hi with
  | Some h => n <= h
  | None => True
  end.

(** The declarative reading of a pattern: [matches r st st'] when [r]
    can take the subject from position [st] to position [st']. *)
Fixpoint matches (r : regex) (st st' : state) : Prop :=
  match r with
  | Cls p => exists c, p c = true /\ step st [c] st'
  | Rep p lo hi =>
      exists w, forallb p w = true /\ lo <= length w /\ fits hi (length w)
                /\ step st w st'
  | WordB => at_boundary st = true /\ st' = st
  | Bos => behind st = [] /\ st' = st
  | Eos => at_end st = true /\ st' = st
  | Cat r1 r2 => exists mid, matches r1 st mid /\ matches r2 mid st'
  | Group r1 =>
      exists mid, matches r1 st mid
                  /\ st' = mk_state (behind mid) (ahead mid) (Some (passed st mid))
  end.

(** The later position [st'] is reached from [st] by passing over some
    word: the subject is the same. *)
Definition moved (st st' : state) : Prop :=
  exists w, ahead st = w ++ ahead st' /\ behind st' = rev w ++ behind st.

(** The position [pre | post] of a subject. *)
Definition at_pos (pre post : str) : state := mk_state (rev pre) post None.

(** [m] is a match of [r] in [s] starting after [pre], leaving [st']. *)
Definition match_at (r : regex) (s pre : str) (st' : state) (m : match_obj)
    : Prop :=
  exists post, s = pre ++ post /\ matches r (at_pos pre post) st'
               /\ m = to_match (at_pos pre post) st'.

(** No match of [r] in [s] starts after [pre]. *)
Definition no_match_at (r : regex) (s pre : str) : Prop :=
  forall post st', s = pre ++ post -> ~ matches r (at_pos pre post) st'.

(** [m] is the text of a match of [r] in [s] that starts after [pre]. *)
Definition text_at (r : regex) (s pre : str) (st' : state) (m : str) : Prop :=
  exists post, s = pre ++ post /\ matches r (at_pos pre post) st'
               /\ m = passed (at_pos pre post) st'.

(** The words a pattern spells, anchors and groups apart. *)
Fixpoint spells (r : regex) (w : str) : Prop :=
  match r with
  | Cls p => exists c, p c = true /\ w = [c]
  | Rep p lo hi => forallb p w = true /\ lo <= length w /\ fits hi (length w)
  | WordB | Bos | Eos => w = []
  | Cat r1 r2 => exists w1 w2, w = w1 ++ w2 /\ spells r1 w1 /\ spells r2 w2
  | Group r1 => spells r1 w
  end.

(** *** Components and shapes of identifiers *)

(** No character of [a] is the separator. *)
Definition free (sep : ascii) (a : str) : bool :=
  forallb (fun c => negb (is_char sep c)) a.

(** [^\d+$], the pattern of the normalization. *)
Definition digits_re : regex := seq [Bos; plus is_digit; Eos].

(** The first component is purely numeric: non-empty, digits only. *)
Definition purely_numeric (c : str) : bool :=
  negb (length c =? 0) && forallb is_digit c.

(** The classes of a normalized identifier. *)
Definition upper_alnum (c : ascii) : bool := is_upper c || is_digit c.
Definition size_class (c : ascii) : bool :=
  is_upper c || is_digit c || is_char inch c.

(** A string [c1-c2-c3-c4] whose components lie in the given classes
    and have the given greatest lengths. *)
Definition four_part (p1 p2 p3 p4 : ascii -> bool) (n1 n2 n3 n4 : nat)
    (m : str) : Prop :=
  exists c1 c2 c3 c4,
    m = c1 ++ dash :: c2 ++ dash :: c3 ++ dash :: c4
    /\ (forallb p1 c1 = true /\ 1 <= length c1 <= n1)
    /\ (forallb p2 c2 = true /\ 1 <= length c2 <= n2)
    /\ (forallb p3 c3 = true /\ 1 <= length c3 <= n3)
    /\ (forallb p4 c4 = true /\ 1 <= length c4 <= n4).

(** What a raw match looks like, and what a key of the mapping looks like. *)
Definition match_shape : str -> Prop :=
  four_part alnums_inch letters alnums alnums 4 3 3 4.
Definition key_shape : str -> Prop :=
  four_part size_class is_upper upper_alnum upper_alnum 5 3 3 4.

(** *** Candidates, in the order the loops meet them *)

(** A candidate: the normalized identifier and what would be stored
    for it. *)
Definition event : Type := (str * info)%type.

(** Recording a candidate unless its key is already there: the test and
    the assignment of lines 288-289. *)
Definition add_first (d : dict info) (e : event) : dict info :=
  if negb (dict_mem (fst e) d) then dict_set (fst e) (snd e) d else d.

(** The first event with key [k], if any. *)
Fixpoint first_seen (k : str) (evs : list event) : option info :=
  match evs with
  | [] => None
  | e :: evs' => if str_eqb k (fst e) then Some (snd e) else first_seen k evs'
  end.

(** The test of line 279 on a raw match. *)
Definition is_candidate (m : str) : bool :=
  existsb (is_char dash) (upper (strip m))
  && truthy (re_search (Cls is_upper) (upper (strip m))).

(** What lines 280-289 would record for a raw match. *)
Definition candidate_of (text : str) (layout_info : list TextSpan)
    (line_num : nat) (line m : str) : event :=
  (normalize_piping_line (upper (strip m)),
   (line_num, firstn 100 (strip line),
    find_coordinates_for_text m text layout_info)).

(** The raw matches of a line: pattern by pattern, left to right. *)
Definition line_matches (line : str) : list str :=
  flat_map (fun pattern => findall pattern line) patterns.

Definition line_candidates (text : str) (layout_info : list TextSpan)
    (numbered : nat * str) : list event :=
  map (candidate_of text layout_info (fst numbered) (snd numbered))
      (filter is_candidate (line_matches (snd numbered))).

Definition candidates (text : str) (layout_info : list TextSpan)
    : list event :=
  flat_map (line_candidates text layout_info)
           (enumerate 1 (split newline text)).

(** The cleaned match: uppercase, four components. *)
Definition cleaned_shape : str -> Prop :=
  four_part size_class is_upper upper_alnum upper_alnum 4 3 3 4.

(** *** The validation rule and the result *)

(** The rule of the specification, in its words: exactly four
    dash-separated components; a letter and a digit somewhere; between 7
    and 20 characters; a digit in the first component; only alphanumeric
    characters in the fourth. *)
Definition spec_valid (s : str) : Prop :=
  let components := split dash s in
  length components = 4
  /\ (exists c, In c s /\ is_letter c = true)
  /\ (exists c, In c s /\ is_digit c = true)
  /\ 7 <= length s <= 20
  /\ (exists c, In c (nth 0 components []) /\ is_digit c = true)
  /\ (forall c, In c (nth 3 components []) -> is_alnum c = true).

(** [^[A-Z0-9]+$], the pattern for the last component. *)
Definition alnum_re : regex :=
  seq [Bos; plus (fun c => is_upper c || is_digit c); Eos].



(** [a <= b] in Python's order. *)
Definition str_le (a b : str) : Prop := str_ltb b a = false.

(** The validated mapping of a document. *)
Definition validated_lines (text : str) (layout_info : list TextSpan)
    : dict info :=
  validated (extract_piping_line_numbers text layout_info).

(** The identifiers of the output list. *)
Definition identifiers (r : Results) : list str :=
  map piping_line_number (piping_lines r).

(** *** Example inputs *)

(** The identifier of the specification's counter-case: a second
    component made of digits. *)
Definition digit_area_example : str := lit "6" ++ [inch] ++ lit "-12-101-CS".


(** The text of the end-to-end example: two lines, the first with a
    piping line number, the second with the drawing number. *)
Definition example_text : str :=
  lit "Size 6" ++ [inch] ++ lit "-P-101-CS to reactor" ++ [newline]
  ++ lit "DWG. NO. XY-99-PID".

(** The identifier as the text has it, and the same with a second inch
    mark at the end. *)
Definition example_id : str := lit "6" ++ [inch] ++ lit "-P-101-CS".
Definition example_id_inch_at_end : str := example_id ++ [inch].

(** A first component of digits followed by a line break. *)
Definition newline_size_example : str := lit "6" ++ [newline] ++ lit "-P-101-CS".

(** A document with one token whose bounding polygon has one vertex. *)
Definition one_vertex_document : Document :=
  {| doc_text := Some (lit "AB");
     pages :=
       Some [{| tokens :=
                  Some [{| layout :=
                             Some {| textAnchor :=
                                       Some {| textSegments :=
                                                 Some [{| startIndex := Some 0%Z;
                                                          endIndex := Some 2%Z |}] |};
                                     boundingPoly :=
                                       Some {| vertices :=
                                                 Some [{| v_x := Some 1%Z;
                                                          v_y := Some 2%Z |}] |} |} |}] |}] |}.

(** *** Layout flattening *)

(** The tokens of a document and the segments of a token, in order,
    absent sections counting as empty. *)
Definition doc_tokens (doc : Document) : list Token :=
  flat_map (fun p => get_or (tokens p) []) (get_or (pages doc) []).

Definition token_segments (t : Token) : list Segment :=
  match layout t with
  | Some lay =>
      match textAnchor lay with
      | Some ta => get_or (textSegments ta) []
      | None => []
      end
  | None => []
  end.



(** A bounding polygon the code can read: no vertices, or three and more. *)
Definition poly_ok (lay : Layout) : bool :=
  match boundingPoly lay with
  | Some poly =>
      match get_or (vertices poly) [] with
      | [] => true
      | vs => 3 <=? length vs
      end
  | None => true
  end.

(** A token the code can flatten: one without segments, whose polygon
    is never read, or one with a readable polygon. *)
Definition token_ok (t : Token) : bool :=
  match token_segments t, layout t with
  | _ :: _, Some lay => poly_ok lay
  | _, _ => true
  end.

(** Every token of the document can be flattened. *)
Definition polygons_ok (doc : Document) : bool :=
  forallb token_ok (doc_tokens doc).

(** The spans of one token, when its polygon can be read. *)
Definition token_spans (text : str) (t : Token) : list TextSpan :=
  match layout t with
  | Some lay =>
      match token_bbox lay with
      | Ok bbox =>
          map (fun s => make_span text (get_or (startIndex s) 0%Z)
                          (get_or (endIndex s) 0%Z) bbox)
              (token_segments t)
      | Raise _ => []
      end
  | None => []
  end.



(** *** Coordinate resolution *)

(** [needle] occurs in [hay] right after [pre]. *)
Definition occurs_at (needle hay pre : str) : Prop :=
  exists post, hay = pre ++ needle ++ post.

(** The overlap test in the words of the specification: two ranges
    intersect when neither lies wholly before the other. *)
Definition spec_overlaps (lay : TextSpan) (start_pos end_pos : Z) : bool :=
  negb (sp_end lay <=? start_pos)%Z && negb (end_pos <=? sp_start lay)%Z.

(** The bounding box of the first span that passes a test and has one. *)
Fixpoint first_box (test : TextSpan -> bool) (layout_info : list TextSpan)
    : option BBox :=
  match layout_info with
  | [] => None
  | lay :: rest =>
      if test lay then
        match sp_bbox lay with
        | Some b => Some b
        | None => first_box test rest
        end
      else first_box test rest
  end.

(** Coordinate resolution with the specification's overlap test. *)
Definition spec_find_coordinates (target_text text : str)
    (layout_info : list TextSpan) : option BBox :=
  let start_pos := find (upper target_text) (upper text) in
  if (start_pos =? -1)%Z then None
  else
    first_box
      (fun lay => spec_overlaps lay start_pos (start_pos + len target_text))
      layout_info.

(** The mapping without its coordinates. *)
Definition forget (e : event) : str * (nat * str) :=
  (fst e, (fst (fst (snd e)), snd (fst (snd e)))).

(** A document whose only segment has a start index and no end index, so
    that the span runs from 2 to the default 0, over the text xAB. *)
Definition open_segment_document : Document :=
  {| doc_text := Some (lit "xAB");
     pages :=
       Some [{| tokens :=
                  Some [{| layout :=
                             Some {| textAnchor :=
                                       Some {| textSegments :=
                                                 Some [{| startIndex := Some 2%Z;
                                                          endIndex := None |}] |};
                                     boundingPoly :=
                                       Some {| vertices :=
                                                 Some [{| v_x := Some 1%Z; v_y := Some 2%Z |};
                                                       {| v_x := Some 5%Z; v_y := Some 2%Z |};
                                                       {| v_x := Some 5%Z; v_y := Some 4%Z |}] |} |} |}] |}] |}.

(** The span the flattening makes of it: no character between 2 and 0. *)
Definition empty_span : TextSpan :=
  {| sp_start := 2; sp_end := 0;
     sp_bbox := Some {| bx := 1; by_ := 2; width := 4; height := 2 |};
     sp_text := [] |}.

(** *** The PID identifier *)

(** Patterns made of classes and repetitions only. *)
Fixpoint plain (r : regex) : bool :=
  match r with
  | Cls _ | Rep _ _ _ => true
  | WordB | Bos | Eos | Group _ => false
  | Cat r1 r2 => plain r1 && plain r2
  end.

Definition dot : ascii := ascii_of_nat 46.

(** A character of the token: a letter, a digit or a dash. *)
Definition token_char : ascii -> bool :=
  icase (fun c => is_upper c || is_digit c || is_char dash c).

(** The label before the token, with or without the period after DWG. *)
Definition label_items (with_dot : bool) : list regex :=
  [iword "DWG"] ++ (if with_dot then [Cls lit_dot] else [])
  ++ [star is_space; iword "NO"; opt lit_dot; star is_space].

Definition token_re : regex :=
  seq [plus token_char; iword "PID"; star token_char].

Definition pid_re (with_dot : bool) : regex :=
  seq (label_items with_dot ++ [Group token_re]).

(** The same in plain terms.  A label: DWG, the period if asked for,
    white space, NO, a period or none, white space; letters in either
    case. *)
Definition is_label (with_dot : bool) (lab : str) : Prop :=
  exists dwg ws1 no d2 ws2,
    lab = dwg ++ (if with_dot then [dot] else []) ++ ws1 ++ no ++ d2 ++ ws2
    /\ upper dwg = lit "DWG" /\ forallb is_space ws1 = true
    /\ upper no = lit "NO" /\ (d2 = [] \/ d2 = [dot])
    /\ forallb is_space ws2 = true.

(** A token: token characters, at least one, then PID in either case,
    then token characters. *)
Definition is_token (tok : str) : Prop :=
  exists t1 p t2,
    tok = t1 ++ p ++ t2
    /\ t1 <> [] /\ forallb token_char t1 = true
    /\ upper p = lit "PID" /\ forallb token_char t2 = true.

(** A label and a token in [text], right after [pre] and before [post]. *)
Definition pid_occurrence (with_dot : bool) (text pre tok post : str) : Prop :=
  exists lab, text = pre ++ lab ++ tok ++ post
              /\ is_label with_dot lab /\ is_token tok.

(** The search as the specification words it: first with the period
    after NO required, then with that period not required, the period
    after DWG optional in both. *)
Definition spec_pid_first : regex :=
  seq [iword "DWG"; opt lit_dot; star is_space; iword "NO"; Cls lit_dot;
       star is_space; pid_token].

Definition spec_pid_second : regex :=
  seq [iword "DWG"; opt lit_dot; star is_space; iword "NO"; opt lit_dot;
       star is_space; pid_token].

Definition spec_extract_pid (text : str) : option str :=
  match re_search spec_pid_first text with
  | Some m => Some (strip (group m))
  | None =>
      match re_search spec_pid_second text with
      | Some m2 => Some (strip (group m2))
      | None => None
      end
  end.

(** Two labelled tokens: the first with the period after DWG only, the
    second with the period after NO only. *)
Definition two_labels_text : str := lit "DWG. NO A-PID DWG NO. B-PID".

(** What follows the token in the text does not start with a token
    character. *)
Definition token_ends (rest : str) : bool :=
  match rest with
  | c :: _ => negb (token_char c)
  | [] => true
  end.

(** The place of a whole token: a label and a token in [text], right
    after [pre], the token going on as far as token characters go. *)
Definition pid_place (with_dot : bool) (text pre tok : str) : Prop :=
  exists lab post,
    text = pre ++ lab ++ tok ++ post
    /\ is_label with_dot lab /\ is_token tok /\ token_ends post = true.

(** No label and token start before [pre]. *)
Definition leftmost_label (with_dot : bool) (text pre : str) : Prop :=
  forall pre' tok' post',
    pid_occurrence with_dot text pre' tok' post' -> length pre <= length pre'.

(** A string does not start with a character of the class. *)
Definition stops (p : ascii -> bool) (rest : str) : Prop :=
  match rest with
  | c :: _ => p c = false
  | [] => True
  end.

(** A document with nothing in it but a page without tokens and a token
    without layout. *)
Definition sparse_document : Document :=
  {| doc_text := None;
     pages := Some [{| tokens := None |};
                    {| tokens := Some [{| layout := None |}] |}] |}.

(** Two lines with the same identifier, the first without its inch
    mark. *)
Definition two_lines_text : str :=
  lit "6-P-101-CS" ++ [newline] ++ lit "at 6" ++ [inch] ++ lit "-P-101-CS".


(* ================================================================== *)
(** ** The surroundings of the extractor *)
(* ================================================================== *)

(** The rest of [process_pdf_to_piping_lines.py] and the server of
    [main.py] talk to the outside: the environment, the file system, the
    credentials library and the document service.  The outside is a
    record of oracles ([World]); a program takes its local variables and
    returns the trace of what it did to the outside, the local variables
    at its end and its result or exception.  What the source prints is
    left out. *)

(** *** More of Python's [str] and [os.path] *)

(** [s.lower()] *)
Definition lower (s : str) : str := map lower_char s.

(** [s.endswith(suffix)] *)
Definition ends_with (suffix s : str) : bool :=
  starts_with (rev suffix) (rev s).

(** [sep.join(parts)] for a separator of any length. *)
Fixpoint join_str (sep : str) (parts : list str) : str :=
  match parts with
  | [] => []
  | [p] => p
  | p :: rest => p ++ sep ++ join_str sep rest
  end.

(** [s.replace(old, new)]: the occurrences of [old] are replaced from
    the left, without overlap; [skip] counts the characters of an
    occurrence still to pass.  An empty [old] matches before every
    character and at the end. *)
Fixpoint replace_from (old new s : str) (skip : nat) : str :=
  match s with
  | [] => []
  | c :: s' =>
      match skip with
      | S n => replace_from old new s' n
      | O =>
          if starts_with old s
          then new ++ replace_from old new s' (length old - 1)
          else c :: replace_from old new s' 0
      end
  end.

Definition replace (old new s : str) : str :=
  match old with
  | [] => new ++ flat_map (fun c => c :: new) s
  | _ :: _ => replace_from old new s 0
  end.

Definition slash : ascii := ascii_of_nat 47.
Definition backslash : ascii := ascii_of_nat 92.

(** [s.rfind(c)] for one character: the greatest offset of [c], or
    [-1]. *)
Fixpoint rfind_from (i : Z) (c : ascii) (s : str) (last : Z) : Z :=
  match s with
  | [] => last
  | x :: s' => rfind_from (i + 1) c s' (if Ascii.eqb x c then i else last)
  end.

Definition rfind (c : ascii) (s : str) : Z := rfind_from 0 c s (-1).

(** [os.path.basename] of [posixpath]: [p[p.rfind('/') + 1:]]. *)
Definition basename (p : str) : str := slice p (rfind slash p + 1) (len p).

(** [os.path.splitext] of [posixpath]: the extension starts at the last
    dot of the last component, unless only dots come before it there. *)
Definition splitext (p : str) : str * str :=
  let sepIndex := rfind slash p in
  let dotIndex := rfind dot p in
  if (sepIndex <? dotIndex)%Z
     && existsb (fun c => negb (Ascii.eqb c dot))
                (slice p (sepIndex + 1) dotIndex)
  then (slice p 0 dotIndex, slice p dotIndex (len p))
  else (p, []).

(** Python's truth of a value of [os.getenv]: set and not empty. *)
Definition truthy_str (v : option str) : bool :=
  match v with
  | Some (_ :: _) => true
  | _ => false
  end.

(** *** Exceptions, the outside and programs *)

Inductive exn : Type :=
| FileNotFoundError (msg : str)
| ValueError (msg : str)
| Core (e : py_error)
| HTTPException (status_code : nat) (detail : str)
| UnboundLocalError (name : str)
| Outside (msg : str).

Inductive result (A : Type) : Type :=
| Ret (a : A)
| Exn (e : exn).

Arguments Ret {A} a.
Arguments Exn {A} e.

(** The dict handed to [from_service_account_info]. *)
Record service_account_info : Type := {
  sa_type : option str;
  sa_project_id : option str;
  sa_private_key_id : option str;
  sa_private_key : str;
  sa_client_email : option str;
  sa_client_id : option str;
  sa_auth_uri : option str;
  sa_token_uri : option str;
  sa_auth_provider_x509_cert_url : option str;
  sa_client_x509_cert_url : option str
}.

Inductive credentials : Type :=
| FromInfo (i : service_account_info)
| FromFile (path : str)
| ApplicationDefault.

Record client : Type := {
  client_credentials : credentials;
  api_endpoint : str
}.

(** One call of [process_document]: the client, the three parts of the
    processor's resource name and the bytes of the PDF. *)
Record request : Type := {
  rq_client : client;
  rq_project : option str;
  rq_location : str;
  rq_processor : option str;
  rq_content : str
}.

(** The JSON object written or returned: the result with the name of
    the script that made it (the timestamp is left out). *)
Record Output : Type := {
  extraction_script : str;
  results : Results
}.

(** What a program does to the outside.  A request is recorded when it
    is sent; a file operation when it has succeeded. *)
Inductive effect : Type :=
| Requested (r : request)
| Written (path : str) (o : Output)
| TempCreated (path : str)
| Unlinked (path : str).

(** The outside.  An oracle that may raise gives the exception; [None]
    is success for those that return nothing. *)
Record World : Type := {
  os_getenv : str -> option str;
  os_path_exists : str -> bool;
  read_bytes : str -> result str;
  from_service_account_info : service_account_info -> option exn;
  from_service_account_file : str -> option exn;
  default_credentials : option exn;
  process_document : request -> result Document;
  json_dump : str -> option exn;
  named_temporary_file : result str;
  temp_write : option exn;
  os_unlink : str -> option exn;
  str_of : exn -> str
}.

Definition prog (S A : Type) : Type := S -> list effect * S * result A.

Definition ret {S A : Type} (a : A) : prog S A := fun s => ([], s, Ret a).

Definition raise {S A : Type} (e : exn) : prog S A :=
  fun s => ([], s, Exn e).

Definition emit {S : Type} (e : effect) : prog S unit :=
  fun s => ([e], s, Ret tt).

Definition and_then {S A B : Type} (m : prog S A) (f : A -> prog S B)
    : prog S B :=
  fun s =>
    match m s with
    | (t, s', Ret a) =>
        match f a s' with
        | (t', s'', r) => (t ++ t', s'', r)
        end
    | (t, s', Exn e) => (t, s', Exn e)
    end.

Notation "x <~ m ;; f" := (and_then m (fun x => f))
  (at level 61, m at next level, right associativity).

Definition of_result {S A : Type} (r : result A) : prog S A :=
  fun s => ([], s, r).

Definition check {S : Type} (o : option exn) : prog S unit :=
  match o with
  | None => ret tt
  | Some e => raise e
  end.

Definition of_exc {S A : Type} (m : exc A) : prog S A :=
  match m with
  | Ok a => ret a
  | Raise e => raise (Core e)
  end.

Definition local {S : Type} : prog S S := fun s => ([], s, Ret s).

Definition assign {S : Type} (f : S -> S) : prog S unit :=
  fun s => ([], f s, Ret tt).

(** [try: body except Exception as e: handler(e)] *)
Definition try_except {S A : Type} (body : prog S A)
    (handler : exn -> prog S A) : prog S A :=
  fun s =>
    match body s with
    | (t, s', Exn e) =>
        match handler e s' with
        | (t', s'', r) => (t ++ t', s'', r)
        end
    | done => done
    end.

(** [try: body finally: cleanup]: an exception of the cleanup replaces
    the outcome of the body. *)
Definition try_finally {S A : Type} (body : prog S A)
    (cleanup : prog S unit) : prog S A :=
  fun s =>
    match body s with
    | (t, s', r) =>
        match cleanup s' with
        | (t', s'', Ret _) => (t ++ t', s'', r)
        | (t', s'', Exn e) => (t ++ t', s'', Exn e)
        end
    end.

(** *** The class [PipingLineExtractor] *)

Module Extractor.

Record PipingLineExtractor : Type := {
  project_id : option str;
  location : str;
  processor_id : option str;
  service_account_file : option str
}.

(** Lines 28-32: [__init__]. *)
Definition init (w : World) : PipingLineExtractor :=
  {| project_id := os_getenv w (lit "GOOGLE_CLOUD_PROJECT_ID");
     location := get_or (os_getenv w (lit "GOOGLE_CLOUD_LOCATION")) (lit "eu");
     processor_id := os_getenv w (lit "DOCUMENT_AI_PROCESSOR_ID");
     service_account_file :=
       os_getenv w (lit "GOOGLE_APPLICATION_CREDENTIALS") |}.

(** Lines 36-45: the names of the required variables that are unset or
    empty, in the order of the dict. *)
Definition missing_vars (self : PipingLineExtractor) : list str :=
  let required_vars :=
    [(lit "GOOGLE_CLOUD_PROJECT_ID", project_id self);
     (lit "DOCUMENT_AI_PROCESSOR_ID", processor_id self)] in
  fold_left
    (fun missing (kv : str * option str) =>
       if negb (truthy_str (snd kv)) then missing ++ [fst kv] else missing)
    required_vars [].

(** Lines 34-60. *)
Definition validate_environment_variables (self : PipingLineExtractor)
    : bool :=
  match missing_vars self with
  | _ :: _ => false
  | [] => true
  end.

(** Lines 83-88: the private key taken from the environment. *)
Definition clean_private_key (raw_private_key : str) : str :=
  let private_key := replace [backslash; "n"%char] [newline] raw_private_key in
  if starts_with [inch] private_key && ends_with [inch] private_key
  then slice private_key 1 (-1)
  else private_key.

(** The eight variables of lines 65-76. *)
Definition credential_vars : list str :=
  [lit "GOOGLE_SERVICE_ACCOUNT_TYPE";
   lit "GOOGLE_SERVICE_ACCOUNT_PROJECT_ID";
   lit "GOOGLE_SERVICE_ACCOUNT_PRIVATE_KEY_ID";
   lit "GOOGLE_SERVICE_ACCOUNT_PRIVATE_KEY";
   lit "GOOGLE_SERVICE_ACCOUNT_CLIENT_EMAIL";
   lit "GOOGLE_SERVICE_ACCOUNT_CLIENT_ID";
   lit "GOOGLE_SERVICE_ACCOUNT_AUTH_URI";
   lit "GOOGLE_SERVICE_ACCOUNT_TOKEN_URI"].

(** Lines 90-106. *)
Definition info_from_environment (w : World) : service_account_info :=
  {| sa_type := os_getenv w (lit "GOOGLE_SERVICE_ACCOUNT_TYPE");
     sa_project_id := os_getenv w (lit "GOOGLE_SERVICE_ACCOUNT_PROJECT_ID");
     sa_private_key_id :=
       os_getenv w (lit "GOOGLE_SERVICE_ACCOUNT_PRIVATE_KEY_ID");
     sa_private_key :=
       clean_private_key
         (get_or (os_getenv w (lit "GOOGLE_SERVICE_ACCOUNT_PRIVATE_KEY")) []);
     sa_client_email :=
       os_getenv w (lit "GOOGLE_SERVICE_ACCOUNT_CLIENT_EMAIL");
     sa_client_id := os_getenv w (lit "GOOGLE_SERVICE_ACCOUNT_CLIENT_ID");
     sa_auth_uri := os_getenv w (lit "GOOGLE_SERVICE_ACCOUNT_AUTH_URI");
     sa_token_uri := os_getenv w (lit "GOOGLE_SERVICE_ACCOUNT_TOKEN_URI");
     sa_auth_provider_x509_cert_url :=
       os_getenv w (lit "GOOGLE_SERVICE_ACCOUNT_AUTH_PROVIDER_X509_CERT_URL");
     sa_client_x509_cert_url :=
       os_getenv w (lit "GOOGLE_SERVICE_ACCOUNT_CLIENT_X509_CERT_URL") |}.

(** Lines 62-135.  The [elif] of the key file belongs to the test of the
    eight variables: after an exception in the first option the method
    goes on to the last [return]. *)
Definition get_client {S : Type} (w : World) (self : PipingLineExtractor)
    : prog S client :=
  let endpoint := location self ++ lit "-documentai.googleapis.com" in
  let application_default : prog S client :=
    _ <~ check (default_credentials w) ;;
    ret {| client_credentials := ApplicationDefault;
           api_endpoint := endpoint |} in
  if forallb (fun v => truthy_str (os_getenv w v)) credential_vars then
    try_except
      (let service_account_info := info_from_environment w in
       _ <~ check (from_service_account_info w service_account_info) ;;
       ret {| client_credentials := FromInfo service_account_info;
              api_endpoint := endpoint |})
      (fun _ => application_default)
  else if truthy_str (service_account_file self)
          && os_path_exists w (get_or (service_account_file self) []) then
    let file := get_or (service_account_file self) [] in
    _ <~ check (from_service_account_file w file) ;;
    ret {| client_credentials := FromFile file; api_endpoint := endpoint |}
  else application_default.

(** Lines 137-172. *)
Definition process_pdf_with_document_ai {S : Type} (w : World)
    (self : PipingLineExtractor) (pdf_path : str) : prog S Document :=
  docai_client <~ get_client w self ;;
  pdf_content <~ of_result (read_bytes w pdf_path) ;;
  let request :=
    {| rq_client := docai_client;
       rq_project := project_id self;
       rq_location := location self;
       rq_processor := processor_id self;
       rq_content := pdf_content |} in
  _ <~ emit (Requested request) ;;
  of_result (process_document w request).

(** Lines 400-403. *)
Definition default_output (pdf_path : str) : str :=
  let base_name := fst (splitext (basename pdf_path)) in
  base_name ++ lit "_piping_lines.json".

(** Lines 385-388: the write of the assembled result. *)
Definition dump {S : Type} (w : World) (output_file : str) (r : Results)
    : prog S unit :=
  _ <~ check (json_dump w output_file) ;;
  emit (Written output_file
          {| extraction_script := lit "process_pdf_to_piping_lines.py";
             results := r |}).

(** Lines 390-450, the whole method. *)
Definition process_pdf_to_piping_lines {S : Type} (w : World)
    (self : PipingLineExtractor) (pdf_path : str)
    (output_json_path : option str) : prog S str :=
  if negb (os_path_exists w pdf_path) then
    raise (FileNotFoundError (lit "PDF file not found: " ++ pdf_path))
  else if negb (validate_environment_variables self) then
    raise (ValueError (lit "Missing required environment variables"))
  else
    let output_json_path :=
      match output_json_path with
      | None => default_output pdf_path
      | Some p => p
      end in
    document_dict <~ process_pdf_with_document_ai w self pdf_path ;;
    tl <~ of_exc (extract_text_and_layout_from_document document_dict) ;;
    _ <~ dump w output_json_path (process_text pdf_path (fst tl) (snd tl)) ;;
    ret output_json_path.

(** Lines 453-473: the trace and the exit status of the command. *)
Definition main (w : World) (argv : list str) : list effect * nat :=
  if length argv <? 2 then ([], 1)
  else
    let pdf_path := nth 1 argv [] in
    let output_json_path :=
      if 2 <? length argv then Some (nth 2 argv []) else None in
    match process_pdf_to_piping_lines w (init w) pdf_path output_json_path tt
    with
    | (t, _, Ret _) => (t, 0)
    | (t, _, Exn _) => (t, 1)
    end.

End Extractor.

(** *** The server of [main.py] *)

Module Server.

Import Extractor.

(** The part of FastAPI's [UploadFile] the handler uses; [read] is
    the outcome of [await file.read()]. *)
Record UploadFile : Type := {
  filename : str;
  size : option Z;
  read : result str
}.

(** The local variables of the handler that its [finally] looks at;
    [temp_file_path] is unbound until its assignment. *)
Record locals : Type := {
  temp_file : option str;
  temp_file_path : option str
}.

Definition unbound : locals := {| temp_file := None; temp_file_path := None |}.

(** Reading a local variable. *)
Definition load (name : string) (v : option str) : prog locals str :=
  match v with
  | Some x => ret x
  | None => raise (UnboundLocalError (lit name))
  end.

(** Lines 86-105: the value of [environment_variables]. *)
Definition health_check (w : World) : str :=
  let required_env_vars :=
    [lit "GOOGLE_CLOUD_PROJECT_ID"; lit "DOCUMENT_AI_PROCESSOR_ID"] in
  let missing_vars :=
    fold_left
      (fun missing var =>
         if negb (truthy_str (os_getenv w var)) then missing ++ [var]
         else missing)
      required_env_vars [] in
  match missing_vars with
  | [] => lit "OK"
  | _ :: _ => lit "Missing: " ++ join_str (lit ", ") missing_vars
  end.

(** Lines 173-203: the result assembled in the handler. *)
Definition assemble (source : str) (validated_lines_data : dict info)
    (pid : option str) : Output :=
  let result :=
    {| source_file := source;
       total_found := length validated_lines_data;
       pid_identifier := pid;
       piping_lines := [] |} in
  let result :=
    fold_left
      (fun (result : Results) piping_line =>
         {| source_file := source_file result;
            total_found := total_found result;
            pid_identifier := pid_identifier result;
            piping_lines :=
              piping_lines result
              ++ [entry_of validated_lines_data piping_line] |})
      (sorted (dict_keys validated_lines_data)) result in
  {| extraction_script := lit "fastapi_server/main.py"; results := result |}.

(** Lines 138-206: the body of the [try]. *)
Definition handle (w : World) (file : UploadFile) : prog locals Output :=
  name <~ of_result (named_temporary_file w) ;;
  _ <~ emit (TempCreated name) ;;
  _ <~ assign (fun l => {| temp_file := Some name;
                           temp_file_path := temp_file_path l |}) ;;
  content <~ of_result (read file) ;;
  _ <~ check (temp_write w) ;;
  _ <~ assign (fun l => {| temp_file := temp_file l;
                           temp_file_path := Some name |}) ;;
  let extractor := init w in
  if negb (validate_environment_variables extractor) then
    raise (HTTPException 500
             (lit "Server configuration error: Missing required environment variables for Google Document AI"))
  else
    l <~ local ;;
    path <~ load "temp_file_path" (temp_file_path l) ;;
    document_dict <~ process_pdf_with_document_ai w extractor path ;;
    tl <~ of_exc (extract_text_and_layout_from_document document_dict) ;;
    let text := fst tl in
    let layout_info := snd tl in
    let pid_identifier := extract_pid_identifier text in
    let piping_lines_data := extract_piping_line_numbers text layout_info in
    let validated_lines_data := validated piping_lines_data in
    ret (assemble (filename file) validated_lines_data pid_identifier).

(** Lines 219-227: the [finally]. *)
Definition cleanup (w : World) : prog locals unit :=
  l <~ local ;;
  if truthy (temp_file l) then
    path <~ load "temp_file_path" (temp_file_path l) ;;
    if os_path_exists w path then
      try_except
        (_ <~ check (os_unlink w path) ;; emit (Unlinked path))
        (fun _ => ret tt)
    else ret tt
  else ret tt.

(** Lines 108-227: the handler of [POST /extract-piping-lines/].  A
    returned [Output] is the body of the 200 response; an
    [HTTPException] becomes the response of its status; any other
    exception leaves the handler unhandled. *)
Definition extract_piping_lines (w : World) (file : UploadFile)
    : prog locals Output :=
  if negb (ends_with (lit ".pdf") (lower (filename file))) then
    raise (HTTPException 400
             (lit "File must be a PDF (.pdf extension required)"))
  else if match size file with
          | Some n => negb (n =? 0)%Z && (50 * 1024 * 1024 <? n)%Z
          | None => false
          end then
    raise (HTTPException 400 (lit "File size too large. Maximum size: 50MB"))
  else
    _ <~ assign (fun l => {| temp_file := None;
                             temp_file_path := temp_file_path l |}) ;;
    try_finally
      (try_except
         (handle w file)
         (fun e =>
            let error_msg := lit "Error processing PDF file: " ++ str_of w e in
            raise (HTTPException 500 error_msg)))
      (cleanup w).

End Server.


(** *** The vocabulary of the surroundings *)

(** The two characters of an escaped newline, and [replace] with them. *)
Definition escaped_newline : str := [backslash; "n"%char].

Definition unescape (s : str) : str := replace escaped_newline [newline] s.

(** *** The outside: traces and example worlds *)

(** The parts of the outcome of a run. *)
Definition trace {S A : Type} (run : list effect * S * result A)
    : list effect := fst (fst run).
Definition outcome {S A : Type} (run : list effect * S * result A)
    : result A := snd run.

(** The test of lines 64-77 and the test of line 119. *)
Definition env_credentials_set (w : World) : bool :=
  forallb (fun v => truthy_str (os_getenv w v)) Extractor.credential_vars.

Definition key_file_usable (w : World)
    (self : Extractor.PipingLineExtractor) : bool :=
  truthy_str (Extractor.service_account_file self)
  && os_path_exists w (get_or (Extractor.service_account_file self) []).

Definition endpoint_of (self : Extractor.PipingLineExtractor) : str :=
  Extractor.location self ++ lit "-documentai.googleapis.com".

(** The client of Application Default Credentials, when they are
    found. *)
Definition application_default (w : World)
    (self : Extractor.PipingLineExtractor) : result client :=
  match default_credentials w with
  | None => Ret {| client_credentials := ApplicationDefault;
                   api_endpoint := endpoint_of self |}
  | Some e => Exn e
  end.

(** The request [process_pdf_with_document_ai] sends with a client and
    the bytes of the file. *)
Definition request_of (self : Extractor.PipingLineExtractor) (c : client)
    (content : str) : request :=
  {| rq_client := c;
     rq_project := Extractor.project_id self;
     rq_location := Extractor.location self;
     rq_processor := Extractor.processor_id self;
     rq_content := content |}.

(** What the command line writes for a document. *)
Definition cli_output (r : Results) : Output :=
  {| extraction_script := lit "process_pdf_to_piping_lines.py"; results := r |}.

(** An environment from a list of settings. *)
Definition env_of (vars : list (str * str)) : str -> option str :=
  fun name => dict_get name vars.

(** The document of the end-to-end example. *)
Definition example_document : Document :=
  {| doc_text := Some example_text; pages := None |}.

(** A world where everything works: the two required variables are set,
    every file exists, default credentials are found and the service
    answers with the example document. *)
Definition example_world : World :=
  {| os_getenv :=
       env_of [(lit "GOOGLE_CLOUD_PROJECT_ID", lit "plant");
               (lit "DOCUMENT_AI_PROCESSOR_ID", lit "ocr")];
     os_path_exists := fun _ => true;
     read_bytes := fun _ => Ret (lit "%PDF-1.7");
     from_service_account_info := fun _ => None;
     from_service_account_file := fun _ => None;
     default_credentials := None;
     process_document := fun _ => Ret example_document;
     json_dump := fun _ => None;
     named_temporary_file := Ret (lit "/tmp/tmpa1b2.pdf");
     temp_write := None;
     os_unlink := fun _ => None;
     str_of := fun _ => lit "error" |}.

(** The same world with the eight credential variables set to a key the
    library rejects, and a key file that exists. *)
Definition rejected_key_world : World :=
  {| os_getenv :=
       env_of [(lit "GOOGLE_CLOUD_PROJECT_ID", lit "plant");
               (lit "DOCUMENT_AI_PROCESSOR_ID", lit "ocr");
               (lit "GOOGLE_APPLICATION_CREDENTIALS", lit "key.json");
               (lit "GOOGLE_SERVICE_ACCOUNT_TYPE", lit "service_account");
               (lit "GOOGLE_SERVICE_ACCOUNT_PROJECT_ID", lit "plant");
               (lit "GOOGLE_SERVICE_ACCOUNT_PRIVATE_KEY_ID", lit "1");
               (lit "GOOGLE_SERVICE_ACCOUNT_PRIVATE_KEY", lit "not a key");
               (lit "GOOGLE_SERVICE_ACCOUNT_CLIENT_EMAIL", lit "a@b");
               (lit "GOOGLE_SERVICE_ACCOUNT_CLIENT_ID", lit "2");
               (lit "GOOGLE_SERVICE_ACCOUNT_AUTH_URI", lit "https://a");
               (lit "GOOGLE_SERVICE_ACCOUNT_TOKEN_URI", lit "https://t")];
     os_path_exists := fun _ => true;
     read_bytes := fun _ => Ret (lit "%PDF-1.7");
     from_service_account_info := fun _ => Some (ValueError (lit "bad key"));
     from_service_account_file := fun _ => None;
     default_credentials := None;
     process_document := fun _ => Ret example_document;
     json_dump := fun _ => None;
     named_temporary_file := Ret (lit "/tmp/tmpa1b2.pdf");
     temp_write := None;
     os_unlink := fun _ => None;
     str_of := fun _ => lit "error" |}.

(** The limit of line 130, in bytes. *)
Definition size_limit : Z := 52428800.

(** The prefix of the detail of the handler's own 500 response. *)
Definition error_prefix : str := lit "Error processing PDF file: ".

(** The locals once the temporary file is made, and once its path is
    assigned. *)
Definition file_made (name : str) : Server.locals :=
  {| Server.temp_file := Some name; Server.temp_file_path := None |}.
Definition path_assigned (name : str) : Server.locals :=
  {| Server.temp_file := Some name; Server.temp_file_path := Some name |}.

(** What the rest of the [try] does once the temporary file is written:
    its requests and its outcome, the exceptions not yet wrapped. *)
Definition pipeline (w : World) (source name : str)
    : list effect * result Output :=
  let self := Extractor.init w in
  if negb (Extractor.validate_environment_variables self) then
    ([], Exn (HTTPException 500
                (lit "Server configuration error: Missing required environment variables for Google Document AI")))
  else
    match outcome (Extractor.get_client w self (path_assigned name)) with
    | Exn e => ([], Exn e)
    | Ret c =>
        match read_bytes w name with
        | Exn e => ([], Exn e)
        | Ret content =>
            let rq := request_of self c content in
            match process_document w rq with
            | Exn e => ([Requested rq], Exn e)
            | Ret doc =>
                match process_pdf_to_piping_lines source doc with
                | Raise e => ([Requested rq], Exn (Core e))
                | Ok r =>
                    ([Requested rq],
                     Ret {| extraction_script := lit "fastapi_server/main.py";
                            results := r |})
                end
            end
        end
    end.

(** The handler's [except]: any exception becomes a 500 response. *)
Definition wrapped (w : World) (r : result Output) : result Output :=
  match r with
  | Ret o => Ret o
  | Exn e => Exn (HTTPException 500 (error_prefix ++ str_of w e))
  end.

(** What the [finally] does to an existing temporary file. *)
Definition removal (w : World) (name : str) : list effect :=
  if os_path_exists w name
  then match os_unlink w name with
       | None => [Unlinked name]
       | Some _ => []
       end
  else [].

(** An upload named as a PDF of 1000 bytes whose content arrives, and
    one whose connection breaks. *)
Definition example_upload : Server.UploadFile :=
  {| Server.filename := lit "P-101.PDF";
     Server.size := Some 1000%Z;
     Server.read := Ret (lit "%PDF-1.7") |}.

Definition broken_upload : Server.UploadFile :=
  {| Server.filename := lit "P-101.pdf";
     Server.size := None;
     Server.read := Exn (Outside (lit "client disconnected")) |}.

(** The world of the example with a service that answers with the
    document of one vertex. *)
Definition short_polygon_world : World :=
  {| os_getenv := os_getenv example_world;
     os_path_exists := os_path_exists example_world;
     read_bytes := read_bytes example_world;
     from_service_account_info := from_service_account_info example_world;
     from_service_account_file := from_service_account_file example_world;
     default_credentials := default_credentials example_world;
     process_document := fun _ => Ret one_vertex_document;
     json_dump := json_dump example_world;
     named_temporary_file := named_temporary_file example_world;
     temp_write := temp_write example_world;
     os_unlink := os_unlink example_world;
     str_of := str_of example_world |}.

(** The number of dashes of a line. *)
Definition dashes (line : str) : nat := length (filter (is_char dash) line).

(** The result with no record. *)
Definition empty_result (pdf text : str) : Results :=
  {| source_file := pdf;
     total_found := 0;
     pid_identifier := extract_pid_identifier text;
     piping_lines := [] |}.


(* ================================================================== *)
(** ** Facts about characters and strings *)
(* ================================================================== *)

Lemma str_eqb_refl (a : str) : str_eqb a a = true.
Proof.
  induction a as [|x a IH]; simpl; [reflexivity|].
  now rewrite Ascii.eqb_refl, IH.
Qed.

Lemma str_eqb_eq (a b : str) : str_eqb a b = true <-> a = b.
Proof.
  split; [|intros ->; apply str_eqb_refl].
  revert b; induction a as [|x a IH]; intros [|y b]; simpl; try discriminate; auto.
  rewrite andb_true_iff, Ascii.eqb_eq. intros [-> H]. f_equal. now apply IH.
Qed.

Lemma str_eqb_neq (a b : str) : str_eqb a b = false <-> a <> b.
Proof.
  rewrite <- str_eqb_eq. destruct (str_eqb a b); split; congruence.
Qed.

Lemma is_char_eq (a c : ascii) : is_char a c = true <-> c = a.
Proof. unfold is_char. rewrite Ascii.eqb_eq. split; congruence. Qed.

Lemma upper_length (s : str) : length (upper s) = length s.
Proof. apply length_map. Qed.

(** The text between two positions. *)
Lemma passed_moves (st st' : state) (w : str) :
  behind st' = rev w ++ behind st -> passed st st' = w.
Proof.
  intros H. unfold passed. rewrite H, length_app, length_rev.
  replace (length w + length (behind st) - length (behind st)) with (length (rev w)).
  - rewrite firstn_app, Nat.sub_diag, firstn_all. simpl.
    rewrite app_nil_r. apply rev_involutive.
  - rewrite length_rev. lia.
Qed.

(* ================================================================== *)
(** ** What the matcher computes *)
(* ================================================================== *)

Module ReFacts.

Lemma state_eta (st : state) :
  mk_state (behind st) (ahead st) (group1 st) = st.
Proof. now destruct st. Qed.

Lemma step_nil_inv (st st' : state) : step st [] st' -> st' = st.
Proof.
  unfold step; simpl. intros (Ha & Hb & Hg).
  destruct st, st'; simpl in *; congruence.
Qed.

Lemma step_app (st mid st' : state) (w1 w2 : str) :
  step st w1 mid -> step mid w2 st' -> step st (w1 ++ w2) st'.
Proof.
  unfold step. intros (Ha & Hb & Hg) (Ha' & Hb' & Hg').
  rewrite Ha, Ha', Hb', Hb, rev_app_distr, <- !app_assoc. now rewrite Hg', Hg.
Qed.

Lemma moved_refl (st : state) : moved st st.
Proof. now exists []. Qed.

Lemma moved_trans (a b c : state) : moved a b -> moved b c -> moved a c.
Proof.
  intros (w1 & H1 & H2) (w2 & H3 & H4). exists (w1 ++ w2).
  rewrite H1, H3, H4, H2, rev_app_distr, <- !app_assoc. auto.
Qed.

Lemma step_moved (st st' : state) (w : str) : step st w st' -> moved st st'.
Proof. intros (H1 & H2 & _). now exists w. Qed.

Lemma matches_moved (r : regex) :
  forall st st', matches r st st' -> moved st st'.
Proof.
  induction r; simpl; intros st st'.
  - intros (c & _ & H). eapply step_moved; eauto.
  - intros (w & _ & _ & _ & H). eapply step_moved; eauto.
  - intros [_ ->]. apply moved_refl.
  - intros [_ ->]. apply moved_refl.
  - intros [_ ->]. apply moved_refl.
  - intros (mid & H1 & H2). eapply moved_trans; eauto.
  - intros (mid & H1 & ->). apply IHr in H1. destruct H1 as (w & A & B).
    exists w. simpl. auto.
Qed.

Lemma moved_passed (st st' : state) :
  moved st st' -> ahead st = passed st st' ++ ahead st'.
Proof.
  intros (w & H1 & H2). now rewrite (passed_moves st st' w H2).
Qed.

(** *** Greedy repetition *)

Lemma fits_room_pred (hi : option nat) (n : nat) :
  room hi = true -> fits (option_map pred hi) n -> fits hi (S n).
Proof. destruct hi as [[|h]|]; simpl; try discriminate; intros; lia. Qed.

Lemma exec_rep_sound (p : ascii -> bool) (k : state -> option state)
    (g : option str) (res : state) :
  forall a lo hi b,
    exec_rep p lo hi k b a g = Some res ->
    exists w a', a = w ++ a' /\ forallb p w = true /\ lo <= length w
                 /\ fits hi (length w)
                 /\ k (mk_state (rev w ++ b) a' g) = Some res.
Proof.
  assert (Stop : forall a lo hi b,
    (if lo =? 0 then k (mk_state b a g) else None) = Some res ->
    exists w a', a = w ++ a' /\ forallb p w = true /\ lo <= length w
                 /\ fits hi (length w)
                 /\ k (mk_state (rev w ++ b) a' g) = Some res).
  { intros a lo hi b H. destruct (Nat.eqb_spec lo 0); [|discriminate].
    exists [], a. simpl. repeat split; auto; try lia.
    destruct hi; simpl; lia. }
  induction a as [|c a IH]; intros lo hi b; simpl.
  - apply Stop.
  - destruct (p c && room hi) eqn:E; [|apply Stop].
    destruct (exec_rep p (pred lo) (option_map pred hi) k (c :: b) a g) eqn:R;
      [|apply Stop].
    intros [= <-]. apply andb_true_iff in E. destruct E as [Pc Rm].
    apply IH in R. destruct R as (w & a' & -> & Fw & Lo & Hi & K).
    exists (c :: w), a'. simpl. rewrite Pc, Fw, <- app_assoc. simpl.
    repeat split; auto; try lia. now apply fits_room_pred.
Qed.

Lemma exec_rep_complete (p : ascii -> bool) (k : state -> option state)
    (g : option str) :
  forall a lo hi b,
    exec_rep p lo hi k b a g = None ->
    forall w a', a = w ++ a' -> forallb p w = true -> lo <= length w ->
                 fits hi (length w) ->
                 k (mk_state (rev w ++ b) a' g) = None.
Proof.
  induction a as [|c a IH]; intros lo hi b; simpl.
  - intros H w a' E _ Lo _. symmetry in E. apply app_eq_nil in E.
    destruct E as [-> ->]. simpl in *.
    assert (lo = 0) by lia. subst. exact H.
  - intros H [|x w] a' E Fw Lo Hi; simpl in *.
    + subst a'. assert (lo = 0) by lia. subst lo. simpl in H.
      destruct (p c && room hi); [|exact H].
      destruct (exec_rep p 0 (option_map pred hi) k (c :: b) a g); [discriminate|exact H].
    + injection E as <- ->. apply andb_true_iff in Fw. destruct Fw as [Pc Fw].
      assert (Rm : room hi = true) by (destruct hi as [[|h]|]; simpl in *; auto; lia).
      rewrite Pc, Rm in H. simpl in H.
      destruct (exec_rep p (pred lo) (option_map pred hi) k (c :: b) (w ++ a') g) eqn:R;
        [discriminate|].
      rewrite <- app_assoc. simpl.
      eapply IH; eauto; try lia.
      destruct hi as [[|h]|]; simpl in *; auto; lia.
Qed.

(** *** The matcher against its declarative reading *)

Lemma exec_sound (r : regex) :
  forall st k res,
    exec r st k = Some res -> exists st', matches r st st' /\ k st' = Some res.
Proof.
  induction r; simpl; intros st k res H.
  - destruct (ahead st) as [|c a'] eqn:A; [discriminate|].
    destruct (p c) eqn:Pc; [|discriminate].
    eexists. split; [|exact H]. exists c. split; auto.
    unfold step; simpl. auto.
  - apply exec_rep_sound in H. destruct H as (w & a' & A & Fw & Lo & Hi & K).
    eexists. split; [|exact K]. exists w. unfold step; simpl. auto 10.
  - destruct (at_boundary st) eqn:B; [|discriminate]. eauto.
  - destruct (behind st) eqn:B; [|discriminate]. eauto.
  - destruct (at_end st) eqn:B; [|discriminate]. eauto.
  - apply IHr1 in H. destruct H as (mid & M1 & H).
    apply IHr2 in H. destruct H as (st' & M2 & H). eauto.
  - apply IHr in H. destruct H as (mid & M1 & H). eauto.
Qed.

Lemma exec_complete (r : regex) :
  forall st k,
    exec r st k = None -> forall st', matches r st st' -> k st' = None.
Proof.
  induction r; simpl; intros st k H st'.
  - intros (c & Pc & A & B & G). simpl in *. rewrite A in H. rewrite Pc in H.
    rewrite <- B, <- G, state_eta in H. exact H.
  - intros (w & Fw & Lo & Hi & A & B & G).
    eapply exec_rep_complete in H; eauto.
    rewrite <- B, <- G, state_eta in H. exact H.
  - intros [B ->]. now rewrite B in H.
  - intros [B ->]. now rewrite B in H.
  - intros [B ->]. now rewrite B in H.
  - intros (mid & M1 & M2). eapply IHr2; eauto. eapply (IHr1 _ _ H); eauto.
  - intros (mid & M1 & ->). eapply (IHr _ _ H); eauto.
Qed.

(** *** [re.match], [re.search] and [re.findall] *)

Lemma attempt_sound (r : regex) (must : bool) (st st' : state) :
  attempt r must st = Some st' -> matches r st st'.
Proof.
  unfold attempt. intros H. apply exec_sound in H.
  destruct H as (st'' & M & A). unfold accept in A.
  destruct (must && _); [discriminate|]. now injection A as <-.
Qed.

Lemma attempt_none (r : regex) (st : state) :
  attempt r false st = None -> forall st', ~ matches r st st'.
Proof.
  unfold attempt. intros H st' M.
  pose proof (exec_complete _ _ _ H _ M) as A. discriminate.
Qed.

Lemma search_from_sound (r : regex) :
  forall a b m,
    search_from r (rev b) a = Some m ->
    exists w st', match_at r (b ++ a) (b ++ w) st' m
      /\ forall w', length w' < length w -> no_match_at r (b ++ a) (b ++ w').
Proof.
  induction a as [|c a IH]; intros b m; simpl.
  - destruct (attempt r false (mk_state (rev b) [] None)) as [st'|] eqn:A;
      [|discriminate].
    intros [= <-]. exists [], st'. split.
    + exists []. rewrite !app_nil_r. split; auto. split; auto.
      apply attempt_sound in A. exact A.
    + simpl. intros w' L. lia.
  - destruct (attempt r false (mk_state (rev b) (c :: a) None)) as [st'|] eqn:A.
    + intros [= <-]. exists [], st'. split.
      * exists (c :: a). rewrite !app_nil_r. split; auto. split; auto.
        apply attempt_sound in A. exact A.
      * simpl. intros w' L. lia.
    + intros H. specialize (IH (b ++ [c]) m).
      rewrite rev_app_distr in IH. simpl in IH. apply IH in H.
      destruct H as (w & st' & M & Least).
      rewrite <- !app_assoc in *. simpl in *.
      exists (c :: w), st'. split; [exact M|].
      intros [|x w'] L.
      * intros post st'' E M'. rewrite app_nil_r in E.
        apply app_inv_head in E. subst post.
        unfold at_pos in M'. rewrite app_nil_r in M'.
        eapply attempt_none; eauto.
      * simpl in L. intros post st'' E M'.
        assert (x = c).
        { rewrite <- app_assoc in E. apply app_inv_head in E. simpl in E. congruence. }
        subst x. apply (Least w' ltac:(lia) post st'').
        -- rewrite <- !app_assoc in *. simpl in *. exact E.
        -- rewrite <- !app_assoc in *. simpl in *. exact M'.
Qed.

Lemma search_from_none (r : regex) :
  forall a b,
    search_from r (rev b) a = None ->
    forall w, no_match_at r (b ++ a) (b ++ w).
Proof.
  induction a as [|c a IH]; intros b; simpl.
  - destruct (attempt r false (mk_state (rev b) [] None)) eqn:A; [discriminate|].
    intros _ w post st' E M. rewrite app_nil_r in E.
    rewrite <- app_assoc in E.
    assert (E' : w ++ post = []).
    { apply (app_inv_head b). now rewrite app_nil_r. }
    apply app_eq_nil in E'. destruct E' as [-> ->].
    unfold at_pos in M. rewrite app_nil_r in M. eapply attempt_none; eauto.
  - destruct (attempt r false (mk_state (rev b) (c :: a) None)) eqn:A; [discriminate|].
    intros H [|x w] post st' E M.
    + rewrite app_nil_r in E. apply app_inv_head in E. subst post.
      unfold at_pos in M. rewrite app_nil_r in M. eapply attempt_none; eauto.
    + assert (x = c).
      { rewrite <- app_assoc in E. apply app_inv_head in E. simpl in E. congruence. }
      subst x. specialize (IH (b ++ [c])).
      rewrite rev_app_distr in IH. simpl in IH.
      apply (IH H w post st').
      * rewrite <- !app_assoc in *. simpl in *. exact E.
      * rewrite <- !app_assoc in *. simpl in *. exact M.
Qed.

(** [re.search] finds the leftmost position with a match. *)
Lemma re_search_sound (r : regex) (s : str) (m : match_obj) :
  re_search r s = Some m ->
  exists pre st', match_at r s pre st' m
    /\ forall pre', length pre' < length pre -> no_match_at r s pre'.
Proof.
  unfold re_search. intros H.
  apply (search_from_sound r s []) in H. exact H.
Qed.

(** [re.search] fails only when no position has a match. *)
Lemma re_search_none (r : regex) (s : str) :
  re_search r s = None <-> forall pre, no_match_at r s pre.
Proof.
  split.
  - intros H pre. apply (search_from_none r s [] H pre).
  - intros H. destruct (re_search r s) as [m|] eqn:E; [|reflexivity].
    apply re_search_sound in E. destruct E as (pre & st' & (post & E & M & _) & _).
    exfalso. eapply H; eauto.
Qed.

Lemma re_match_sound (r : regex) (s : str) (m : match_obj) :
  re_match r s = Some m -> exists st', match_at r s [] st' m.
Proof.
  unfold re_match. destruct (attempt r false _) as [st'|] eqn:A; [|discriminate].
  intros [= <-]. exists st'. exists s. split; auto. split; auto.
  apply attempt_sound in A. exact A.
Qed.

Lemma re_match_none (r : regex) (s : str) :
  re_match r s = None <-> no_match_at r s [].
Proof.
  unfold re_match. split.
  - destruct (attempt r false _) eqn:A; [discriminate|].
    intros _ post st' E M. simpl in E. subst post.
    eapply attempt_none; eauto.
  - intros H. destruct (attempt r false _) as [st'|] eqn:A; [|reflexivity].
    apply attempt_sound in A. exfalso. eapply (H s); eauto.
Qed.

(** Searching for a single character class is a membership test. *)
Lemma search_class (p : ascii -> bool) (s : str) :
  truthy (re_search (Cls p) s) = existsb p s.
Proof.
  unfold re_search. generalize (@nil ascii) as b.
  induction s as [|c s IH]; intros b; simpl; [reflexivity|].
  unfold attempt; simpl. destruct (p c); simpl; [reflexivity|]. apply IH.
Qed.

Lemma text_at_shift (r : regex) (b a w : str) (c : ascii) (st' : state)
    (m : str) :
  text_at r ((b ++ [c]) ++ a) ((b ++ [c]) ++ w) st' m ->
  text_at r (b ++ c :: a) (b ++ c :: w) st' m.
Proof. now rewrite <- !app_assoc. Qed.

(** Every text [re.findall] returns is a match somewhere in the subject. *)
Lemma findall_from_sound (r : regex) :
  forall a b skip m,
    In m (findall_from r (rev b) a skip) ->
    exists w st', text_at r (b ++ a) (b ++ w) st' m.
Proof.
  assert (Here : forall a b must st',
    attempt r must (mk_state (rev b) a None) = Some st' ->
    text_at r (b ++ a) (b ++ []) st' (passed (mk_state (rev b) a None) st')).
  { intros a b must st' A. apply attempt_sound in A.
    exists a. rewrite app_nil_r. auto. }
  induction a as [|c a IH]; intros b skip m.
  - destruct skip as [|n]; simpl; [|tauto].
    destruct (attempt r false (mk_state (rev b) [] None)) as [st'|] eqn:A;
      [|simpl; tauto].
    destruct (length (behind st') - length (rev b)) eqn:L.
    + destruct (attempt r true (mk_state (rev b) [] None)) as [st''|] eqn:A2.
      * simpl. intros [<-|[<-|[]]].
        -- exists [], st'. pose proof (Here _ _ _ _ A) as T.
           unfold passed in T. simpl in T. rewrite L in T. exact T.
        -- exists [], st''. eapply Here; eauto.
      * simpl. intros [<-|[]].
        exists [], st'. pose proof (Here _ _ _ _ A) as T.
        unfold passed in T. simpl in T. rewrite L in T. exact T.
    + simpl. intros [<-|[]]. exists [], st'. eapply Here; eauto.
  - assert (Next : forall n,
      In m (findall_from r (c :: rev b) a n) ->
      exists w st', text_at r (b ++ c :: a) (b ++ w) st' m).
    { intros n H. specialize (IH (b ++ [c]) n m).
      rewrite rev_app_distr in IH. simpl in IH. apply IH in H.
      destruct H as (w & st' & T). exists (c :: w), st'.
      now apply text_at_shift. }
    destruct skip as [|n]; simpl; [|apply Next].
    destruct (attempt r false (mk_state (rev b) (c :: a) None)) as [st'|] eqn:A;
      [|apply Next].
    destruct (length (behind st') - length (rev b)) eqn:L.
    + destruct (attempt r true (mk_state (rev b) (c :: a) None)) as [st''|] eqn:A2.
      * simpl. intros [<-|[<-|H]].
        -- exists [], st'. pose proof (Here _ _ _ _ A) as T.
           unfold passed in T. simpl in T. rewrite L in T. exact T.
        -- exists [], st''. eapply Here; eauto.
        -- eapply Next; eauto.
      * simpl. intros [<-|H]; [|eapply Next; eauto].
        exists [], st'. pose proof (Here _ _ _ _ A) as T.
        unfold passed in T. simpl in T. rewrite L in T. exact T.
    + simpl. intros [<-|H]; [|eapply Next; eauto].
      exists [], st'. eapply Here; eauto.
Qed.

Lemma findall_sound (r : regex) (s m : str) :
  In m (findall r s) -> exists pre st', text_at r s pre st' m.
Proof.
  unfold findall. intros H. apply (findall_from_sound r s [] 0 m) in H.
  exact H.
Qed.

(** The text of a match is a piece of the subject. *)
Lemma text_at_piece (r : regex) (s pre : str) (st' : state) (m : str) :
  text_at r s pre st' m -> s = pre ++ m ++ ahead st'.
Proof.
  intros (post & -> & M & ->). f_equal.
  apply matches_moved in M. apply moved_passed in M. exact M.
Qed.

(** *** The words a pattern spells, anchors apart *)

Lemma matches_spells (r : regex) :
  forall st st',
    matches r st st' ->
    exists w, spells r w /\ ahead st = w ++ ahead st'
              /\ behind st' = rev w ++ behind st.
Proof.
  induction r; simpl; intros st st'.
  - intros (c & Pc & A & B & _). exists [c]. eauto.
  - intros (w & Fw & Lo & Hi & A & B & _). exists w. auto.
  - intros [_ ->]. now exists [].
  - intros [_ ->]. now exists [].
  - intros [_ ->]. now exists [].
  - intros (mid & M1 & M2). apply IHr1 in M1. apply IHr2 in M2.
    destruct M1 as (w1 & S1 & A1 & B1). destruct M2 as (w2 & S2 & A2 & B2).
    exists (w1 ++ w2). split; [eauto|].
    rewrite A1, A2, B2, B1, rev_app_distr, <- !app_assoc. auto.
  - intros (mid & M1 & ->). apply IHr in M1.
    destruct M1 as (w & S1 & A1 & B1). exists w. simpl. auto.
Qed.

Lemma text_at_spells (r : regex) (s pre : str) (st' : state) (m : str) :
  text_at r s pre st' m -> spells r m.
Proof.
  intros (post & _ & M & ->). apply matches_spells in M.
  destruct M as (w & Sw & _ & B). now rewrite (passed_moves _ _ _ B).
Qed.

End ReFacts.

Import ReFacts.

(* ================================================================== *)
(** ** [split], [join] and [strip] *)
(* ================================================================== *)

Lemma split_not_nil (sep : ascii) (s : str) : split sep s <> [].
Proof.
  induction s as [|c s IH]; simpl; [discriminate|].
  destruct (is_char sep c); [discriminate|].
  destruct (split sep s); [contradiction|discriminate].
Qed.

Lemma split_free (sep : ascii) (a : str) :
  free sep a = true -> split sep a = [a].
Proof.
  induction a as [|c a IH]; simpl; [reflexivity|].
  rewrite andb_true_iff, negb_true_iff. intros [-> H]. now rewrite IH.
Qed.

Lemma split_app (sep : ascii) (a b : str) :
  free sep a = true -> split sep (a ++ sep :: b) = a :: split sep b.
Proof.
  induction a as [|c a IH]; simpl.
  - unfold is_char. now rewrite Ascii.eqb_refl.
  - rewrite andb_true_iff, negb_true_iff. intros [-> H]. now rewrite IH.
Qed.

Lemma split_parts_free (sep : ascii) (s : str) :
  Forall (fun p => free sep p = true) (split sep s).
Proof.
  induction s as [|c s IH]; simpl; [repeat constructor|].
  destruct (is_char sep c) eqn:E; [constructor; auto|].
  destruct (split sep s) as [|p ps]; [repeat constructor; simpl; now rewrite E|].
  inversion IH; subst. constructor; auto. simpl. now rewrite E.
Qed.

Lemma join_split (sep : ascii) (s : str) : join sep (split sep s) = s.
Proof.
  induction s as [|c s IH]; simpl; [reflexivity|].
  destruct (is_char sep c) eqn:E.
  - apply is_char_eq in E. subst c.
    pose proof (split_not_nil sep s) as N.
    destruct (split sep s) as [|p ps]; [contradiction|].
    simpl in *. now rewrite IH.
  - pose proof (split_not_nil sep s) as N.
    destruct (split sep s) as [|p ps]; [contradiction|].
    simpl in *. destruct ps; simpl in *; now rewrite <- IH.
Qed.

Lemma split_join (sep : ascii) (p : str) (ps : list str) :
  Forall (fun q => free sep q = true) (p :: ps) ->
  split sep (join sep (p :: ps)) = p :: ps.
Proof.
  revert p. induction ps as [|q ps IH]; intros p H.
  - simpl. apply split_free. now inversion H.
  - inversion H; subst. change (join sep (p :: q :: ps)) with (p ++ sep :: join sep (q :: ps)).
    rewrite split_app by assumption. now rewrite IH.
Qed.

Lemma free_app (sep : ascii) (a b : str) :
  free sep (a ++ b) = free sep a && free sep b.
Proof. apply forallb_app. Qed.

Lemma in_split (sep : ascii) (s p : str) (c : ascii) :
  In p (split sep s) -> In c p -> In c s.
Proof.
  revert p. induction s as [|x s IH]; simpl; intros p.
  - intros [<-|[]] [].
  - destruct (is_char sep x).
    + intros [<-|H] I; [destruct I|]. right. eapply IH; eauto.
    + pose proof (split_not_nil sep s) as N.
      destruct (split sep s) as [|q qs]; [contradiction|].
      intros [<-|H] I.
      * destruct I as [->|I]; [now left|]. right. apply (IH q); simpl; auto.
      * right. apply (IH p); simpl; auto.
Qed.

(** A string without white space is its own [strip]. *)
Lemma lstrip_id (s : str) :
  forallb (fun c => negb (is_space c)) s = true -> lstrip s = s.
Proof.
  destruct s as [|c s]; simpl; [reflexivity|].
  rewrite andb_true_iff, negb_true_iff. now intros [-> _].
Qed.

Lemma strip_id (s : str) :
  forallb (fun c => negb (is_space c)) s = true -> strip s = s.
Proof.
  intros H. unfold strip, rstrip. rewrite (lstrip_id _ H).
  rewrite lstrip_id; [apply rev_involutive|].
  rewrite forallb_forall in *. intros c I. apply H. now apply in_rev.
Qed.

(* ================================================================== *)
(** ** The anchored class patterns [^[...]+$] *)
(* ================================================================== *)

(** [^p+$] matches a non-empty run of [p], with or without one final
    newline after it. *)
Lemma anchored_run (p : ascii -> bool) (s : str) :
  truthy (re_match (seq [Bos; plus p; Eos]) s) = true
  <-> exists w, w <> [] /\ forallb p w = true /\ (s = w \/ s = w ++ [newline]).
Proof.
  split.
  - destruct (re_match _ s) as [m|] eqn:E; [intros _|discriminate].
    apply re_match_sound in E. destruct E as (st' & post & Es & M & _).
    simpl in Es. subst post. simpl in M.
    destruct M as (mid & [_ ->] & mid2 & (w & Fw & Lo & _ & A & _) & End & ->).
    simpl in A. exists w. split; [intros ->; simpl in Lo; lia|]. split; auto.
    unfold at_end in End. destruct (ahead mid2) as [|c [|d l]]; try discriminate.
    + left. now rewrite app_nil_r in A.
    + right. apply is_char_eq in End. now subst.
  - intros (w & Nw & Fw & S).
    destruct (re_match _ s) as [m|] eqn:E; [reflexivity|exfalso].
    apply re_match_none in E.
    assert (L : 1 <= length w) by (destruct w; simpl; [congruence|lia]).
    destruct S as [->| ->].
    + apply (E w (mk_state (rev w) [] None) eq_refl). simpl.
      eexists. split; [split; reflexivity|].
      exists (mk_state (rev w) [] None). split; [|split; reflexivity].
      exists w. unfold step; simpl. rewrite !app_nil_r. auto 10.
    + apply (E (w ++ [newline]) (mk_state (rev w) [newline] None) eq_refl). simpl.
      eexists. split; [split; reflexivity|].
      exists (mk_state (rev w) [newline] None). split; [|split; reflexivity].
      exists w. unfold step; simpl. rewrite !app_nil_r. auto 10.
Qed.

(** Without a newline in it, [^p+$] tests for a non-empty string of [p]. *)
Lemma anchored_run_plain (p : ascii -> bool) (s : str) :
  ~ In newline s ->
  truthy (re_match (seq [Bos; plus p; Eos]) s) = negb (length s =? 0) && forallb p s.
Proof.
  intros N. apply eq_true_iff_eq. rewrite anchored_run, andb_true_iff, negb_true_iff.
  split.
  - intros (w & Nw & Fw & [->| ->]).
    + split; auto. destruct w; [congruence|reflexivity].
    + exfalso. apply N. apply in_or_app. right. now left.
  - intros [L F]. exists s. split; auto. intros ->. discriminate.
Qed.

(* ================================================================== *)
(** ** Normalization *)
(* ================================================================== *)

Lemma last_app_one (w : str) (c d : ascii) (w' : str) :
  w ++ [c] = w' ++ [d] -> w = w' /\ c = d.
Proof. intros H. apply app_inj_tail in H. exact H. Qed.

Lemma forallb_last (p : ascii -> bool) (w : str) (c : ascii) :
  forallb p (w ++ [c]) = true -> p c = true.
Proof.
  rewrite forallb_app. simpl. rewrite !andb_true_iff. tauto.
Qed.

(** A component that ends in an inch mark is not matched by [^\d+$]. *)
Lemma digits_re_inch (first : str) :
  truthy (re_match digits_re (first ++ [inch])) = false.
Proof.
  destruct (truthy _) eqn:E; [exfalso|reflexivity].
  apply anchored_run in E. destruct E as (w & Nw & Fw & [S|S]).
  - destruct (exists_last Nw) as (w' & d & ->).
    apply last_app_one in S. destruct S as [_ <-].
    apply forallb_last in Fw. discriminate.
  - apply last_app_one in S. destruct S as [_ S]. discriminate.
Qed.

(** A component that contains an inch mark is not matched either. *)
Lemma digits_re_with_inch (first : str) :
  In inch first -> truthy (re_match digits_re first) = false.
Proof.
  intros I. destruct (truthy _) eqn:E; [exfalso|reflexivity].
  apply anchored_run in E. destruct E as (w & Nw & Fw & [S|S]); subst.
  - rewrite forallb_forall in Fw. apply Fw in I. discriminate.
  - apply in_app_or in I. destruct I as [I|[I|[]]]; [|discriminate].
    rewrite forallb_forall in Fw. apply Fw in I. discriminate.
Qed.

Lemma normalize_unfold (line : str) :
  normalize_piping_line line =
  match split dash line with
  | first :: rest =>
      if truthy (re_match digits_re first)
      then join dash ((first ++ [inch]) :: rest) else line
  | [] => line
  end.
Proof. reflexivity. Qed.

(** [normalize_piping_line] is idempotent on every string. *)
Lemma normalize_idempotent (s : str) :
  normalize_piping_line (normalize_piping_line s) = normalize_piping_line s.
Proof.
  rewrite (normalize_unfold s).
  pose proof (split_parts_free dash s) as F.
  pose proof (split_not_nil dash s) as N.
  destruct (split dash s) as [|first rest] eqn:E; [contradiction|].
  destruct (truthy (re_match digits_re first)) eqn:D;
    [|now rewrite normalize_unfold, E, D].
  rewrite normalize_unfold. rewrite split_join.
  - now rewrite digits_re_inch.
  - inversion F; subst. constructor; auto.
    rewrite free_app. rewrite H1. reflexivity.
Qed.

(** With an inch mark in the first component nothing changes. *)
Lemma normalize_inch_marked (s : str) :
  In inch (nth 0 (split dash s) []) -> normalize_piping_line s = s.
Proof.
  rewrite normalize_unfold. destruct (split dash s) as [|first rest]; auto.
  simpl. intros I. now rewrite digits_re_with_inch.
Qed.

(** With no newline in the first component, the inch mark is appended
    exactly when that component is purely numeric. *)
Lemma normalize_plain (s : str) :
  ~ In newline (nth 0 (split dash s) []) ->
  normalize_piping_line s =
  if purely_numeric (nth 0 (split dash s) [])
  then join dash ((nth 0 (split dash s) [] ++ [inch]) :: tl (split dash s))
  else s.
Proof.
  rewrite normalize_unfold.
  pose proof (split_not_nil dash s) as N.
  destruct (split dash s) as [|first rest]; [contradiction|]. simpl.
  intros NL. unfold digits_re. now rewrite anchored_run_plain.
Qed.

(* ================================================================== *)
(** ** The shape of what the three patterns match *)
(* ================================================================== *)

Ltac all_chars :=
  let c := fresh "c" in
  intros c; destruct c as [[] [] [] [] [] [] [] []]; vm_compute;
  intros; congruence.

Lemma letters_upper : forall c, letters c = true -> is_upper (upper_char c) = true.
Proof. all_chars. Qed.

Lemma alnums_upper : forall c, alnums c = true -> upper_alnum (upper_char c) = true.
Proof. all_chars. Qed.

Lemma alnums_inch_upper :
  forall c, alnums_inch c = true -> size_class (upper_char c) = true.
Proof. all_chars. Qed.

Lemma digit_alnums_inch : forall c, icase is_digit c = true -> alnums_inch c = true.
Proof. all_chars. Qed.

Lemma icase_inch : forall c, icase (is_char inch) c = true -> c = inch.
Proof. all_chars. Qed.

Lemma icase_dash : forall c, icase (is_char dash) c = true -> c = dash.
Proof. all_chars. Qed.

Lemma alnums_inch_no_space :
  forall c, alnums_inch c = true -> is_space c = false.
Proof. all_chars. Qed.

Lemma letters_alnums_inch : forall c, letters c = true -> alnums_inch c = true.
Proof. all_chars. Qed.

Lemma alnums_alnums_inch : forall c, alnums c = true -> alnums_inch c = true.
Proof. all_chars. Qed.

Lemma size_class_no_dash : forall c, size_class c = true -> is_char dash c = false.
Proof. all_chars. Qed.

Lemma upper_size_class : forall c, is_upper c = true -> size_class c = true.
Proof. all_chars. Qed.

Lemma upper_alnum_size_class : forall c, upper_alnum c = true -> size_class c = true.
Proof. all_chars. Qed.

Lemma upper_alnum_is_alnum : forall c, upper_alnum c = true -> is_alnum c = true.
Proof. all_chars. Qed.

Lemma upper_is_letter : forall c, is_upper c = true -> is_letter c = true.
Proof. all_chars. Qed.

Lemma upper_not_digit : forall c, is_upper c = true -> is_digit c = false.
Proof. all_chars. Qed.

Lemma forallb_impl (p q : ascii -> bool) (w : str) :
  (forall c, p c = true -> q c = true) ->
  forallb p w = true -> forallb q w = true.
Proof.
  intros I. rewrite !forallb_forall. auto.
Qed.

Lemma forallb_upper (p q : ascii -> bool) (w : str) :
  (forall c, p c = true -> q (upper_char c) = true) ->
  forallb p w = true -> forallb q (upper w) = true.
Proof.
  intros I. unfold upper. rewrite !forallb_forall. intros H c Hc.
  apply in_map_iff in Hc. destruct Hc as (x & <- & Hx). auto.
Qed.

Lemma spells_seq_cons (r : regex) (rs : list regex) (w : str) :
  spells (seq (r :: rs)) w ->
  exists w1 w2, w = w1 ++ w2 /\ spells r w1 /\ spells (seq rs) w2.
Proof.
  destruct rs as [|r' rs]; [|simpl; auto].
  simpl. intros H. exists w, []. rewrite app_nil_r. repeat split; auto.
Qed.

Lemma tail_spells (w : str) :
  spells (seq tail_components) w ->
  exists c2 c3 c4,
    w = dash :: c2 ++ dash :: c3 ++ dash :: c4
    /\ (forallb letters c2 = true /\ 1 <= length c2 <= 3)
    /\ (forallb alnums c3 = true /\ 1 <= length c3 <= 3)
    /\ (forallb alnums c4 = true /\ 1 <= length c4 <= 4).
Proof.
  unfold tail_components. simpl.
  intros (d1 & w1 & -> & (x1 & D1 & ->) &
          c2 & w2 & -> & (F2 & L2 & H2) &
          d2 & w3 & -> & (x2 & D2 & ->) &
          c3 & w4 & -> & (F3 & L3 & H3) &
          d3 & w5 & -> & (x3 & D3 & ->) &
          c4 & w6 & -> & (F4 & L4 & H4) & ->).
  apply icase_dash in D1, D2, D3. subst.
  exists c2, c3, c4. simpl in *. rewrite app_nil_r. auto 10.
Qed.

Lemma pattern_spells (r : regex) (m : str) :
  In r patterns -> spells r m -> match_shape m.
Proof.
  unfold patterns. intros [<-|[<-|[<-|[]]]] S;
    unfold pattern1, pattern2, pattern3 in S; cbn [app] in S.
  - apply spells_seq_cons in S. destruct S as (w0 & w & -> & -> & S).
    apply spells_seq_cons in S. destruct S as (c1 & w' & -> & (F1 & L1 & H1) & S).
    apply spells_seq_cons in S. destruct S as (q & w'' & -> & (x & Q & ->) & S).
    apply tail_spells in S. destruct S as (c2 & c3 & c4 & -> & P2 & P3 & P4).
    apply icase_inch in Q. subst x. simpl in H1.
    exists (c1 ++ [inch]), c2, c3, c4. simpl. rewrite <- app_assoc. simpl.
    repeat split; auto; try tauto.
    + rewrite forallb_app. simpl. rewrite andb_true_r.
      eapply forallb_impl; [apply digit_alnums_inch|exact F1].
    + rewrite length_app. simpl. lia.
    + rewrite length_app. simpl. lia.
  - apply spells_seq_cons in S. destruct S as (w0 & w & -> & -> & S).
    apply spells_seq_cons in S. destruct S as (c1 & w' & -> & (F1 & L1 & H1) & S).
    apply tail_spells in S. destruct S as (c2 & c3 & c4 & -> & P2 & P3 & P4).
    simpl in H1. exists c1, c2, c3, c4. simpl.
    repeat split; auto; try tauto; try lia.
    eapply forallb_impl; [apply digit_alnums_inch|exact F1].
  - apply spells_seq_cons in S. destruct S as (w0 & w & -> & -> & S).
    apply spells_seq_cons in S. destruct S as (c1 & w' & -> & (F1 & L1 & H1) & S).
    apply tail_spells in S. destruct S as (c2 & c3 & c4 & -> & P2 & P3 & P4).
    simpl in H1. exists c1, c2, c3, c4. simpl.
    repeat split; auto; try tauto; try lia.
Qed.

(** Every text [re.findall] returns for one of the patterns has the
    shape of a raw match. *)
Lemma findall_shape (r : regex) (line m : str) :
  In r patterns -> In m (findall r line) -> match_shape m.
Proof.
  intros R I. apply findall_sound in I. destruct I as (pre & st' & T).
  apply text_at_spells in T. eapply pattern_spells; eauto.
Qed.

(** ... and is a piece of the line. *)
Lemma findall_piece (r : regex) (line m : str) :
  In m (findall r line) -> exists pre post, line = pre ++ m ++ post.
Proof.
  intros I. apply findall_sound in I. destruct I as (pre & st' & T).
  apply text_at_piece in T. eauto.
Qed.

(* ================================================================== *)
(** ** Dictionaries *)
(* ================================================================== *)

Section Dict.

Variable V : Type.
Implicit Types (d : dict V) (k : str) (v : V).

Lemma dict_get_set_same d k v : dict_get k (dict_set k v d) = Some v.
Proof.
  induction d as [|[k' v'] d IH]; simpl.
  - now rewrite str_eqb_refl.
  - destruct (str_eqb k k') eqn:E; simpl; [now rewrite str_eqb_refl|].
    now rewrite E.
Qed.

Lemma dict_get_set_other d k k' v :
  k <> k' -> dict_get k (dict_set k' v d) = dict_get k d.
Proof.
  intros N. apply str_eqb_neq in N.
  induction d as [|[k'' v''] d IH]; simpl.
  - now rewrite N.
  - destruct (str_eqb k' k'') eqn:E; simpl.
    + apply str_eqb_eq in E. subst k''. now rewrite N.
    + destruct (str_eqb k k''); auto.
Qed.

Lemma dict_get_none d k : dict_get k d = None <-> ~ In k (dict_keys d).
Proof.
  induction d as [|[k' v'] d IH]; simpl; [tauto|].
  destruct (str_eqb k k') eqn:E.
  - apply str_eqb_eq in E. subst. split; [discriminate|tauto].
  - apply str_eqb_neq in E. rewrite IH. split; [intros H [A|A]; congruence|tauto].
Qed.

Lemma dict_get_some d k : In k (dict_keys d) <-> exists v, dict_get k d = Some v.
Proof.
  destruct (dict_get k d) as [v|] eqn:E.
  - split; [eauto|]. intros _.
    destruct (in_dec (list_eq_dec Ascii.ascii_dec) k (dict_keys d)) as [I|N]; auto.
    apply dict_get_none in N. congruence.
  - apply dict_get_none in E. split; [contradiction|]. intros [v H]. discriminate.
Qed.

Lemma dict_mem_in d k : dict_mem k d = true <-> In k (dict_keys d).
Proof.
  unfold dict_mem. rewrite dict_get_some.
  destruct (dict_get k d); split; eauto; try discriminate.
  intros [v H]. discriminate.
Qed.

(** Setting an absent key appends it. *)
Lemma dict_set_absent d k v :
  ~ In k (dict_keys d) -> dict_set k v d = d ++ [(k, v)].
Proof.
  induction d as [|[k' v'] d IH]; simpl; [reflexivity|].
  intros N. destruct (str_eqb k k') eqn:E.
  - apply str_eqb_eq in E. subst. tauto.
  - rewrite IH; tauto.
Qed.

End Dict.

Lemma add_first_get (d : dict info) (e : event) (k : str) :
  dict_get k (add_first d e) =
  match dict_get k d with
  | Some v => Some v
  | None => if str_eqb k (fst e) then Some (snd e) else None
  end.
Proof.
  unfold add_first, dict_mem. destruct e as [k' v']; simpl.
  destruct (str_eqb k k') eqn:E.
  - apply str_eqb_eq in E. subst k'.
    destruct (dict_get k d) eqn:G; simpl; [now rewrite G|].
    apply dict_get_set_same.
  - apply str_eqb_neq in E.
    destruct (dict_get k' d) eqn:G; simpl.
    + now destruct (dict_get k d).
    + rewrite dict_get_set_other by assumption. now destruct (dict_get k d).
Qed.

Lemma fold_add_first_get (evs : list event) :
  forall d k,
    dict_get k (fold_left add_first evs d) =
    match dict_get k d with
    | Some v => Some v
    | None => first_seen k evs
    end.
Proof.
  induction evs as [|e evs IH]; intros d k; simpl.
  - now destruct (dict_get k d).
  - rewrite IH, add_first_get. destruct (dict_get k d); auto.
    destruct (str_eqb k (fst e)); auto.
Qed.

Lemma add_first_keys (d : dict info) (e : event) :
  NoDup (dict_keys d) -> NoDup (dict_keys (add_first d e)).
Proof.
  unfold add_first. intros N. destruct (dict_mem (fst e) d) eqn:M; simpl; auto.
  assert (A : ~ In (fst e) (dict_keys d)).
  { intros I. apply dict_mem_in in I. congruence. }
  rewrite dict_set_absent by assumption.
  unfold dict_keys. rewrite map_app. simpl.
  apply NoDup_app; auto.
  - constructor; [tauto|constructor].
  - intros x I [<-|[]]. contradiction.
Qed.

Lemma fold_add_first_keys (evs : list event) :
  forall d, NoDup (dict_keys d) -> NoDup (dict_keys (fold_left add_first evs d)).
Proof.
  induction evs as [|e evs IH]; intros d N; simpl; auto.
  apply IH. now apply add_first_keys.
Qed.

Lemma first_seen_in (k : str) (evs : list event) (v : info) :
  first_seen k evs = Some v -> In (k, v) evs.
Proof.
  induction evs as [|[k' v'] evs IH]; simpl; [discriminate|].
  destruct (str_eqb k k') eqn:E; auto.
  apply str_eqb_eq in E. subst. intros [= ->]. now left.
Qed.

(** The first event with key [k] splits the list. *)
Lemma first_seen_split (k : str) (evs : list event) (v : info) :
  first_seen k evs = Some v <->
  exists before after,
    evs = before ++ (k, v) :: after /\ ~ In k (map fst before).
Proof.
  split.
  - induction evs as [|[k' v'] evs IH]; simpl; [discriminate|].
    destruct (str_eqb k k') eqn:E.
    + apply str_eqb_eq in E. subst. intros [= ->]. exists [], evs. auto.
    + intros H. apply IH in H. destruct H as (b & a & -> & N).
      exists ((k', v') :: b), a. split; auto. simpl.
      apply str_eqb_neq in E. intros [A|A]; congruence.
  - intros (b & a & -> & N). induction b as [|[k' v'] b IH]; simpl in *.
    + now rewrite str_eqb_refl.
    + destruct (str_eqb k k') eqn:E.
      * apply str_eqb_eq in E. subst. tauto.
      * apply IH. tauto.
Qed.

(** Events with another key do not matter to [k]. *)
Lemma first_seen_filter (k : str) (f : event -> bool) (evs : list event) :
  (forall e, fst e = k -> f e = true) ->
  first_seen k (filter f evs) = first_seen k evs.
Proof.
  intros F. induction evs as [|e evs IH]; simpl; auto.
  destruct (f e) eqn:E; simpl; rewrite IH; auto.
  destruct (str_eqb k (fst e)) eqn:K; auto.
  apply str_eqb_eq in K. rewrite F in E; congruence.
Qed.

(* ================================================================== *)
(** ** The candidates of a document, in the order the loops meet them *)
(* ================================================================== *)

Lemma fold_left_flat_map (A B S : Type) (f : S -> B -> S) (g : A -> list B)
    (l : list A) :
  forall s, fold_left f (flat_map g l) s
            = fold_left (fun s a => fold_left f (g a) s) l s.
Proof.
  induction l as [|a l IH]; intros s; simpl; [reflexivity|].
  now rewrite fold_left_app, IH.
Qed.

Lemma match_step_add_first (text : str) (layout_info : list TextSpan)
    (line_num : nat) (line : str) (ms : list str) :
  forall d,
    fold_left (match_step text layout_info line_num line) ms d
    = fold_left add_first
        (map (candidate_of text layout_info line_num line)
             (filter is_candidate ms)) d.
Proof.
  induction ms as [|m ms IH]; intros d; simpl; [reflexivity|].
  rewrite IH. unfold match_step, is_candidate.
  destruct (existsb (is_char dash) (upper (strip m))
            && truthy (re_search (Cls is_upper) (upper (strip m))));
    simpl; reflexivity.
Qed.

(** The nested loops record the candidates one after the other. *)
Lemma extract_as_fold (text : str) (layout_info : list TextSpan) :
  extract_piping_line_numbers text layout_info
  = fold_left add_first (candidates text layout_info) [].
Proof.
  unfold extract_piping_line_numbers, candidates.
  rewrite fold_left_flat_map. generalize (@nil (str * info)) as d.
  generalize (enumerate 1 (split newline text)) as ls.
  induction ls as [|[n line] ls IH]; intros d; simpl; [reflexivity|].
  rewrite <- IH. f_equal.
  unfold line_step, line_candidates, line_matches, pattern_step. simpl.
  rewrite !filter_app, !map_app, !fold_left_app. simpl.
  now rewrite <- !match_step_add_first.
Qed.

Lemma extract_get (text : str) (layout_info : list TextSpan) (k : str) :
  dict_get k (extract_piping_line_numbers text layout_info)
  = first_seen k (candidates text layout_info).
Proof. rewrite extract_as_fold, fold_add_first_get. reflexivity. Qed.

Lemma extract_keys_nodup (text : str) (layout_info : list TextSpan) :
  NoDup (dict_keys (extract_piping_line_numbers text layout_info)).
Proof.
  rewrite extract_as_fold. apply fold_add_first_keys. constructor.
Qed.

(** A key of the mapping comes from a raw match of one of the patterns
    in one of the lines. *)
Lemma extract_key_origin (text : str) (layout_info : list TextSpan) (k : str) :
  In k (dict_keys (extract_piping_line_numbers text layout_info)) ->
  exists line r m,
    In line (split newline text) /\ In r patterns /\ In m (findall r line)
    /\ is_candidate m = true /\ k = normalize_piping_line (upper (strip m)).
Proof.
  intros I. apply dict_get_some in I. destruct I as [v G].
  rewrite extract_get in G. apply first_seen_in in G.
  unfold candidates in G. apply in_flat_map in G.
  destruct G as ([n line] & Iline & G).
  unfold line_candidates in G. simpl in G. apply in_map_iff in G.
  destruct G as (m & E & Im). apply filter_In in Im. destruct Im as [Im C].
  unfold line_matches in Im. apply in_flat_map in Im. destruct Im as (r & R & Im).
  exists line, r, m. repeat split; auto.
  - clear - Iline. revert Iline. generalize 1 as start.
    induction (split newline text) as [|l ls IH]; simpl; intros start; [tauto|].
    intros [[= _ ->]|H]; eauto.
  - unfold candidate_of in E. congruence.
Qed.

(* ================================================================== *)
(** ** The keys of the mapping *)
(* ================================================================== *)

Lemma class_free (p : ascii -> bool) (w : str) :
  (forall c, p c = true -> is_char dash c = false) ->
  forallb p w = true -> free dash w = true.
Proof.
  intros N. unfold free. rewrite !forallb_forall. intros H c I.
  apply H in I. apply N in I. now rewrite I.
Qed.

Lemma split_four (c1 c2 c3 c4 : str) :
  free dash c1 = true -> free dash c2 = true -> free dash c3 = true ->
  free dash c4 = true ->
  split dash (c1 ++ dash :: c2 ++ dash :: c3 ++ dash :: c4) = [c1; c2; c3; c4].
Proof.
  intros F1 F2 F3 F4. rewrite !split_app by assumption.
  now rewrite split_free.
Qed.

Lemma upper_four (c1 c2 c3 c4 : str) :
  upper (c1 ++ dash :: c2 ++ dash :: c3 ++ dash :: c4)
  = upper c1 ++ dash :: upper c2 ++ dash :: upper c3 ++ dash :: upper c4.
Proof.
  unfold upper. repeat (rewrite map_app; simpl). reflexivity.
Qed.

Lemma forallb_four (p : ascii -> bool) (c1 c2 c3 c4 : str) :
  p dash = true ->
  forallb p c1 = true -> forallb p c2 = true -> forallb p c3 = true ->
  forallb p c4 = true ->
  forallb p (c1 ++ dash :: c2 ++ dash :: c3 ++ dash :: c4) = true.
Proof.
  intros D F1 F2 F3 F4.
  repeat (rewrite forallb_app; simpl). now rewrite D, F1, F2, F3, F4.
Qed.

(** A raw match has no white space, so [strip] leaves it alone. *)
Lemma match_shape_strip (m : str) : match_shape m -> strip m = m.
Proof.
  intros (c1 & c2 & c3 & c4 & -> & [F1 _] & [F2 _] & [F3 _] & [F4 _]).
  apply strip_id. apply forallb_four; [reflexivity| | | |].
  - eapply forallb_impl; [|exact F1]. intros c H.
    now rewrite (alnums_inch_no_space _ H).
  - eapply forallb_impl; [|exact F2]. intros c H.
    now rewrite (alnums_inch_no_space _ (letters_alnums_inch _ H)).
  - eapply forallb_impl; [|exact F3]. intros c H.
    now rewrite (alnums_inch_no_space _ (alnums_alnums_inch _ H)).
  - eapply forallb_impl; [|exact F4]. intros c H.
    now rewrite (alnums_inch_no_space _ (alnums_alnums_inch _ H)).
Qed.

Lemma match_shape_upper (m : str) : match_shape m -> cleaned_shape (upper m).
Proof.
  intros (c1 & c2 & c3 & c4 & -> & [F1 L1] & [F2 L2] & [F3 L3] & [F4 L4]).
  exists (upper c1), (upper c2), (upper c3), (upper c4).
  rewrite upper_four, !upper_length. repeat split; try tauto.
  - eapply forallb_upper; [apply alnums_inch_upper|exact F1].
  - eapply forallb_upper; [apply letters_upper|exact F2].
  - eapply forallb_upper; [apply alnums_upper|exact F3].
  - eapply forallb_upper; [apply alnums_upper|exact F4].
Qed.

Lemma four_part_free (c : str) :
  forallb size_class c = true -> free dash c = true.
Proof. apply class_free. apply size_class_no_dash. Qed.

Lemma upper_free (c : str) : forallb is_upper c = true -> free dash c = true.
Proof.
  intros H. apply four_part_free.
  eapply forallb_impl; [apply upper_size_class|exact H].
Qed.

Lemma upper_alnum_free (c : str) :
  forallb upper_alnum c = true -> free dash c = true.
Proof.
  intros H. apply four_part_free.
  eapply forallb_impl; [apply upper_alnum_size_class|exact H].
Qed.

(** Normalizing a cleaned match gives a key; the first component is
    kept, or gets the inch mark when it is purely numeric. *)
Lemma cleaned_normalize (s : str) :
  cleaned_shape s -> key_shape (normalize_piping_line s).
Proof.
  intros (c1 & c2 & c3 & c4 & -> & [F1 L1] & [F2 L2] & [F3 L3] & [F4 L4]).
  rewrite normalize_unfold.
  rewrite split_four by auto using four_part_free, upper_free, upper_alnum_free.
  destruct (truthy (re_match digits_re c1)).
  - exists (c1 ++ [inch]), c2, c3, c4. simpl. rewrite <- app_assoc. simpl.
    rewrite forallb_app, F1, length_app. simpl. repeat split; auto; lia.
  - exists c1, c2, c3, c4. repeat split; auto; lia.
Qed.

Lemma match_key_shape (m : str) :
  match_shape m -> key_shape (normalize_piping_line (upper (strip m))).
Proof.
  intros H. rewrite (match_shape_strip H).
  apply cleaned_normalize. now apply match_shape_upper.
Qed.

(** Every key of the mapping is an uppercase four-component string. *)
Lemma extract_key_shape (text : str) (layout_info : list TextSpan) (k : str) :
  In k (dict_keys (extract_piping_line_numbers text layout_info)) ->
  key_shape k.
Proof.
  intros I. apply extract_key_origin in I.
  destruct I as (line & r & m & _ & R & M & _ & ->).
  apply match_key_shape. eapply findall_shape; eauto.
Qed.

Lemma key_shape_split (k : str) :
  key_shape k ->
  exists k1 k2 k3 k4,
    split dash k = [k1; k2; k3; k4]
    /\ k = k1 ++ dash :: k2 ++ dash :: k3 ++ dash :: k4
    /\ (forallb size_class k1 = true /\ 1 <= length k1 <= 5)
    /\ (forallb is_upper k2 = true /\ 1 <= length k2 <= 3)
    /\ (forallb upper_alnum k3 = true /\ 1 <= length k3 <= 3)
    /\ (forallb upper_alnum k4 = true /\ 1 <= length k4 <= 4).
Proof.
  intros (c1 & c2 & c3 & c4 & -> & P1 & P2 & P3 & P4).
  exists c1, c2, c3, c4. split; [|auto].
  apply split_four; [apply four_part_free|apply upper_free
                     |apply upper_alnum_free|apply upper_alnum_free]; tauto.
Qed.

Lemma key_shape_chars (k : str) :
  key_shape k -> forallb (fun c => size_class c || is_char dash c) k = true.
Proof.
  intros (c1 & c2 & c3 & c4 & -> & [F1 _] & [F2 _] & [F3 _] & [F4 _]).
  apply forallb_four; [reflexivity| | | |].
  - eapply forallb_impl; [|exact F1]. intros c ->. reflexivity.
  - eapply forallb_impl; [|exact F2]. intros c H.
    now rewrite (upper_size_class _ H).
  - eapply forallb_impl; [|exact F3]. intros c H.
    now rewrite (upper_alnum_size_class _ H).
  - eapply forallb_impl; [|exact F4]. intros c H.
    now rewrite (upper_alnum_size_class _ H).
Qed.

Lemma key_char_upper :
  forall c, size_class c || is_char dash c = true -> upper_char c = c.
Proof. all_chars. Qed.

Lemma key_char_no_newline :
  forall c, size_class c || is_char dash c = true -> c <> newline.
Proof. all_chars. Qed.

(** Keys are uppercase and contain no newline. *)
Lemma key_shape_upper (k : str) : key_shape k -> upper k = k.
Proof.
  intros H. apply key_shape_chars in H. rewrite forallb_forall in H.
  unfold upper. rewrite <- (map_id k) at 2. apply map_ext_in.
  intros c I. apply key_char_upper. auto.
Qed.

Lemma key_shape_no_newline (k : str) : key_shape k -> ~ In newline k.
Proof.
  intros H I. apply key_shape_chars in H. rewrite forallb_forall in H.
  apply H in I. now apply key_char_no_newline in I.
Qed.

(* ================================================================== *)
(** ** Validation *)
(* ================================================================== *)

(** The cascade of early returns as one conjunction. *)
Lemma validate_unfold (s : str) :
  validate_piping_line s =
  (length (split dash s) =? 4)
  && existsb is_upper s
  && existsb is_digit s
  && ((7 <=? length s) && (length s <=? 20))
  && existsb is_digit (nth 0 (split dash s) [])
  && truthy (re_match alnum_re (nth 3 (split dash s) [])).
Proof.
  unfold validate_piping_line. fold alnum_re. rewrite !search_class.
  assert (L : (20 <? length s) || (length s <? 7)
              = negb ((7 <=? length s) && (length s <=? 20))).
  { destruct (Nat.ltb_spec 20 (length s)), (Nat.ltb_spec (length s) 7),
      (Nat.leb_spec 7 (length s)), (Nat.leb_spec (length s) 20);
      cbn [orb andb negb]; auto; lia. }
  rewrite L.
  destruct (length (split dash s) =? 4), (existsb is_upper s),
    (existsb is_digit s), ((7 <=? length s) && (length s <=? 20)),
    (existsb is_digit (nth 0 (split dash s) [])),
    (truthy (re_match alnum_re (nth 3 (split dash s) []))); reflexivity.
Qed.

Lemma upper_fixed_in (s : str) (c : ascii) :
  upper s = s -> In c s -> upper_char c = c.
Proof.
  unfold upper. induction s as [|x s IH]; simpl; [tauto|].
  intros [= Hx Hs] [<-|I]; auto.
Qed.

Lemma fixed_letter : forall c, upper_char c = c -> is_letter c = is_upper c.
Proof. all_chars. Qed.

Lemma fixed_alnum : forall c, upper_char c = c -> is_alnum c = upper_alnum c.
Proof. all_chars. Qed.

Lemma nth_split_in (s : str) (i : nat) (c : ascii) :
  In c (nth i (split dash s) []) -> In c s.
Proof.
  intros I. destruct (Nat.lt_ge_cases i (length (split dash s))) as [L|L].
  - eapply in_split; [|exact I]. now apply nth_In.
  - rewrite nth_overflow in I by assumption. destruct I.
Qed.

(** On uppercase text without line breaks the code's rule is the
    specification's, for a fourth component that is not empty. *)
Lemma validate_uppercase (s : str) :
  upper s = s -> ~ In newline s ->
  (validate_piping_line s = true
   <-> spec_valid s /\ nth 3 (split dash s) [] <> []).
Proof.
  intros U N. rewrite validate_unfold. unfold spec_valid, alnum_re.
  assert (N3 : ~ In newline (nth 3 (split dash s) [])).
  { intros I. apply N. eapply nth_split_in; eauto. }
  rewrite (@anchored_run_plain _ _ N3).
  rewrite !andb_true_iff, !existsb_exists, negb_true_iff, forallb_forall.
  rewrite Nat.eqb_eq, Nat.eqb_neq, !Nat.leb_le.
  cbv zeta. split.
  - intros [[[[[C4 (c & Ic & Lc)] D] L] D1] [NE A]].
    repeat split; auto; try tauto.
    + exists c. split; auto. now apply upper_is_letter.
    + intros x I. apply upper_alnum_is_alnum. now apply A.
    + intros E. rewrite E in NE. now apply NE.
  - intros [(C4 & (c & Ic & Lc) & D & L & D1 & A) NE].
    repeat split; auto; try tauto.
    + exists c. split; auto.
      rewrite <- (@fixed_letter c); auto. eapply upper_fixed_in; eauto.
    + intros E. apply length_zero_iff_nil in E. contradiction.
    + intros x I. change (upper_alnum x = true).
      rewrite <- (@fixed_alnum x); auto.
      eapply upper_fixed_in; eauto. eapply nth_split_in; eauto.
Qed.

(** On the keys of the mapping the rule comes down to a digit in the
    first component. *)
Lemma key_shape_fourth (k : str) :
  key_shape k -> nth 3 (split dash k) [] <> [].
Proof.
  intros H. apply key_shape_split in H.
  destruct H as (k1 & k2 & k3 & k4 & -> & _ & _ & _ & _ & [_ L]).
  simpl. intros ->. simpl in L. lia.
Qed.

Lemma validate_key (k : str) :
  key_shape k -> (validate_piping_line k = true <-> spec_valid k).
Proof.
  intros H. rewrite validate_uppercase.
  - pose proof (key_shape_fourth H). tauto.
  - now apply key_shape_upper.
  - now apply key_shape_no_newline.
Qed.

(* ================================================================== *)
(** ** Python's order on strings and [sorted] *)
(* ================================================================== *)

Lemma code_inj (x y : ascii) : code x = code y -> x = y.
Proof.
  unfold code. intros H.
  rewrite <- (ascii_nat_embedding x), <- (ascii_nat_embedding y). now rewrite H.
Qed.

Lemma str_ltb_irrefl (a : str) : str_ltb a a = false.
Proof.
  induction a as [|x a IH]; simpl; [reflexivity|].
  now rewrite Nat.ltb_irrefl.
Qed.

Lemma str_ltb_trans (a : str) :
  forall b c, str_ltb a b = true -> str_ltb b c = true -> str_ltb a c = true.
Proof.
  induction a as [|x a IH]; intros [|y b] [|z c]; simpl; try discriminate; auto.
  destruct (Nat.ltb_spec (code x) (code y)), (Nat.ltb_spec (code y) (code x)),
    (Nat.ltb_spec (code y) (code z)), (Nat.ltb_spec (code z) (code y)),
    (Nat.ltb_spec (code x) (code z)), (Nat.ltb_spec (code z) (code x));
    try discriminate; try lia; auto.
  apply IH.
Qed.

Lemma str_ltb_asym (a b : str) : str_ltb a b = true -> str_ltb b a = false.
Proof.
  intros H. destruct (str_ltb b a) eqn:E; [|reflexivity].
  pose proof (str_ltb_trans _ _ _ H E) as T. now rewrite str_ltb_irrefl in T.
Qed.

Lemma str_ltb_total (a : str) :
  forall b, str_ltb a b = false -> str_ltb b a = false -> a = b.
Proof.
  induction a as [|x a IH]; intros [|y b]; simpl; try discriminate; auto.
  destruct (Nat.ltb_spec (code x) (code y)), (Nat.ltb_spec (code y) (code x));
    try discriminate; try lia.
  intros A B. f_equal; [apply code_inj; lia|auto].
Qed.

Lemma str_le_cases (a b : str) : str_le a b <-> str_ltb a b = true \/ a = b.
Proof.
  unfold str_le. split.
  - intros H. destruct (str_ltb a b) eqn:E; auto. right. now apply str_ltb_total.
  - intros [H| ->]; [now apply str_ltb_asym|apply str_ltb_irrefl].
Qed.

Lemma str_le_trans (a b c : str) : str_le a b -> str_le b c -> str_le a c.
Proof.
  rewrite !str_le_cases. intros [H1| ->] [H2| ->]; auto.
  left. eapply str_ltb_trans; eauto.
Qed.

Lemma insert_sorted_perm (k : str) (l : list str) :
  Permutation (k :: l) (insert_sorted k l).
Proof.
  induction l as [|x l IH]; simpl; auto.
  destruct (str_ltb k x); auto.
  eapply perm_trans; [apply perm_swap|]. now constructor.
Qed.

Lemma sorted_perm (l : list str) : Permutation l (sorted l).
Proof.
  unfold sorted. eapply perm_trans; [apply Permutation_rev|].
  induction (rev l) as [|x r IH]; simpl; auto.
  eapply perm_trans; [|apply insert_sorted_perm]. now constructor.
Qed.

Lemma insert_sorted_sorted (k : str) (l : list str) :
  StronglySorted str_le l -> StronglySorted str_le (insert_sorted k l).
Proof.
  induction l as [|x l IH]; simpl; intros S.
  - repeat constructor.
  - inversion S as [|? ? S' F]; subst.
    destruct (str_ltb k x) eqn:E.
    + constructor; auto. constructor.
      * now apply str_ltb_asym.
      * eapply Forall_impl; [|exact F]. intros y Hy.
        eapply str_le_trans; [|exact Hy]. now apply str_ltb_asym.
    + constructor; auto.
      eapply Permutation_Forall; [apply insert_sorted_perm|].
      constructor; auto.
Qed.

Lemma sorted_sorted (l : list str) : StronglySorted str_le (sorted l).
Proof.
  unfold sorted. induction (rev l) as [|x r IH]; simpl; [constructor|].
  now apply insert_sorted_sorted.
Qed.

(** Without repeated elements the result is strictly ascending. *)
Lemma sorted_strict (l : list str) :
  NoDup l -> StronglySorted (fun a b => str_ltb a b = true) (sorted l).
Proof.
  intros N.
  assert (N' : NoDup (sorted l)).
  { eapply Permutation_NoDup; [apply sorted_perm|exact N]. }
  pose proof (sorted_sorted l) as S.
  induction S as [|x r S IH F]; [constructor|].
  inversion N'; subst. constructor; auto.
  rewrite Forall_forall in *. intros y I.
  destruct (proj1 (str_le_cases x y) (F y I)) as [H| ->]; auto; contradiction.
Qed.

(* ================================================================== *)
(** ** Result assembly *)
(* ================================================================== *)

(** The dict comprehension keeps, in order, the items whose key passes. *)
Lemma validated_filter (d : dict info) :
  NoDup (dict_keys d) ->
  validated d = filter (fun kv => validate_piping_line (fst kv)) d.
Proof.
  unfold validated.
  assert (G : forall l acc,
    NoDup (dict_keys (acc ++ l)) ->
    fold_left
      (fun (d0 : dict info) (kv : str * info) =>
         if validate_piping_line (fst kv)
         then dict_set (fst kv) (snd kv) d0 else d0) l acc
    = acc ++ filter (fun kv => validate_piping_line (fst kv)) l).
  { induction l as [|[k v] l IH]; intros acc N; simpl.
    - now rewrite app_nil_r.
    - assert (A : ~ In k (dict_keys acc)).
      { unfold dict_keys in N. rewrite map_app in N. simpl in N.
        apply NoDup_remove_2 in N. intros I. apply N.
        apply in_or_app. now left. }
      destruct (validate_piping_line k).
      + rewrite dict_set_absent by assumption. rewrite IH.
        * now rewrite <- app_assoc.
        * now rewrite <- app_assoc.
      + apply IH. unfold dict_keys in *. rewrite map_app in *. simpl in N.
        now apply NoDup_remove_1 in N. }
  intros N. now apply (G d []).
Qed.

Lemma filter_keys_nodup (f : str * info -> bool) (d : dict info) :
  NoDup (dict_keys d) -> NoDup (dict_keys (filter f d)).
Proof.
  induction d as [|[k v] d IH]; simpl; intros N; [constructor|].
  inversion N; subst. destruct (f (k, v)); simpl; auto.
  constructor; auto. intros I. apply H1.
  unfold dict_keys in *. apply in_map_iff in I.
  destruct I as (x & <- & I). apply filter_In in I. apply in_map. tauto.
Qed.

Lemma filter_get (d : dict info) (k : str) :
  dict_get k (filter (fun kv => validate_piping_line (fst kv)) d)
  = if validate_piping_line k then dict_get k d else None.
Proof.
  induction d as [|[k' v'] d IH]; simpl.
  - now destruct (validate_piping_line k).
  - destruct (validate_piping_line k') eqn:V; simpl.
    + destruct (str_eqb k k') eqn:E; auto.
      apply str_eqb_eq in E. subst. now rewrite V.
    + rewrite IH. destruct (str_eqb k k') eqn:E; auto.
      apply str_eqb_eq in E. subst. now rewrite V.
Qed.

Lemma validated_lines_get (text : str) (layout_info : list TextSpan) (k : str) :
  dict_get k (validated_lines text layout_info)
  = if validate_piping_line k
    then dict_get k (extract_piping_line_numbers text layout_info) else None.
Proof.
  unfold validated_lines.
  rewrite validated_filter by apply extract_keys_nodup. apply filter_get.
Qed.

Lemma validated_lines_nodup (text : str) (layout_info : list TextSpan) :
  NoDup (dict_keys (validated_lines text layout_info)).
Proof.
  unfold validated_lines.
  rewrite validated_filter by apply extract_keys_nodup.
  apply filter_keys_nodup, extract_keys_nodup.
Qed.

Lemma validated_lines_keys (text : str) (layout_info : list TextSpan) (k : str) :
  In k (dict_keys (validated_lines text layout_info))
  <-> validate_piping_line k = true
      /\ In k (dict_keys (extract_piping_line_numbers text layout_info)).
Proof.
  rewrite !dict_get_some. setoid_rewrite validated_lines_get.
  destruct (validate_piping_line k); split.
  - intros [v H]. eauto.
  - intros [_ H]. exact H.
  - intros [v H]. discriminate.
  - intros [H _]. discriminate.
Qed.

Lemma entry_of_id (d : dict info) (k : str) :
  piping_line_number (entry_of d k) = k.
Proof.
  unfold entry_of. destruct (get_or (dict_get k d) (0, [], None)) as [[n c] b].
  reflexivity.
Qed.

Lemma process_text_identifiers (pdf text : str) (layout_info : list TextSpan) :
  identifiers (process_text pdf text layout_info)
  = sorted (dict_keys (validated_lines text layout_info)).
Proof.
  unfold identifiers, process_text, save_results_as_json. simpl.
  rewrite map_map. fold (validated_lines text layout_info).
  rewrite <- (map_id (sorted _)) at 2. apply map_ext. apply entry_of_id.
Qed.

(* ================================================================== *)
(** ** Properties of the extractor *)
(* ================================================================== *)

Lemma key_first_seen (text : str) (layout_info : list TextSpan) (k : str) :
  In k (dict_keys (validated_lines text layout_info)) ->
  exists n c b,
    first_seen k (candidates text layout_info) = Some (n, c, b)
    /\ entry_of (validated_lines text layout_info) k
       = {| piping_line_number := k; text_line_number := n;
            context := c; coordinates := b |}.
Proof.
  intros I. pose proof I as I'. apply validated_lines_keys in I'.
  destruct I' as [V _]. apply dict_get_some in I. destruct I as [[[n c] b] G].
  exists n, c, b. split.
  - rewrite validated_lines_get, V, extract_get in G. exact G.
  - unfold entry_of. rewrite G. simpl. now destruct b.
Qed.




(** C3.  The assembled result has exactly one record per validated
    identifier: the identifiers of the records are the keys of the mapping
    that pass [validate_piping_line], none twice; every one of them
    satisfies the validation rule; each record carries the (line number,
    context, coordinates) of the first candidate with its identifier; the
    records are in strictly ascending order of Python's string comparison;
    and [total_found] is the number of records, which is the number of
    validated identifiers. *)
Theorem result_assembly :
  forall (pdf text : str) (layout_info : list TextSpan),
    let r := process_text pdf text layout_info in
    let d := extract_piping_line_numbers text layout_info in
    (forall k, In k (identifiers r)
               <-> validate_piping_line k = true /\ In k (dict_keys d))
    /\ NoDup (identifiers r)
    /\ (forall e, In e (piping_lines r) ->
          validate_piping_line (piping_line_number e) = true
          /\ spec_valid (piping_line_number e)
          /\ first_seen (piping_line_number e) (candidates text layout_info)
             = Some (text_line_number e, context e, coordinates e))
    /\ StronglySorted (fun a b => str_ltb a b = true) (identifiers r)
    /\ total_found r = length (piping_lines r)
    /\ total_found r = length (filter validate_piping_line (dict_keys d)).
Proof.
  intros pdf text layout_info r d.
  assert (K : forall k, In k (identifiers r)
                        <-> In k (dict_keys (validated_lines text layout_info))).
  { intros k. unfold r. rewrite process_text_identifiers. split.
    - apply Permutation_in, Permutation_sym, sorted_perm.
    - apply Permutation_in, sorted_perm. }
  split; [|split; [|split; [|split; [|split]]]].
  - intros k. rewrite K. apply validated_lines_keys.
  - unfold r. rewrite process_text_identifiers.
    eapply Permutation_NoDup; [apply sorted_perm|apply validated_lines_nodup].
  - intros e I.
    assert (J : In (piping_line_number e)
                   (dict_keys (validated_lines text layout_info))).
    { apply K. unfold identifiers. now apply in_map. }
    pose proof J as J'. apply validated_lines_keys in J'. destruct J' as [V J'].
    split; [exact V|]. split.
    + apply validate_key; [|exact V]. eapply extract_key_shape; eauto.
    + unfold r, process_text, save_results_as_json in I. simpl in I.
      apply in_map_iff in I. destruct I as (k & <- & Ik).
      fold (validated_lines text layout_info) in *.
      rewrite entry_of_id in *.
      destruct (key_first_seen _ _ _ J) as (n & c & b & F & ->). exact F.
  - unfold r. rewrite process_text_identifiers.
    apply sorted_strict, validated_lines_nodup.
  - unfold r, process_text, save_results_as_json. simpl.
    rewrite length_map. fold (validated_lines text layout_info).
    rewrite <- (Permutation_length (sorted_perm _)).
    unfold dict_keys. now rewrite length_map.
  - unfold r, process_text, save_results_as_json, d. simpl.
    rewrite validated_filter by apply extract_keys_nodup.
    generalize (extract_piping_line_numbers text layout_info) as l.
    induction l as [|[k v] l IH]; simpl; [reflexivity|].
    destruct (validate_piping_line k); simpl; now rewrite IH.
Qed.

(** C4.  The mapping holds, for each identifier, the (line number,
    context, coordinates) of the first candidate that normalizes to it, in
    the order line by line, pattern by pattern, match by match: whatever
    follows that candidate, duplicates included, changes nothing, and the
    candidates of one identifier have no effect on the entry of
    another. *)
Theorem first_occurrence_wins :
  forall (text : str) (layout_info : list TextSpan) (k : str),
    let d := extract_piping_line_numbers text layout_info in
    dict_get k d = first_seen k (candidates text layout_info)
    /\ (forall v, dict_get k d = Some v
                  <-> exists before after,
                        candidates text layout_info = before ++ (k, v) :: after
                        /\ ~ In k (map fst before))
    /\ (forall k', k' <> k ->
          dict_get k d
          = first_seen k (filter (fun e => negb (str_eqb (fst e) k'))
                                 (candidates text layout_info)))
    /\ NoDup (dict_keys d).
Proof.
  intros text layout_info k d. unfold d.
  split; [apply extract_get|]. split; [|split].
  - intros v. rewrite extract_get. apply first_seen_split.
  - intros k' N. rewrite extract_get, first_seen_filter; [reflexivity|].
    intros e E. apply negb_true_iff, str_eqb_neq. congruence.
  - apply extract_keys_nodup.
Qed.

(** C10.  Whatever one of the three patterns matches has a second
    component of one to three letters, a third of one to three
    alphanumerics and a fourth of one to four alphanumerics.  So every key
    of the mapping has an all-letter second component, no digit in it, and
    the four-component string with the digits 12 in second place is never
    a key nor in the result, although [validate_piping_line] accepts
    it. *)
Theorem second_component_letters :
  forall (text : str) (layout_info : list TextSpan),
    (forall r line m, In r patterns -> In m (findall r line) -> match_shape m)
    /\ (forall k,
          In k (dict_keys (extract_piping_line_numbers text layout_info)) ->
          key_shape k
          /\ forall c, In c (nth 1 (split dash k) []) ->
                       is_upper c = true /\ is_digit c = false)
    /\ ~ In digit_area_example
            (dict_keys (extract_piping_line_numbers text layout_info))
    /\ (forall pdf, ~ In digit_area_example
                         (identifiers (process_text pdf text layout_info)))
    /\ validate_piping_line digit_area_example = true.
Proof.
  intros text layout_info.
  assert (A : forall k,
    In k (dict_keys (extract_piping_line_numbers text layout_info)) ->
    key_shape k
    /\ forall c, In c (nth 1 (split dash k) []) ->
                 is_upper c = true /\ is_digit c = false).
  { intros k I. apply extract_key_shape in I. split; [exact I|].
    apply key_shape_split in I.
    destruct I as (k1 & k2 & k3 & k4 & -> & _ & _ & [F _] & _). simpl.
    rewrite forallb_forall in F. intros c Ic. split; auto.
    apply upper_not_digit. auto. }
  assert (B : ~ In digit_area_example
                   (dict_keys (extract_piping_line_numbers text layout_info))).
  { intros I. apply A in I. destruct I as [_ I].
    destruct (I (ascii_of_nat 49)) as [U _]; [vm_compute; auto|discriminate]. }
  split; [intros r line m; apply findall_shape|].
  split; [exact A|]. split; [exact B|]. split; [|reflexivity].
  intros pdf I. rewrite process_text_identifiers in I.
  apply (Permutation_in _ (Permutation_sym (sorted_perm _))) in I.
  apply validated_lines_keys in I. tauto.
Qed.

(** C2, as stated, fails: the one record of the example does not have
    the identifier with an inch mark at its end. *)
Lemma end_to_end_not_inch_at_end :
  ~ (exists e,
       piping_lines (process_text [] example_text []) = [e]
       /\ piping_line_number e = example_id_inch_at_end
       /\ text_line_number e = 1
       /\ pid_identifier (process_text [] example_text [])
          = Some (lit "XY-99-PID")
       /\ total_found (process_text [] example_text []) = 1).
Proof.
  intros (e & E & I & _). vm_compute in E. injection E as <-.
  vm_compute in I. discriminate.
Qed.

(** C2, amended.  For the two-line example text and an empty span list
    the pipeline produces exactly one record, with the identifier as it
    stands in the text (one inch mark, after the size), text line number
    1, the trimmed first line as context and no coordinates; the PID
    identifier is XY-99-PID and [total_found] is 1.  The same comes out
    when the text arrives in a document without pages. *)
Theorem end_to_end_example :
  forall pdf : str,
    process_text pdf example_text []
    = {| source_file := pdf;
         total_found := 1;
         pid_identifier := Some (lit "XY-99-PID");
         piping_lines :=
           [{| piping_line_number := example_id;
               text_line_number := 1;
               context := lit "Size 6" ++ [inch] ++ lit "-P-101-CS to reactor";
               coordinates := None |}] |}
    /\ process_pdf_to_piping_lines pdf
         {| doc_text := Some example_text; pages := None |}
       = Ok (process_text pdf example_text []).
Proof.
  intros pdf. split; [|reflexivity].
  unfold process_text, save_results_as_json. f_equal; vm_compute; reflexivity.
Qed.

(** C5, where the code departs from it: [^\d+$] also matches a run of
    digits followed by one newline, so the inch mark is appended to a
    first component that is not purely numeric. *)
Theorem normalize_after_newline :
  purely_numeric (nth 0 (split dash newline_size_example) []) = false
  /\ normalize_piping_line newline_size_example
     = lit "6" ++ [newline; inch] ++ lit "-P-101-CS"
  /\ normalize_piping_line newline_size_example <> newline_size_example.
Proof. repeat split; vm_compute; congruence. Qed.


(* ================================================================== *)
(** ** Layout flattening *)
(* ================================================================== *)

Lemma token_bbox_ok (lay : Layout) :
  poly_ok lay = true -> exists b, token_bbox lay = Ok b.
Proof.
  unfold poly_ok, token_bbox.
  destruct (boundingPoly lay) as [poly|]; [|eauto].
  destruct (get_or (vertices poly) []) as [|v0 [|v1 [|v2 vs]]];
    simpl; try discriminate; eauto.
Qed.

Lemma for_each_segments (text : str) (lay : Layout) (b : option BBox)
    (segs : list Segment) :
  token_bbox lay = Ok b ->
  forall acc,
    for_each (segment_step text lay) segs acc
    = Ok (acc ++ map (fun s => make_span text (get_or (startIndex s) 0%Z)
                                 (get_or (endIndex s) 0%Z) b) segs).
Proof.
  intros B. induction segs as [|s segs IH]; intros acc; simpl.
  - now rewrite app_nil_r.
  - unfold segment_step at 1. rewrite B. simpl. rewrite IH.
    now rewrite <- app_assoc.
Qed.

Lemma token_bbox_raise (lay : Layout) :
  poly_ok lay = false -> token_bbox lay = Raise IndexError.
Proof.
  unfold poly_ok, token_bbox.
  destruct (boundingPoly lay) as [poly|]; [|discriminate].
  destruct (get_or (vertices poly) []) as [|v0 [|v1 [|v2 vs]]];
    simpl; try discriminate; reflexivity.
Qed.

Lemma token_step_ok (text : str) (t : Token) (acc : list TextSpan) :
  token_ok t = true ->
  token_step text acc t = Ok (acc ++ token_spans text t).
Proof.
  unfold token_ok, token_step, token_spans, token_segments.
  destruct (layout t) as [lay|]; [|now rewrite app_nil_r].
  destruct (textAnchor lay) as [ta|];
    [|destruct (token_bbox lay); now rewrite app_nil_r].
  destruct (textSegments ta) as [[|s segs]|]; simpl;
    try (destruct (token_bbox lay); now rewrite app_nil_r).
  intros P. destruct (token_bbox_ok lay P) as [b B]. rewrite B.
  now apply (for_each_segments text lay (s :: segs) B).
Qed.

Lemma token_step_raise (text : str) (t : Token) (acc : list TextSpan) :
  token_ok t = false -> token_step text acc t = Raise IndexError.
Proof.
  unfold token_ok, token_step, token_segments.
  destruct (layout t) as [lay|]; [|discriminate].
  destruct (textAnchor lay) as [ta|]; [|discriminate].
  destruct (textSegments ta) as [[|s segs]|]; simpl; try discriminate.
  intros P. unfold segment_step. now rewrite (token_bbox_raise lay P).
Qed.

Lemma for_each_tokens (text : str) (toks : list Token) :
  forallb token_ok toks = true ->
  forall acc,
    for_each (token_step text) toks acc
    = Ok (acc ++ flat_map (token_spans text) toks).
Proof.
  induction toks as [|t toks IH]; simpl; intros P acc.
  - now rewrite app_nil_r.
  - apply andb_true_iff in P. destruct P as [Pt P].
    rewrite token_step_ok by assumption. simpl.
    rewrite IH by assumption. now rewrite <- app_assoc.
Qed.

Lemma for_each_pages (text : str) (ps : list Page) :
  forallb token_ok (flat_map (fun p => get_or (tokens p) []) ps) = true ->
  forall acc,
    for_each (page_step text) ps acc
    = Ok (acc ++ flat_map (token_spans text)
                   (flat_map (fun p => get_or (tokens p) []) ps)).
Proof.
  induction ps as [|p ps IH]; simpl; intros P acc.
  - now rewrite app_nil_r.
  - rewrite forallb_app in P. apply andb_true_iff in P. destruct P as [Pp P].
    unfold page_step at 1. rewrite flat_map_app.
    destruct (tokens p) as [toks|]; simpl in *.
    + rewrite for_each_tokens by assumption. simpl.
      rewrite IH by assumption. now rewrite <- app_assoc.
    + now apply IH.
Qed.

Lemma for_each_tokens_raise (text : str) (toks : list Token) :
  forallb token_ok toks = false ->
  forall acc, for_each (token_step text) toks acc = Raise IndexError.
Proof.
  induction toks as [|t toks IH]; simpl; intros P acc; [discriminate|].
  destruct (token_ok t) eqn:T; simpl in P.
  - rewrite token_step_ok by assumption. simpl. now apply IH.
  - now rewrite token_step_raise.
Qed.

Lemma for_each_pages_raise (text : str) (ps : list Page) :
  forallb token_ok (flat_map (fun p => get_or (tokens p) []) ps) = false ->
  forall acc, for_each (page_step text) ps acc = Raise IndexError.
Proof.
  induction ps as [|p ps IH]; simpl; intros P acc; [discriminate|].
  rewrite forallb_app in P. unfold page_step at 1.
  destruct (tokens p) as [toks|]; simpl in *; [|now apply IH].
  destruct (forallb token_ok toks) eqn:T; simpl in P.
  - rewrite for_each_tokens by assumption. simpl. now apply IH.
  - now rewrite for_each_tokens_raise.
Qed.

(** With readable polygons the flattening returns the spans of the
    tokens, one after the other. *)
Lemma extract_layout_ok (doc : Document) :
  polygons_ok doc = true ->
  extract_text_and_layout_from_document doc
  = Ok (get_or (doc_text doc) [],
        flat_map (token_spans (get_or (doc_text doc) [])) (doc_tokens doc)).
Proof.
  unfold polygons_ok, doc_tokens, extract_text_and_layout_from_document.
  destruct (pages doc) as [ps|]; simpl; [|reflexivity].
  intros P. now rewrite for_each_pages.
Qed.

(** With a polygon of one or two vertices on a token that has a segment
    it raises. *)
Lemma extract_layout_raise (doc : Document) :
  polygons_ok doc = false ->
  extract_text_and_layout_from_document doc = Raise IndexError.
Proof.
  unfold polygons_ok, doc_tokens, extract_text_and_layout_from_document.
  destruct (pages doc) as [ps|]; simpl; [|discriminate].
  intros P. now rewrite for_each_pages_raise.
Qed.




(** C8, where the code departs from it: with one or two vertices the
    test [if vertices] passes and [vertices[2]] raises [IndexError], in
    the flattening and so in the whole processing; and so it is for every
    document with such a polygon on a token that has a segment. *)
Theorem flattening_raises_on_short_polygon :
  extract_text_and_layout_from_document one_vertex_document = Raise IndexError
  /\ (forall pdf, process_pdf_to_piping_lines pdf one_vertex_document
                  = Raise IndexError)
  /\ (forall doc, polygons_ok doc = false ->
                  extract_text_and_layout_from_document doc = Raise IndexError).
Proof.
  split; [reflexivity|]. split; [reflexivity|]. apply extract_layout_raise.
Qed.



(* ================================================================== *)
(** ** Coordinate resolution *)
(* ================================================================== *)

Lemma starts_with_spec (p s : str) :
  starts_with p s = true <-> exists post, s = p ++ post.
Proof.
  revert s. induction p as [|a p IH]; intros s; simpl.
  - split; eauto.
  - destruct s as [|b s].
    + split; [discriminate|]. intros [post H]. discriminate.
    + rewrite andb_true_iff, Ascii.eqb_eq, IH. split.
      * intros [-> [post ->]]. eauto.
      * intros [post [= -> ->]]. eauto.
Qed.

Lemma find_from_none (needle : str) :
  forall hay i,
    (0 <= i)%Z -> find_from i needle hay = (-1)%Z ->
    forall pre, ~ occurs_at needle hay pre.
Proof.
  induction hay as [|c hay IH]; intros i Hi; simpl.
  - destruct (starts_with needle []) eqn:S; [lia|].
    intros _ pre [post E]. destruct pre; [|discriminate].
    assert (T : starts_with needle [] = true) by (apply starts_with_spec; eauto).
    congruence.
  - destruct (starts_with needle (c :: hay)) eqn:S; [lia|].
    intros F [|x pre] [post E].
    + assert (T : starts_with needle (c :: hay) = true)
        by (apply starts_with_spec; eauto).
      congruence.
    + injection E as -> E. apply (IH (i + 1)%Z ltac:(lia) F pre). now exists post.
Qed.

Lemma find_from_some (needle : str) :
  forall hay i,
    find_from i needle hay <> (-1)%Z ->
    exists pre,
      occurs_at needle hay pre
      /\ find_from i needle hay = (i + len pre)%Z
      /\ forall pre', occurs_at needle hay pre' -> length pre <= length pre'.
Proof.
  induction hay as [|c hay IH]; intros i; simpl.
  - destruct (starts_with needle []) eqn:S; [|congruence].
    intros _. exists []. split; [now apply starts_with_spec|].
    unfold len. simpl. split; [lia|]. intros; lia.
  - destruct (starts_with needle (c :: hay)) eqn:S.
    + intros _. exists []. split; [now apply starts_with_spec|].
      unfold len. simpl. split; [lia|]. intros; lia.
    + intros F. destruct (IH _ F) as (pre & [post E] & V & Least).
      exists (c :: pre). split; [exists post; simpl; now f_equal|].
      split.
      * rewrite V. unfold len. simpl length. lia.
      * intros [|x pre'] [post' E'].
        -- assert (T : starts_with needle (c :: hay) = true)
             by (apply starts_with_spec; eauto).
           congruence.
        -- injection E' as -> E'. simpl.
           apply le_n_S, Least. now exists post'.
Qed.

(** [str.find] gives [-1] exactly when there is no occurrence. *)
Lemma find_none (needle hay : str) :
  find needle hay = (-1)%Z <-> forall pre, ~ occurs_at needle hay pre.
Proof.
  split.
  - apply find_from_none. lia.
  - intros N. destruct (Z.eq_dec (find needle hay) (-1)) as [E|E]; auto.
    apply find_from_some in E. destruct E as (pre & O & _). now apply N in O.
Qed.

(** ... and the offset of the first occurrence otherwise. *)
Lemma find_first (needle hay pre : str) :
  occurs_at needle hay pre ->
  (forall pre', occurs_at needle hay pre' -> length pre <= length pre') ->
  find needle hay = len pre.
Proof.
  intros O Least.
  destruct (Z.eq_dec (find needle hay) (-1)) as [E|E].
  - exfalso. eapply find_none; eauto.
  - apply find_from_some in E. destruct E as (p & Op & V & L).
    fold (find needle hay) in V. rewrite V. unfold len.
    pose proof (Least _ Op). pose proof (L _ O). lia.
Qed.

Lemma scan_layout_first_box (layout_info : list TextSpan) (s e : Z) :
  scan_layout layout_info s e
  = first_box (fun lay => overlaps lay s e) layout_info.
Proof.
  induction layout_info as [|lay rest IH]; simpl; [reflexivity|].
  now rewrite IH.
Qed.

(** The box found is that of the first span, in order, that passes the
    test and carries a box. *)
Lemma first_box_some (test : TextSpan -> bool) (layout_info : list TextSpan)
    (b : BBox) :
  first_box test layout_info = Some b <->
  exists before lay after,
    layout_info = before ++ lay :: after
    /\ test lay = true /\ sp_bbox lay = Some b
    /\ Forall (fun l => test l = false \/ sp_bbox l = None) before.
Proof.
  split.
  - induction layout_info as [|lay rest IH]; simpl; [discriminate|].
    destruct (test lay) eqn:T.
    + destruct (sp_bbox lay) as [b'|] eqn:B.
      * intros [= ->]. exists [], lay, rest. auto.
      * intros H. destruct (IH H) as (bf & l & af & -> & P).
        exists (lay :: bf), l, af. split; auto.
        destruct P as (P1 & P2 & P3). auto.
    + intros H. destruct (IH H) as (bf & l & af & -> & P).
      exists (lay :: bf), l, af. split; auto.
      destruct P as (P1 & P2 & P3). auto.
  - intros (bf & l & af & -> & T & B & F).
    induction F as [|x bf [Hx|Hx] F IH]; simpl.
    + now rewrite T, B.
    + now rewrite Hx.
    + rewrite Hx. now destruct (test x).
Qed.

Lemma first_box_none (test : TextSpan -> bool) (layout_info : list TextSpan) :
  first_box test layout_info = None <->
  Forall (fun l => test l = false \/ sp_bbox l = None) layout_info.
Proof.
  induction layout_info as [|lay rest IH]; simpl.
  - split; auto.
  - destruct (test lay) eqn:T; [destruct (sp_bbox lay) eqn:B|].
    + split; [discriminate|]. intros F. inversion F as [|? ? [H|H] _]; congruence.
    + rewrite IH. split; [auto|]. intros F. now inversion F.
    + rewrite IH. split; [auto|]. intros F. now inversion F.
Qed.

Lemma first_box_ext (t1 t2 : TextSpan -> bool) (layout_info : list TextSpan) :
  Forall (fun l => t1 l = t2 l) layout_info ->
  first_box t1 layout_info = first_box t2 layout_info.
Proof.
  induction 1 as [|l r E F IH]; simpl; [reflexivity|]. now rewrite E, IH.
Qed.

(** For a match that is not empty and a span that is not empty the
    code's test is range intersection. *)
Lemma overlaps_spec (lay : TextSpan) (s e : Z) :
  (s < e)%Z -> (sp_start lay < sp_end lay)%Z ->
  overlaps lay s e = spec_overlaps lay s e.
Proof.
  intros H1 H2. unfold overlaps, spec_overlaps.
  destruct (Z.leb_spec (sp_start lay) s), (Z.ltb_spec s (sp_end lay)),
    (Z.ltb_spec (sp_start lay) e), (Z.leb_spec e (sp_end lay)),
    (Z.leb_spec s (sp_start lay)), (Z.leb_spec (sp_end lay) s),
    (Z.leb_spec e (sp_start lay)); simpl; auto; lia.
Qed.

(** Range intersection always passes the code's test. *)
Lemma spec_overlaps_overlaps (lay : TextSpan) (s e : Z) :
  spec_overlaps lay s e = true -> overlaps lay s e = true.
Proof.
  unfold overlaps, spec_overlaps.
  destruct (Z.leb_spec (sp_start lay) s), (Z.ltb_spec s (sp_end lay)),
    (Z.ltb_spec (sp_start lay) e), (Z.leb_spec e (sp_end lay)),
    (Z.leb_spec s (sp_start lay)), (Z.leb_spec (sp_end lay) s),
    (Z.leb_spec e (sp_start lay)); simpl; auto; lia.
Qed.

Lemma forget_keys (d d' : list event) :
  map forget d = map forget d' -> dict_keys d = dict_keys d'.
Proof.
  intros H. unfold dict_keys.
  assert (K : forall l : list event, map fst l = map fst (map forget l)).
  { intros l. rewrite map_map. now apply map_ext. }
  now rewrite (K d), (K d'), H.
Qed.

Lemma dict_mem_keys (d d' : dict info) (k : str) :
  dict_keys d = dict_keys d' -> dict_mem k d = dict_mem k d'.
Proof.
  intros H. destruct (dict_mem k d) eqn:A, (dict_mem k d') eqn:B; auto.
  - apply dict_mem_in in A. rewrite H in A. apply dict_mem_in in A. congruence.
  - apply dict_mem_in in B. rewrite <- H in B. apply dict_mem_in in B. congruence.
Qed.

Lemma fold_add_first_forget (evs : list event) :
  forall evs' d d',
    map forget evs = map forget evs' -> map forget d = map forget d' ->
    map forget (fold_left add_first evs d)
    = map forget (fold_left add_first evs' d').
Proof.
  induction evs as [|e evs IH]; intros [|e' evs'] d d' H1 H2;
    simpl in H1; simpl; try discriminate; auto.
  injection H1 as K Kn Kc Hevs. apply IH; auto.
  assert (HK : dict_keys d = dict_keys d') by (now apply forget_keys).
  unfold add_first. rewrite <- K.
  rewrite (@dict_mem_keys d d' (fst e) HK).
  destruct (dict_mem (fst e) d') eqn:M; simpl; auto.
  assert (A' : ~ In (fst e) (dict_keys d')).
  { intros I. apply dict_mem_in in I. congruence. }
  assert (A : ~ In (fst e) (dict_keys d)) by (now rewrite HK).
  rewrite !dict_set_absent by assumption.
  rewrite !map_app. f_equal; [exact H2|].
  simpl. f_equal. unfold forget. simpl. congruence.
Qed.

Lemma candidates_forget (text : str) (l1 l2 : list TextSpan) :
  map forget (candidates text l1) = map forget (candidates text l2).
Proof.
  unfold candidates.
  induction (enumerate 1 (split newline text)) as [|nl ls IH]; simpl; auto.
  rewrite !map_app, IH. f_equal.
  unfold line_candidates. rewrite !map_map. reflexivity.
Qed.

(** The span list has no part in which identifiers are found, on which
    line, or with which context. *)
Lemma extract_forget (text : str) (l1 l2 : list TextSpan) :
  map forget (extract_piping_line_numbers text l1)
  = map forget (extract_piping_line_numbers text l2).
Proof.
  rewrite !extract_as_fold.
  apply fold_add_first_forget; [apply candidates_forget|reflexivity].
Qed.

Lemma validated_keys (d : dict info) :
  NoDup (dict_keys d) ->
  dict_keys (validated d) = filter validate_piping_line (dict_keys d).
Proof.
  intros N. rewrite validated_filter by assumption.
  clear N. induction d as [|[k v] d IH]; simpl; [reflexivity|].
  destruct (validate_piping_line k); simpl; now rewrite IH.
Qed.

Lemma candidate_coordinates (text : str) (layout_info : list TextSpan)
    (k : str) (n : nat) (c : str) (b : option BBox) :
  In (k, (n, c, b)) (candidates text layout_info) ->
  exists m, b = find_coordinates_for_text m text layout_info.
Proof.
  unfold candidates. intros I. apply in_flat_map in I.
  destruct I as (nl & _ & I). unfold line_candidates in I.
  apply in_map_iff in I. destruct I as (m & E & _).
  unfold candidate_of in E. exists m. congruence.
Qed.

Lemma find_coordinates_no_layout (target text : str) :
  find_coordinates_for_text target text [] = None.
Proof.
  unfold find_coordinates_for_text.
  now destruct (find (upper target) (upper text) =? -1)%Z.
Qed.

Lemma process_text_layout_identifiers (pdf text : str) (l1 l2 : list TextSpan) :
  identifiers (process_text pdf text l1) = identifiers (process_text pdf text l2).
Proof.
  rewrite !process_text_identifiers. unfold validated_lines.
  rewrite !validated_keys by apply extract_keys_nodup.
  now rewrite (forget_keys _ _ (extract_forget text l1 l2)).
Qed.

Lemma process_text_no_layout (pdf text : str) :
  Forall (fun e => coordinates e = None) (piping_lines (process_text pdf text [])).
Proof.
  apply Forall_forall. intros e I.
  unfold process_text, save_results_as_json in I. simpl in I.
  fold (validated_lines text []) in I.
  apply in_map_iff in I. destruct I as (k & <- & Ik).
  apply (Permutation_in _ (Permutation_sym (sorted_perm _))) in Ik.
  destruct (key_first_seen _ _ _ Ik) as (n & c & b & F & ->). simpl.
  apply first_seen_in, candidate_coordinates in F. destruct F as [m ->].
  apply find_coordinates_no_layout.
Qed.

(** C7, where the code departs from it: a span that holds no character
    (here from 2 back to the default 0) overlaps nothing, yet the
    three-way test of the code lets it through, and its box is returned
    for the match AB at offsets 1 to 3. *)
Theorem coordinates_from_empty_span :
  extract_text_and_layout_from_document open_segment_document
  = Ok (lit "xAB", [empty_span])
  /\ find (upper (lit "AB")) (upper (lit "xAB")) = 1%Z
  /\ find_coordinates_for_text (lit "AB") (lit "xAB") [empty_span]
     = sp_bbox empty_span
  /\ spec_overlaps empty_span 1 3 = false
  /\ spec_find_coordinates (lit "AB") (lit "xAB") [empty_span] = None.
Proof. repeat split; reflexivity. Qed.

(** What [find_coordinates_for_text] does on every input.  It returns
    nothing when the matched text does not occur in the text, case
    apart.  Otherwise, with [start, end) the range of the first
    occurrence, it returns the box of
    the first span in order that carries a box and passes the code's test
    (span start <= start < span end, or span start < end <= span end, or
    start <= span start < end), and nothing when there is no such span.
    For a matched text that is not empty and spans that are not empty
    (start before end) that test is range intersection.  With an empty
    span list the answer is nothing, every record has coordinates null,
    and the identifiers, line numbers and contexts are those found with
    any span list. *)
Theorem coordinate_resolution :
  forall (target text : str) (layout_info : list TextSpan),
    ((forall pre, ~ occurs_at (upper target) (upper text) pre) ->
     find_coordinates_for_text target text layout_info = None)
    /\ (forall pre,
          occurs_at (upper target) (upper text) pre ->
          (forall pre', occurs_at (upper target) (upper text) pre' ->
                        length pre <= length pre') ->
          let s := len pre in
          let e := (len pre + len target)%Z in
          (forall b,
              find_coordinates_for_text target text layout_info = Some b
              <-> exists before lay after,
                    layout_info = before ++ lay :: after
                    /\ overlaps lay s e = true /\ sp_bbox lay = Some b
                    /\ Forall (fun l => overlaps l s e = false
                                        \/ sp_bbox l = None) before)
          /\ (find_coordinates_for_text target text layout_info = None
              <-> Forall (fun l => overlaps l s e = false \/ sp_bbox l = None)
                         layout_info))
    /\ (target <> [] ->
        Forall (fun lay => (sp_start lay < sp_end lay)%Z) layout_info ->
        find_coordinates_for_text target text layout_info
        = spec_find_coordinates target text layout_info)
    /\ find_coordinates_for_text target text [] = None
    /\ map forget (extract_piping_line_numbers text layout_info)
       = map forget (extract_piping_line_numbers text [])
    /\ (forall pdf,
          identifiers (process_text pdf text layout_info)
          = identifiers (process_text pdf text [])
          /\ Forall (fun e => coordinates e = None)
                    (piping_lines (process_text pdf text []))).
Proof.
  intros target text layout_info.
  split; [|split; [|split; [|split; [|split]]]].
  - intros N. unfold find_coordinates_for_text.
    apply find_none in N. now rewrite N.
  - intros pre O Least s e.
    assert (F : find (upper target) (upper text) = len pre)
      by (now apply find_first).
    assert (E : find_coordinates_for_text target text layout_info
                = first_box (fun lay => overlaps lay s e) layout_info).
    { unfold find_coordinates_for_text. rewrite F.
      destruct (Z.eqb_spec (len pre) (-1)) as [X|_];
        [unfold len in X; lia|].
      apply scan_layout_first_box. }
    rewrite E. split; [intros b; apply first_box_some|apply first_box_none].
  - intros NE W. unfold find_coordinates_for_text, spec_find_coordinates.
    destruct (Z.eqb_spec (find (upper target) (upper text)) (-1)) as [|X];
      [reflexivity|].
    rewrite scan_layout_first_box. apply first_box_ext.
    eapply Forall_impl; [|exact W]. intros lay L. simpl.
    apply overlaps_spec; auto.
    unfold len. destruct target; [congruence|simpl length; lia].
  - apply find_coordinates_no_layout.
  - apply extract_forget.
  - intros pdf. split; [apply process_text_layout_identifiers
                       |apply process_text_no_layout].
Qed.

(* ================================================================== *)
(** ** Sequences and patterns without anchors or groups *)
(* ================================================================== *)

Lemma spells_seq_nil (w : str) : spells (seq []) w <-> w = [].
Proof.
  simpl. split.
  - intros (_ & _ & L). destruct w; [reflexivity|simpl in L; lia].
  - intros ->. simpl. auto.
Qed.

Lemma spells_seq_cons_iff (r : regex) (rs : list regex) (w : str) :
  spells (seq (r :: rs)) w
  <-> exists w1 w2, w = w1 ++ w2 /\ spells r w1 /\ spells (seq rs) w2.
Proof.
  split; [apply spells_seq_cons|].
  intros (w1 & w2 & -> & S1 & S2). destruct rs as [|r' rs].
  - apply spells_seq_nil in S2. subst. now rewrite app_nil_r.
  - simpl. eauto.
Qed.

Lemma matches_seq_nil (st st' : state) : matches (seq []) st st' <-> st' = st.
Proof.
  simpl. split.
  - intros (w & _ & _ & L & S). destruct w; [|simpl in L; lia].
    now apply step_nil_inv.
  - intros ->. exists []. simpl. repeat split; auto.
Qed.

Lemma matches_seq_cons_iff (r : regex) (rs : list regex) (st st' : state) :
  matches (seq (r :: rs)) st st'
  <-> exists mid, matches r st mid /\ matches (seq rs) mid st'.
Proof.
  destruct rs as [|r' rs]; [|reflexivity].
  split.
  - intros H. exists st'. split; auto. now apply matches_seq_nil.
  - intros (mid & M & N). apply matches_seq_nil in N. now subst.
Qed.

Lemma matches_seq_app (l1 l2 : list regex) (st st' : state) :
  matches (seq (l1 ++ l2)) st st'
  <-> exists mid, matches (seq l1) st mid /\ matches (seq l2) mid st'.
Proof.
  revert st. induction l1 as [|r l1 IH]; intros st.
  - simpl app. split.
    + intros H. exists st. split; auto. now apply matches_seq_nil.
    + intros (mid & M & N). apply matches_seq_nil in M. now subst.
  - change ((r :: l1) ++ l2) with (r :: (l1 ++ l2)).
    rewrite matches_seq_cons_iff. split.
    + intros (m1 & M1 & M2). apply IH in M2. destruct M2 as (m2 & M2 & M3).
      exists m2. split; auto. apply matches_seq_cons_iff. eauto.
    + intros (m2 & M & M3). apply matches_seq_cons_iff in M.
      destruct M as (m1 & M1 & M2). exists m1. split; auto. apply IH. eauto.
Qed.

(** For such a pattern a match is a move over a word it spells. *)
Lemma plain_matches (r : regex) :
  plain r = true ->
  forall st st', matches r st st' <-> exists w, spells r w /\ step st w st'.
Proof.
  induction r; simpl; try discriminate.
  - intros _ st st'. split.
    + intros (c & Pc & S). exists [c]. eauto.
    + intros (w & (c & Pc & ->) & S). eauto.
  - intros _ st st'. split.
    + intros (w & F & L & H & S). exists w. auto.
    + intros (w & (F & L & H) & S). exists w. auto.
  - rewrite andb_true_iff. intros [P1 P2] st st'. split.
    + intros (mid & M1 & M2). apply (IHr1 P1) in M1. apply (IHr2 P2) in M2.
      destruct M1 as (w1 & S1 & T1). destruct M2 as (w2 & S2 & T2).
      exists (w1 ++ w2). split; [eauto|]. eapply step_app; eauto.
    + intros (w & (w1 & w2 & -> & S1 & S2) & (A & B & G)).
      exists (mk_state (rev w1 ++ behind st) (w2 ++ ahead st') (group1 st)).
      split.
      * apply (IHr1 P1). exists w1. split; auto. unfold step; simpl.
        rewrite A, <- app_assoc. auto.
      * apply (IHr2 P2). exists w2. split; auto. unfold step; simpl.
        rewrite B, rev_app_distr, <- app_assoc. auto.
Qed.

(** *** Words spelled without regard to case *)

Lemma upper_fixed : forall c, is_upper c = true -> upper_char c = c.
Proof. all_chars. Qed.

Lemma lower_not_upper : forall c, is_upper (lower_char c) = false.
Proof. all_chars. Qed.

Lemma icase_letter (a c : ascii) :
  is_upper a = true ->
  (icase (is_char (upper_char a)) c = true <-> upper_char c = a).
Proof.
  intros U. rewrite (upper_fixed _ U). unfold icase.
  rewrite !orb_true_iff, !is_char_eq. split.
  - intros [[->| ->]| E]; auto using upper_fixed.
    pose proof (lower_not_upper c) as L. rewrite E in L. congruence.
  - auto.
Qed.

Lemma spells_iword (s : string) (w : str) :
  forallb is_upper (lit s) = true ->
  (spells (iword s) w <-> upper w = lit s).
Proof.
  unfold iword. generalize (lit s) as l. intros l. revert w.
  induction l as [|a l IH]; intros w U.
  - simpl map. rewrite spells_seq_nil. split; [now intros ->|].
    destruct w; [reflexivity|discriminate].
  - simpl in U. apply andb_true_iff in U. destruct U as [Ua U].
    simpl map. rewrite spells_seq_cons_iff. split.
    + intros (w1 & w2 & -> & (c & Pc & ->) & S2).
      apply IH in S2; auto. apply icase_letter in Pc; auto.
      simpl. now rewrite Pc, S2.
    + destruct w as [|c w]; [discriminate|]. simpl. intros [= Hc Hw].
      exists [c], w. split; auto. split.
      * exists c. split; auto. now apply icase_letter.
      * now apply IH.
Qed.

(* ================================================================== *)
(** ** The PID identifier *)
(* ================================================================== *)

Lemma pid_pattern_re : pid_pattern = pid_re true.
Proof. reflexivity. Qed.

Lemma pid_pattern2_re : pid_pattern2 = pid_re false.
Proof. reflexivity. Qed.

Lemma lit_dot_eq : forall c, lit_dot c = true -> c = dot.
Proof. all_chars. Qed.

Lemma spells_opt_dot (w : str) :
  spells (opt lit_dot) w <-> w = [] \/ w = [dot].
Proof.
  simpl. split.
  - intros (F & _ & L). destruct w as [|c [|d w]]; auto; [|simpl in L; lia].
    simpl in F. rewrite andb_true_r in F. apply lit_dot_eq in F. subst. auto.
  - intros [->| ->]; simpl; auto.
Qed.

Lemma spells_star (p : ascii -> bool) (w : str) :
  spells (star p) w <-> forallb p w = true.
Proof. simpl. split; [tauto|]. intros H. repeat split; auto. lia. Qed.

Lemma spells_plus (p : ascii -> bool) (w : str) :
  spells (plus p) w <-> w <> [] /\ forallb p w = true.
Proof.
  simpl. split.
  - intros (F & L & _). split; auto. intros ->. simpl in L. lia.
  - intros [N F]. repeat split; auto. destruct w; [congruence|simpl; lia].
Qed.

Ltac open_seq H w1 w2 S :=
  apply spells_seq_cons_iff in H; destruct H as (w1 & w2 & -> & S & H).

Ltac close_seq w1 w2 :=
  apply spells_seq_cons_iff; exists w1, w2; split; [reflexivity|split].

Lemma spells_label (with_dot : bool) (lab : str) :
  spells (seq (label_items with_dot)) lab <-> is_label with_dot lab.
Proof.
  unfold is_label. destruct with_dot; unfold label_items; cbn [app]; split.
  - intros H. open_seq H dwg w1 D. open_seq H d1 w2 D1. open_seq H ws1 w3 S1.
    open_seq H no w4 Hno. open_seq H d2 w5 D2. open_seq H ws2 w6 S2.
    apply spells_seq_nil in H. subst w6.
    apply spells_iword in D; [|reflexivity]. apply spells_iword in Hno; [|reflexivity].
    destruct D1 as (c & Pc & ->). apply lit_dot_eq in Pc. subst c.
    apply spells_star in S1, S2. apply spells_opt_dot in D2.
    exists dwg, ws1, no, d2, ws2. rewrite app_nil_r. simpl. auto 10.
  - intros (dwg & ws1 & no & d2 & ws2 & -> & D & S1 & N & D2 & S2).
    close_seq dwg ([dot] ++ ws1 ++ no ++ d2 ++ ws2);
      [apply spells_iword; [reflexivity|exact D]|].
    close_seq [dot] (ws1 ++ no ++ d2 ++ ws2); [exists dot; auto|].
    close_seq ws1 (no ++ d2 ++ ws2); [now apply spells_star|].
    close_seq no (d2 ++ ws2); [apply spells_iword; [reflexivity|exact N]|].
    close_seq d2 ws2; [now apply spells_opt_dot|].
    now apply spells_star.
  - intros H. open_seq H dwg w1 D. open_seq H ws1 w3 S1.
    open_seq H no w4 Hno. open_seq H d2 w5 D2. open_seq H ws2 w6 S2.
    apply spells_seq_nil in H. subst w6.
    apply spells_iword in D; [|reflexivity]. apply spells_iword in Hno; [|reflexivity].
    apply spells_star in S1, S2. apply spells_opt_dot in D2.
    exists dwg, ws1, no, d2, ws2. rewrite app_nil_r. simpl. auto 10.
  - intros (dwg & ws1 & no & d2 & ws2 & -> & D & S1 & N & D2 & S2).
    simpl app.
    close_seq dwg (ws1 ++ no ++ d2 ++ ws2);
      [apply spells_iword; [reflexivity|exact D]|].
    close_seq ws1 (no ++ d2 ++ ws2); [now apply spells_star|].
    close_seq no (d2 ++ ws2); [apply spells_iword; [reflexivity|exact N]|].
    close_seq d2 ws2; [now apply spells_opt_dot|].
    now apply spells_star.
Qed.

Lemma spells_token (tok : str) : spells token_re tok <-> is_token tok.
Proof.
  unfold is_token, token_re. split.
  - intros H. open_seq H t1 w1 T1. open_seq H p w2 P. open_seq H t2 w3 T2.
    apply spells_seq_nil in H. subst w3.
    apply spells_plus in T1. apply spells_star in T2.
    apply spells_iword in P; [|reflexivity].
    exists t1, p, t2. rewrite app_nil_r. tauto.
  - intros (t1 & p & t2 & -> & N1 & F1 & P & F2).
    close_seq t1 (p ++ t2); [now apply spells_plus|].
    close_seq p t2; [apply spells_iword; [reflexivity|exact P]|].
    now apply spells_star.
Qed.

Lemma plain_label (with_dot : bool) : plain (seq (label_items with_dot)) = true.
Proof. destruct with_dot; reflexivity. Qed.

Lemma plain_token : plain token_re = true.
Proof. reflexivity. Qed.

(** A match of either pattern at a position is a label and a token
    there, and group 1 is the token. *)
Lemma pid_matches (with_dot : bool) (pre post0 : str) (st' : state) :
  matches (pid_re with_dot) (at_pos pre post0) st'
  <-> exists lab tok post,
        post0 = lab ++ tok ++ post /\ is_label with_dot lab /\ is_token tok
        /\ st' = mk_state (rev tok ++ rev lab ++ rev pre) post (Some tok).
Proof.
  unfold pid_re. rewrite matches_seq_app. split.
  - intros (mid & M1 & mid2 & M2 & ->).
    apply (plain_matches _ (plain_label with_dot)) in M1.
    apply (plain_matches _ plain_token) in M2.
    destruct M1 as (lab & S1 & A1 & B1 & G1).
    destruct M2 as (tok & S2 & A2 & B2 & G2).
    simpl in A1, B1. exists lab, tok, (ahead mid2).
    split; [now rewrite A1, A2|].
    split; [now apply spells_label|]. split; [now apply spells_token|].
    rewrite (passed_moves mid mid2 tok B2). now rewrite B2, B1.
  - intros (lab & tok & post & -> & L & T & ->).
    exists (mk_state (rev lab ++ rev pre) (tok ++ post) None). split.
    + apply (plain_matches _ (plain_label with_dot)). exists lab.
      split; [now apply spells_label|]. unfold step; simpl. auto.
    + exists (mk_state (rev tok ++ rev lab ++ rev pre) post None). split.
      * apply (plain_matches _ plain_token). exists tok.
        split; [now apply spells_token|]. unfold step; simpl. auto.
      * simpl. f_equal. f_equal. symmetry. now apply passed_moves.
Qed.

Lemma pid_search_none (with_dot : bool) (text : str) :
  re_search (pid_re with_dot) text = None
  <-> forall pre tok post, ~ pid_occurrence with_dot text pre tok post.
Proof.
  rewrite re_search_none. split.
  - intros H pre tok post (lab & E & L & T).
    apply (H pre (lab ++ tok ++ post)
             (mk_state (rev tok ++ rev lab ++ rev pre) post (Some tok)) E).
    apply pid_matches. exists lab, tok, post. auto.
  - intros H pre post0 st' E M. apply pid_matches in M.
    destruct M as (lab & tok & post & -> & L & T & _).
    apply (H pre tok post). exists lab. auto.
Qed.

Lemma pid_search_some (with_dot : bool) (text : str) (m : match_obj) :
  re_search (pid_re with_dot) text = Some m ->
  exists pre post,
    pid_occurrence with_dot text pre (group m) post
    /\ forall pre' tok' post',
         pid_occurrence with_dot text pre' tok' post' ->
         length pre <= length pre'.
Proof.
  intros H. apply re_search_sound in H.
  destruct H as (pre & st' & (post0 & E & M & ->) & Least).
  apply pid_matches in M. destruct M as (lab & tok & post & -> & L & T & ->).
  exists pre, post. split.
  - exists lab. unfold group, to_match. simpl. auto.
  - intros pre' tok' post' (lab' & E' & L' & T').
    destruct (Nat.le_gt_cases (length pre) (length pre')) as [|Lt]; auto.
    exfalso.
    apply (Least pre' Lt (lab' ++ tok' ++ post')
             (mk_state (rev tok' ++ rev lab' ++ rev pre') post' (Some tok')) E').
    apply pid_matches. exists lab', tok', post'. auto.
Qed.

Lemma token_char_no_space : forall c, token_char c = true -> is_space c = false.
Proof. all_chars. Qed.

Lemma upper_letter_no_space :
  forall c, is_upper (upper_char c) = true -> is_space c = false.
Proof. all_chars. Qed.

(** A token has no white space: trimming it changes nothing. *)
Lemma token_strip (tok : str) : is_token tok -> strip tok = tok.
Proof.
  intros (t1 & p & t2 & -> & _ & F1 & P & F2). apply strip_id.
  rewrite !forallb_app, !andb_true_iff. repeat split.
  - eapply forallb_impl; [|exact F1]. intros c H.
    now rewrite (token_char_no_space _ H).
  - apply forallb_forall. intros c I.
    rewrite upper_letter_no_space; [reflexivity|].
    assert (J : In (upper_char c) (lit "PID")).
    { rewrite <- P. unfold upper. now apply in_map. }
    simpl in J. destruct J as [<-|[<-|[<-|[]]]]; reflexivity.
  - eapply forallb_impl; [|exact F2]. intros c H.
    now rewrite (token_char_no_space _ H).
Qed.

(** C6, as stated, fails: the variant tried first is the one with the
    period after DWG, whether or not a period follows NO, so the code
    answers with the first token where the specification's order of
    variants gives the second. *)
Lemma pid_variant_order :
  extract_pid_identifier two_labels_text = Some (lit "A-PID")
  /\ spec_extract_pid two_labels_text = Some (lit "B-PID")
  /\ extract_pid_identifier two_labels_text <> spec_extract_pid two_labels_text.
Proof. repeat split; vm_compute; congruence. Qed.

Lemma pid_example_any_rest (rest : str) :
  token_ends rest = true ->
  extract_pid_identifier (lit "DWG. NO. ABC-123-PID-01" ++ rest)
  = Some (lit "ABC-123-PID-01").
Proof.
  destruct rest as [|c rest]; [reflexivity|]. simpl token_ends. intros H.
  destruct c as [[] [] [] [] [] [] [] []];
    try (vm_compute in H; discriminate H); vm_compute; reflexivity.
Qed.

(* ================================================================== *)
(** ** The token the search returns *)
(* ================================================================== *)

(** What the last pattern of a sequence is run with. *)
Lemma exec_last (rs : list regex) (r : regex) :
  forall st k res,
    exec (seq (rs ++ [r])) st k = Some res -> exists s, exec r s k = Some res.
Proof.
  induction rs as [|x rs IH]; intros st k res; simpl app.
  - simpl. eauto.
  - assert (E : seq (x :: rs ++ [r]) = Cat x (seq (rs ++ [r])))
      by (destruct rs; reflexivity).
    rewrite E. cbn [exec]. intros H. apply exec_sound in H.
    destruct H as (st' & _ & H). eauto.
Qed.

(** A greedy star before a continuation that cannot fail takes the
    whole run. *)
Lemma exec_rep_star_total (p : ascii -> bool) (k : state -> option state)
    (g : option str) :
  (forall s, k s <> None) ->
  forall a b,
    exists run rest,
      a = run ++ rest /\ forallb p run = true /\ stops p rest
      /\ exec_rep p 0 None k b a g = k (mk_state (rev run ++ b) rest g).
Proof.
  intros T. induction a as [|c a IH]; intros b.
  - exists [], []. repeat split.
  - cbn [exec_rep]. destruct (p c) eqn:P; cbn [andb room pred option_map Nat.eqb].
    + destruct (IH (c :: b)) as (run & rest & -> & F & E & X).
      rewrite X. destruct (k (mk_state (rev run ++ c :: b) rest g)) eqn:K;
        [|now apply T in K].
      exists (c :: run), rest. cbn [app forallb rev]. rewrite P, F.
      rewrite <- app_assoc. cbn [app]. rewrite K. auto.
    + exists [], (c :: a). cbn [app forallb rev stops]. auto.
Qed.

(** An attempt of a search pattern ends where the token characters
    end. *)
Lemma pid_attempt_ends (with_dot : bool) (st st' : state) :
  attempt (pid_re with_dot) false st = Some st' ->
  token_ends (ahead st') = true.
Proof.
  unfold attempt, pid_re. intros H. apply exec_last in H.
  destruct H as [s H]. cbn [exec] in H.
  change token_re
    with (seq ([plus token_char; iword "PID"] ++ [star token_char])) in H.
  apply exec_last in H. destruct H as [s1 H].
  unfold star in H. cbn [exec] in H.
  match type of H with
  | exec_rep _ _ _ ?k _ _ _ = _ =>
      destruct (@exec_rep_star_total token_char k (group1 s1)
                  ltac:(intros x; unfold accept; cbn [andb]; discriminate)
                  (ahead s1) (behind s1))
        as (run & rest & _ & _ & E & X)
  end.
  rewrite X in H. unfold accept in H. cbn [andb] in H. injection H as <-.
  cbn [ahead]. destruct rest as [|c rest]; [reflexivity|].
  cbn [stops] in E. cbn [token_ends]. now rewrite E.
Qed.

(** [re.search] returns the outcome of the attempt at the leftmost
    offset where an attempt succeeds. *)
Lemma search_from_attempt (r : regex) :
  forall a b m,
    search_from r b a = Some m ->
    exists w rest st',
      a = w ++ rest
      /\ attempt r false (mk_state (rev w ++ b) rest None) = Some st'
      /\ m = to_match (mk_state (rev w ++ b) rest None) st'
      /\ forall w' rest',
           a = w' ++ rest' -> length w' < length w ->
           attempt r false (mk_state (rev w' ++ b) rest' None) = None.
Proof.
  induction a as [|c a IH]; intros b m; cbn [search_from].
  - destruct (attempt r false (mk_state b [] None)) as [st'|] eqn:A;
      [|discriminate].
    intros [= <-]. exists [], [], st'. cbn [rev app length].
    repeat split; auto. intros w' rest' _ L. lia.
  - destruct (attempt r false (mk_state b (c :: a) None)) as [st'|] eqn:A.
    + intros [= <-]. exists [], (c :: a), st'. cbn [rev app length].
      repeat split; auto. intros w' rest' _ L. lia.
    + intros H. apply IH in H. destruct H as (w & rest & st' & -> & At & -> & Least).
      exists (c :: w), rest, st'. cbn [rev app]. rewrite <- app_assoc. cbn [app].
      repeat split; auto.
      intros [|x w'] rest' E L.
      * cbn [app] in E. subst rest'. exact A.
      * cbn [app] in E. injection E as <- E. cbn [rev]. rewrite <- app_assoc.
        cbn [app]. apply Least; [exact E|cbn [length] in L; lia].
Qed.

(** The match of a search pattern: the leftmost label with a token, and
    the token whole. *)
Lemma pid_search_exact (with_dot : bool) (text : str) (m : match_obj) :
  re_search (pid_re with_dot) text = Some m ->
  exists pre,
    pid_place with_dot text pre (group m) /\ leftmost_label with_dot text pre.
Proof.
  unfold re_search. intros H. apply search_from_attempt in H.
  destruct H as (pre & rest & st' & -> & A & -> & Least).
  rewrite app_nil_r in A. pose proof (pid_attempt_ends _ _ A) as Ends.
  pose proof (attempt_sound _ _ _ A) as M.
  change (mk_state (rev pre) rest None) with (at_pos pre rest) in M.
  apply pid_matches in M. destruct M as (lab & tok & post & -> & L & T & ->).
  exists pre. split.
  - exists lab, post. unfold group, to_match. cbn. auto.
  - intros pre' tok' post' (lab' & E' & L' & T').
    destruct (Nat.le_gt_cases (length pre) (length pre')) as [|Lt]; auto.
    exfalso.
    pose proof (Least pre' (lab' ++ tok' ++ post') E' Lt) as N.
    rewrite app_nil_r in N.
    eapply attempt_none; [exact N|].
    change (mk_state (rev pre') (lab' ++ tok' ++ post') None)
      with (at_pos pre' (lab' ++ tok' ++ post')).
    apply pid_matches. exists lab', tok', post'. eauto.
Qed.

(** Two runs of a class from the same place are one. *)
Lemma run_unique (p : ascii -> bool) :
  forall a a' r r' : str,
    a ++ r = a' ++ r' -> forallb p a = true -> forallb p a' = true ->
    stops p r -> stops p r' -> a = a' /\ r = r'.
Proof.
  induction a as [|c a IH]; intros [|c' a'] r r' E F F' S S'; cbn in *.
  - auto.
  - subst r. cbn in S. apply andb_true_iff in F'. destruct F' as [P _].
    congruence.
  - subst r'. cbn in S'. apply andb_true_iff in F. destruct F as [P _].
    congruence.
  - injection E as <- E. apply andb_true_iff in F. apply andb_true_iff in F'.
    destruct (IH a' r r' E) as [-> ->]; tauto.
Qed.

Lemma app_same_length (A : Type) :
  forall a a' r r' : list A,
    a ++ r = a' ++ r' -> length a = length a' -> a = a' /\ r = r'.
Proof.
  induction a as [|c a IH]; intros [|c' a'] r r' E L; cbn in *;
    try discriminate; auto.
  injection E as <- E. injection L as L.
  destruct (IH a' r r' E L) as [-> ->]. auto.
Qed.

Lemma upper_length_eq (a : str) (s : string) :
  upper a = lit s -> length a = length (lit s).
Proof. intros E. rewrite <- E. symmetry. apply upper_length. Qed.

Lemma pid_letter_token_char :
  forall c, is_upper (upper_char c) = true -> token_char c = true.
Proof. all_chars. Qed.

Lemma token_all_chars (tok : str) :
  is_token tok -> forallb token_char tok = true.
Proof.
  intros (t1 & p & t2 & -> & _ & F1 & P & F2).
  rewrite !forallb_app, F1, F2, andb_true_r. cbn [andb].
  apply forallb_forall. intros c I. apply pid_letter_token_char.
  assert (J : In (upper_char c) (lit "PID")).
  { rewrite <- P. unfold upper. now apply in_map. }
  cbn in J. destruct J as [<-|[<-|[<-|[]]]]; reflexivity.
Qed.

Lemma token_starts (tok rest : str) :
  is_token tok -> exists c more, tok ++ rest = c :: more /\ token_char c = true.
Proof.
  intros ([|c t1] & p & t2 & -> & N & F1 & _); [contradiction|].
  cbn [forallb] in F1. apply andb_true_iff in F1. destruct F1 as [C _].
  exists c, (t1 ++ (p ++ t2) ++ rest). split; [|exact C].
  cbn [app]. now rewrite <- !app_assoc.
Qed.

Lemma token_stops_space (tok rest : str) :
  is_token tok -> stops is_space (tok ++ rest).
Proof.
  intros T. destruct (token_starts rest T) as (c & more & -> & C).
  cbn. now apply token_char_no_space.
Qed.

Lemma word_stops_space (w : str) (s : string) (rest : str) :
  upper w = lit s -> lit s <> [] ->
  forallb is_upper (lit s) = true -> stops is_space (w ++ rest).
Proof.
  intros E N F. destruct w as [|c w]; [cbn in E; congruence|].
  cbn. apply upper_letter_no_space.
  destruct (lit s) as [|x l]; [contradiction|].
  cbn in E. injection E as <- _. cbn in F. now apply andb_true_iff in F.
Qed.

Lemma token_ends_stops (post : str) :
  token_ends post = true <-> stops token_char post.
Proof.
  destruct post as [|c post]; cbn; [tauto|]. now rewrite negb_true_iff.
Qed.

(** The label and the whole token at a place are determined by the
    place. *)
Lemma pid_place_unique (with_dot : bool) (text pre tok tok' : str) :
  pid_place with_dot text pre tok -> pid_place with_dot text pre tok' ->
  tok = tok'.
Proof.
  intros (lab & post & E & L & T & X) (lab' & post' & E' & L' & T' & X').
  rewrite E in E'. apply app_inv_head in E'.
  destruct L as (dwg & ws1 & no & d2 & ws2 & -> & D & W1 & N & P2 & W2).
  destruct L' as (dwg' & ws1' & no' & d2' & ws2' & -> & D' & W1' & N' & P2' & W2').
  rewrite <- !app_assoc in E'.
  apply app_same_length in E';
    [|now rewrite (@upper_length_eq _ _ D), (@upper_length_eq _ _ D')].
  destruct E' as [_ E']. apply app_inv_head in E'.
  assert (S1 : stops is_space (no ++ d2 ++ ws2 ++ tok ++ post))
    by (apply (@word_stops_space no "NO" _ N); [discriminate|reflexivity]).
  assert (S1' : stops is_space (no' ++ d2' ++ ws2' ++ tok' ++ post'))
    by (apply (@word_stops_space no' "NO" _ N'); [discriminate|reflexivity]).
  destruct (@run_unique is_space _ _ _ _ E' W1 W1' S1 S1') as [_ E1].
  apply app_same_length in E1;
    [|now rewrite (@upper_length_eq _ _ N), (@upper_length_eq _ _ N')].
  destruct E1 as [_ E1].
  assert (E2 : ws2 ++ tok ++ post = ws2' ++ tok' ++ post').
  { assert (NoDot : forall ws t rest r,
              forallb is_space ws = true -> is_token t ->
              ws ++ t ++ rest = dot :: r -> False).
    { intros [|c ws] t rest r W Tk H.
      - destruct (token_starts rest Tk) as (c & more & Ec & C).
        cbn [app] in H. rewrite Ec in H. injection H as -> _. discriminate C.
      - cbn [app] in H. injection H as -> _. discriminate W. }
    destruct P2 as [->| ->], P2' as [->| ->]; cbn [app] in E1.
    - exact E1.
    - exfalso. exact (NoDot ws2 tok post _ W2 T E1).
    - exfalso. symmetry in E1. exact (NoDot ws2' tok' post' _ W2' T' E1).
    - now injection E1. }
  destruct (@run_unique is_space _ _ _ _ E2 W2 W2'
              (token_stops_space post T) (token_stops_space post' T'))
    as [_ E3].
  destruct (@run_unique token_char _ _ _ _ E3 (token_all_chars T)
              (token_all_chars T') (proj1 (token_ends_stops post) X)
              (proj1 (token_ends_stops post') X')) as [E4 _].
  exact E4.
Qed.

Lemma pid_place_occurrence (with_dot : bool) (text pre tok : str) :
  pid_place with_dot text pre tok ->
  exists post, pid_occurrence with_dot text pre tok post.
Proof.
  intros (lab & post & E & L & T & _). exists post, lab. auto.
Qed.

(** One search: what it returns, exactly. *)
Lemma pid_search_iff (with_dot : bool) (text v : str) :
  (exists m, re_search (pid_re with_dot) text = Some m /\ strip (group m) = v)
  <-> exists pre,
        pid_place with_dot text pre v /\ leftmost_label with_dot text pre.
Proof.
  split.
  - intros (m & S & <-). apply pid_search_exact in S.
    destruct S as (pre & P & Least). exists pre.
    pose proof P as (lab & post & _ & _ & T & _).
    rewrite (token_strip T). auto.
  - intros (pre & P & Least).
    destruct (re_search (pid_re with_dot) text) as [m|] eqn:S.
    + exists m. split; [reflexivity|].
      apply pid_search_exact in S. destruct S as (pre0 & P0 & Least0).
      pose proof P0 as (lab0 & post0 & E0 & _ & T0 & _).
      rewrite (token_strip T0).
      destruct (pid_place_occurrence P) as [post O].
      destruct (pid_place_occurrence P0) as [post1 O0].
      pose proof (Least0 _ _ _ O). pose proof (Least _ _ _ O0).
      pose proof P as (lab & post' & E & _).
      assert (pre0 = pre) as ->.
      { rewrite E0 in E. apply app_same_length in E; [tauto|lia]. }
      eapply pid_place_unique; eauto.
    + exfalso. destruct (pid_place_occurrence P) as [post O].
      rewrite pid_search_none in S. exact (S _ _ _ O).
Qed.

(** C6, amended.  [extract_pid_identifier] searches the text, case
    apart, for DWG, a period, optional white space, NO, an optional
    period, optional white space and a token of letters, digits and dashes
    that contains PID after at least one character; when there is no such
    place it searches again for the same without the period after DWG.
    It returns nothing exactly when neither search has a place.  It
    returns [v] exactly when [v] is the whole token (group 1, which
    trimming leaves as it is: all the letters, digits and dashes that
    follow the label) at the leftmost place of the first search, or the
    first search has no place and [v] is the whole token at the leftmost
    place of the second; the whole token at a place is unique.  For a
    text that starts with [DWG. NO. ABC-123-PID-01] and goes on with
    anything but a token character it returns [ABC-123-PID-01]. *)
Theorem pid_identifier_search :
  forall text : str,
    (extract_pid_identifier text = None
     <-> forall with_dot pre tok post,
           ~ pid_occurrence with_dot text pre tok post)
    /\ (forall v,
          extract_pid_identifier text = Some v
          <-> (exists pre,
                  pid_place true text pre v /\ leftmost_label true text pre)
              \/ ((forall pre tok post, ~ pid_occurrence true text pre tok post)
                  /\ exists pre,
                       pid_place false text pre v
                       /\ leftmost_label false text pre))
    /\ (forall with_dot pre tok tok',
          pid_place with_dot text pre tok -> pid_place with_dot text pre tok' ->
          tok = tok')
    /\ (forall rest,
          token_ends rest = true ->
          extract_pid_identifier (lit "DWG. NO. ABC-123-PID-01" ++ rest)
          = Some (lit "ABC-123-PID-01")).
Proof.
  intros text.
  split; [|split; [|split; [intros w p t t'; apply pid_place_unique
                           |apply pid_example_any_rest]]].
  - unfold extract_pid_identifier. rewrite pid_pattern_re, pid_pattern2_re.
    destruct (re_search (pid_re true) text) as [m|] eqn:S1.
    + split; [discriminate|]. intros N. apply pid_search_some in S1.
      destruct S1 as (pre & post & O & _). now apply N in O.
    + destruct (re_search (pid_re false) text) as [m|] eqn:S2.
      * split; [discriminate|]. intros N. apply pid_search_some in S2.
        destruct S2 as (pre & post & O & _). now apply N in O.
      * split; [|reflexivity]. intros _ [|].
        -- now apply pid_search_none.
        -- now apply pid_search_none.
  - intros v. rewrite <- !pid_search_iff, <- pid_search_none.
    unfold extract_pid_identifier. rewrite pid_pattern_re, pid_pattern2_re.
    destruct (re_search (pid_re true) text) as [m|] eqn:S1.
    + split.
      * intros [= <-]. left. eauto.
      * intros [(m' & [= <-] & <-)|[N _]]; [reflexivity|discriminate N].
    + destruct (re_search (pid_re false) text) as [m|] eqn:S2.
      * split.
        -- intros [= <-]. right. eauto.
        -- intros [(m' & N & _)|[_ (m' & [= <-] & <-)]];
             [discriminate N|reflexivity].
      * split; [discriminate|].
        intros [(m' & N & _)|[_ (m' & N & _)]]; discriminate N.
Qed.

(** Normalization on every string: it is idempotent; a first component
    that carries an inch mark is left alone; and when the first component
    has no line break in it, the inch mark is appended exactly when that
    component is purely numeric. *)
Theorem normalize_piping_line_idempotent :
  forall s : str,
    normalize_piping_line (normalize_piping_line s) = normalize_piping_line s
    /\ (In inch (nth 0 (split dash s) []) -> normalize_piping_line s = s)
    /\ (~ In newline (nth 0 (split dash s) []) ->
        normalize_piping_line s
        = if purely_numeric (nth 0 (split dash s) [])
          then join dash ((nth 0 (split dash s) [] ++ [inch])
                          :: tl (split dash s))
          else s).
Proof.
  intros s. split; [apply normalize_idempotent|].
  split; [apply normalize_inch_marked|apply normalize_plain].
Qed.

(** The flattening on every document: it returns when each polygon it
    reads has no vertex or at least three, whatever else is missing (the
    text defaults to the empty string; absent pages, tokens, layouts,
    anchors, segments and polygons count as empty), and raises
    [IndexError] otherwise. *)
Theorem flattening_exact :
  forall doc : Document,
    extract_text_and_layout_from_document doc
    = if polygons_ok doc
      then Ok (get_or (doc_text doc) [],
               flat_map (token_spans (get_or (doc_text doc) []))
                        (doc_tokens doc))
      else Raise IndexError.
Proof.
  intros doc. destruct (polygons_ok doc) eqn:P.
  - now apply extract_layout_ok.
  - now apply extract_layout_raise.
Qed.

(** The flattening of a document with almost nothing in it. *)
Example flattening_sparse :
  extract_text_and_layout_from_document sparse_document = Ok ([], []).
Proof. reflexivity. Qed.

(** The first of two lines that normalize to one identifier is the one
    recorded. *)
Example first_line_recorded :
  extract_piping_line_numbers two_lines_text []
  = [(example_id, (1, lit "6-P-101-CS", None))].
Proof. reflexivity. Qed.

(** Every key of the mapping has exactly four dash-separated components,
    is its own uppercase form and contains no line break. *)
Theorem extracted_keys_four_components :
  forall (text : str) (layout_info : list TextSpan) (k : str),
    In k (dict_keys (extract_piping_line_numbers text layout_info)) ->
    length (split dash k) = 4 /\ upper k = k /\ ~ In newline k.
Proof.
  intros text layout_info k I. apply extract_key_shape in I.
  split; [|split; [now apply key_shape_upper|now apply key_shape_no_newline]].
  apply key_shape_split in I. destruct I as (k1 & k2 & k3 & k4 & -> & _).
  reflexivity.
Qed.

(** The key of the end-to-end example. *)
Lemma extracted_keys_four_components_witness :
  length (split dash example_id) = 4 /\ upper example_id = example_id
  /\ ~ In newline example_id.
Proof.
  apply (extracted_keys_four_components example_text [] example_id).
  vm_compute. left. reflexivity.
Defined.

(** Validation on every uppercase string without a line break: the code
    accepts it exactly when the rule of the specification holds and the
    fourth component is not empty. *)
Theorem validate_piping_line_uppercase :
  forall s : str,
    upper s = s -> ~ In newline s ->
    (validate_piping_line s = true
     <-> spec_valid s /\ nth 3 (split dash s) [] <> []).
Proof. apply validate_uppercase. Qed.

(** The rule on an uppercase string that no pattern matches: a second
    component of digits. *)
Lemma validate_piping_line_uppercase_witness :
  validate_piping_line digit_area_example = true
  <-> spec_valid digit_area_example
      /\ nth 3 (split dash digit_area_example) [] <> [].
Proof.
  apply (@validate_piping_line_uppercase digit_area_example).
  - reflexivity.
  - vm_compute. intuition congruence.
Defined.

(** With a line break at the end the fourth component is still taken
    for alphanumeric: [$] matches before a final newline. *)
Example validate_after_newline :
  validate_piping_line (lit "6-P-101-CS" ++ [newline]) = true.
Proof. reflexivity. Qed.

(* ================================================================== *)
(** ** Lines, records and what further text does to them *)
(* ================================================================== *)

Lemma in_enumerate (A : Type) (l : list A) :
  forall start n a,
    In (n, a) (enumerate start l) ->
    start <= n < start + length l /\ nth_error l (n - start) = Some a.
Proof.
  induction l as [|x l IH]; intros start n a; simpl; [intros []|].
  intros [[= <- <-]|I].
  - rewrite Nat.sub_diag. split; [lia|reflexivity].
  - apply IH in I. destruct I as [L E]. split; [lia|].
    replace (n - start) with (S (n - S start)) by lia. exact E.
Qed.

Lemma enumerate_app (A : Type) (l1 l2 : list A) :
  forall start,
    enumerate start (l1 ++ l2)
    = enumerate start l1 ++ enumerate (start + length l1) l2.
Proof.
  induction l1 as [|x l1 IH]; intros start; simpl.
  - now rewrite Nat.add_0_r.
  - rewrite IH. do 3 f_equal. lia.
Qed.

(** What is recorded for an identifier points into the text: the line
    number lies between 1 and the number of lines of the text, the
    context is the first 100 characters of that line stripped (so never
    longer than 100), and that very line holds a raw match of one of
    the three patterns whose normalized form is the identifier and
    whose coordinates are the recorded ones. *)
Theorem recorded_line_numbers :
  forall (text : str) (layout_info : list TextSpan) (k : str)
         (n : nat) (ctx : str) (coords : option BBox),
    dict_get k (extract_piping_line_numbers text layout_info)
    = Some (n, ctx, coords) ->
    let lines := split newline text in
    1 <= n <= length lines
    /\ ctx = firstn 100 (strip (nth (n - 1) lines []))
    /\ length ctx <= 100
    /\ exists r m,
         In r patterns /\ In m (findall r (nth (n - 1) lines []))
         /\ k = normalize_piping_line (upper (strip m))
         /\ coords = find_coordinates_for_text m text layout_info.
Proof.
  intros text layout_info k n ctx coords G lines.
  rewrite extract_get in G. apply first_seen_in in G.
  unfold candidates in G. apply in_flat_map in G.
  destruct G as ([n' line] & Iline & G).
  unfold line_candidates in G. cbn [fst snd] in G. apply in_map_iff in G.
  destruct G as (m & E & Im). apply filter_In in Im. destruct Im as [Im _].
  unfold line_matches in Im. apply in_flat_map in Im.
  destruct Im as (r & R & Im).
  unfold candidate_of in E. cbn [fst snd] in E.
  pose proof (f_equal fst E) as E1.
  pose proof (f_equal (fun e : event => fst (fst (snd e))) E) as E2.
  pose proof (f_equal (fun e : event => snd (fst (snd e))) E) as E3.
  pose proof (f_equal (fun e : event => snd (snd e)) E) as E4.
  cbn [fst snd] in E1, E2, E3, E4. clear E. subst k n' ctx coords.
  apply in_enumerate in Iline. fold lines in Iline. destruct Iline as [L N].
  assert (Line : nth (n - 1) lines [] = line) by now apply nth_error_nth.
  rewrite Line. split; [lia|]. split; [reflexivity|].
  split; [rewrite length_firstn; lia|].
  exists r, m. auto.
Qed.

(** The record of the end-to-end example: line 1 and its context. *)
Lemma recorded_line_numbers_witness :
  let lines := split newline example_text in
  1 <= 1 <= length lines
  /\ lit "Size 6" ++ [inch] ++ lit "-P-101-CS to reactor"
     = firstn 100 (strip (nth (1 - 1) lines [])).
Proof.
  intros lines.
  destruct (@recorded_line_numbers example_text [] example_id 1
              (lit "Size 6" ++ [inch] ++ lit "-P-101-CS to reactor") None
              ltac:(reflexivity)) as (L & C & _).
  split; [exact L|exact C].
Defined.



Lemma dashes_app (a b : str) : dashes (a ++ b) = dashes a + dashes b.
Proof. unfold dashes. now rewrite filter_app, length_app. Qed.

Lemma dashes_cons_dash (a : str) : dashes (dash :: a) = S (dashes a).
Proof. reflexivity. Qed.

Lemma match_shape_dashes (m : str) : match_shape m -> 3 <= dashes m.
Proof.
  intros (c1 & c2 & c3 & c4 & -> & _).
  rewrite dashes_app, dashes_cons_dash, dashes_app, dashes_cons_dash,
    dashes_app, dashes_cons_dash. lia.
Qed.

Lemma validated_nil : validated [] = [].
Proof. reflexivity. Qed.

(** A text none of whose lines holds three dashes gives no identifier
    at all: the mapping is empty, and the result has [total_found] 0
    and an empty list, whatever the layout; only the drawing number is
    still looked for.  The empty text is such a text. *)
Theorem no_lines_without_three_dashes :
  forall (text : str) (layout_info : list TextSpan),
    (forall line, In line (split newline text) -> dashes line < 3) ->
    extract_piping_line_numbers text layout_info = []
    /\ forall pdf, process_text pdf text layout_info = empty_result pdf text.
Proof.
  intros text layout_info H.
  assert (E : extract_piping_line_numbers text layout_info = []).
  { destruct (extract_piping_line_numbers text layout_info) as [|[k v] d] eqn:D;
      [reflexivity|]. exfalso.
    assert (I : In k (dict_keys (extract_piping_line_numbers text layout_info)))
      by (rewrite D; now left).
    apply extract_key_origin in I.
    destruct I as (line & r & m & Iline & R & M & _).
    pose proof (match_shape_dashes (findall_shape _ _ R M)) as Three.
    apply findall_piece in M. destruct M as (pre & post & ->).
    apply H in Iline. rewrite !dashes_app in Iline. lia. }
  split; [exact E|]. intros pdf. unfold process_text. rewrite E. reflexivity.
Qed.

(** Two lines of two dashes each. *)
Lemma no_lines_without_three_dashes_witness :
  process_text (lit "a.pdf") (lit "P-101-CS" ++ [newline] ++ lit "6-P") []
  = empty_result (lit "a.pdf") (lit "P-101-CS" ++ [newline] ++ lit "6-P").
Proof.
  apply (@no_lines_without_three_dashes
           (lit "P-101-CS" ++ [newline] ++ lit "6-P") []).
  intros line [<-|[<-|[]]]; vm_compute; lia.
Defined.

Lemma split_app_sep (sep : ascii) (a b : str) :
  split sep (a ++ sep :: b) = split sep a ++ split sep b.
Proof.
  induction a as [|c a IH]; simpl.
  - unfold is_char. now rewrite Ascii.eqb_refl.
  - rewrite IH. destruct (is_char sep c); [reflexivity|].
    pose proof (split_not_nil sep a) as N.
    destruct (split sep a); [contradiction|reflexivity].
Qed.

Lemma split_head_prefix (sep : ascii) (s : str) :
  forall q qs, split sep s = q :: qs -> exists post, s = q ++ post.
Proof.
  induction s as [|c s IH]; simpl; intros q qs.
  - intros [= <- _]. now exists [].
  - destruct (is_char sep c).
    + intros [= <- _]. now exists (c :: s).
    + destruct (split sep s) as [|p ps] eqn:E.
      * intros [= <- _]. pose proof (split_not_nil sep s). contradiction.
      * intros [= <- _]. destruct (IH _ _ eq_refl) as [post ->].
        now exists post.
Qed.

(** A part of [split] is a piece of the string. *)
Lemma split_piece (sep : ascii) (s p : str) :
  In p (split sep s) -> exists pre post, s = pre ++ p ++ post.
Proof.
  revert p. induction s as [|c s IH]; simpl; intros p.
  - intros [<-|[]]. now exists [], [].
  - destruct (is_char sep c).
    + intros [<-|I]; [now exists [], (c :: s)|].
      destruct (IH _ I) as (pre & post & ->). now exists (c :: pre), post.
    + pose proof (split_not_nil sep s) as N.
      destruct (split sep s) as [|q qs] eqn:E; [contradiction|].
      intros [<-|I].
      * destruct (split_head_prefix _ _ E) as [post ->].
        now exists [], post.
      * destruct (IH p (or_intror I)) as (pre & post & ->).
        now exists (c :: pre), post.
Qed.

Lemma occurs_within (needle a b pre' : str) :
  occurs_at needle (a ++ b) pre' ->
  length pre' + length needle <= length a ->
  occurs_at needle a pre'.
Proof.
  intros [post E] L.
  exists (firstn (length a - length pre' - length needle) post).
  assert (F : firstn (length a) (a ++ b)
              = firstn (length a) (pre' ++ needle ++ post)) by now rewrite E.
  rewrite firstn_app, Nat.sub_diag, firstn_all in F. simpl in F.
  rewrite app_nil_r in F.
  rewrite firstn_app, (firstn_all2 (n := length a) pre') in F by lia.
  rewrite firstn_app, (firstn_all2 (n := length a - length pre') needle) in F
    by lia.
  exact F.
Qed.

(** The first occurrence in a text is the first occurrence in any
    longer text. *)
Lemma find_app (needle a b pre : str) :
  occurs_at needle a pre -> find needle (a ++ b) = find needle a.
Proof.
  intros O.
  destruct (Z.eq_dec (find needle a) (-1)) as [N|N].
  { exfalso. rewrite find_none in N. exact (N _ O). }
  apply find_from_some in N. destruct N as (p & [post E] & V & Least).
  fold (find needle a) in V. rewrite V. simpl.
  apply find_first.
  - exists (post ++ b). rewrite E. now rewrite <- !app_assoc.
  - intros pre' O'.
    destruct (Nat.le_gt_cases (length p) (length pre')) as [|G]; [assumption|].
    apply Least. apply occurs_within with (b := b); [exact O'|].
    rewrite E, !length_app. lia.
Qed.

Lemma upper_app (a b : str) : upper (a ++ b) = upper a ++ upper b.
Proof. apply map_app. Qed.

Lemma find_coordinates_app (m text more : str) (layout_info : list TextSpan)
    (pre post : str) :
  text = pre ++ m ++ post ->
  find_coordinates_for_text m (text ++ more) layout_info
  = find_coordinates_for_text m text layout_info.
Proof.
  intros E. unfold find_coordinates_for_text.
  rewrite upper_app, (@find_app (upper m) (upper text) (upper more) (upper pre));
    [reflexivity|].
  exists (upper post). rewrite E. now rewrite !upper_app.
Qed.

Lemma line_candidates_app (text more : str) (layout_info : list TextSpan)
    (n : nat) (line : str) :
  In line (split newline text) ->
  line_candidates (text ++ more) layout_info (n, line)
  = line_candidates text layout_info (n, line).
Proof.
  intros I. unfold line_candidates. cbn [fst snd].
  apply map_ext_in. intros m Im. apply filter_In in Im. destruct Im as [Im _].
  unfold line_matches in Im. apply in_flat_map in Im.
  destruct Im as (r & _ & Im). apply findall_piece in Im.
  destruct Im as (p1 & q1 & E1). apply split_piece in I.
  destruct I as (p2 & q2 & E2).
  unfold candidate_of. do 2 f_equal.
  apply find_coordinates_app with (pre := p2 ++ p1) (post := q1 ++ q2).
  rewrite E2, E1. now rewrite <- !app_assoc.
Qed.

Lemma in_enumerate_value (A : Type) (l : list A) (start n : nat) (a : A) :
  In (n, a) (enumerate start l) -> In a l.
Proof.
  intros I. apply in_enumerate in I. destruct I as [_ E].
  eapply nth_error_In; eauto.
Qed.

Lemma first_seen_app (k : str) (a b : list event) (v : info) :
  first_seen k a = Some v -> first_seen k (a ++ b) = Some v.
Proof.
  induction a as [|e a IH]; simpl; [discriminate|].
  destruct (str_eqb k (fst e)); auto.
Qed.

Lemma candidates_app (text more : str) (layout_info : list TextSpan) :
  exists further,
    candidates (text ++ newline :: more) layout_info
    = candidates text layout_info ++ further.
Proof.
  unfold candidates. rewrite split_app_sep, enumerate_app, flat_map_app.
  eexists. f_equal.
  assert (H : forall nl, In nl (enumerate 1 (split newline text)) ->
                         line_candidates (text ++ newline :: more) layout_info nl
                         = line_candidates text layout_info nl).
  { intros [n line] I. apply line_candidates_app.
    eapply in_enumerate_value; eauto. }
  revert H. generalize (enumerate 1 (split newline text)) as ls.
  induction ls as [|x ls IH]; intros H; simpl; [reflexivity|].
  rewrite H by now left. f_equal. apply IH. intros nl I. apply H. now right.
Qed.

(** Text added after a line break changes no record already found: an
    identifier recorded for [text] keeps its line number, its context
    and its coordinates in [text] followed by a newline and anything
    else, with the same layout. *)
Theorem earlier_records_kept :
  forall (text more : str) (layout_info : list TextSpan) (k : str) (v : info),
    dict_get k (extract_piping_line_numbers text layout_info) = Some v ->
    dict_get k (extract_piping_line_numbers (text ++ newline :: more) layout_info)
    = Some v.
Proof.
  intros text more layout_info k v. rewrite !extract_get.
  destruct (candidates_app text more layout_info) as [further ->].
  apply first_seen_app.
Qed.

(** The example followed by a line that names the same identifier again. *)
Lemma earlier_records_kept_witness :
  dict_get example_id
    (extract_piping_line_numbers
       (example_text ++ newline :: lit "Spare 4-P-101-CS and 6-P-101-CS") [])
  = Some (1, lit "Size 6" ++ [inch] ++ lit "-P-101-CS to reactor", None).
Proof.
  apply (@earlier_records_kept example_text
           (lit "Spare 4-P-101-CS and 6-P-101-CS") [] example_id).
  reflexivity.
Defined.


(* ================================================================== *)
(** ** The private key of the environment *)
(* ================================================================== *)

Lemma unescape_nil : unescape [] = [].
Proof. reflexivity. Qed.

Lemma unescape_escape (s : str) :
  unescape (backslash :: "n"%char :: s) = newline :: unescape s.
Proof. reflexivity. Qed.

Lemma unescape_other (c : ascii) (s : str) :
  starts_with escaped_newline (c :: s) = false ->
  unescape (c :: s) = c :: unescape s.
Proof.
  intros H. unfold unescape, replace, escaped_newline in *.
  simpl replace_from. simpl in H. now rewrite H.
Qed.

(** The three shapes of a string for [replace]. *)
Lemma unescape_cases (s : str) :
  s = []
  \/ (exists s', s = backslash :: "n"%char :: s')
  \/ (exists c s', s = c :: s' /\ starts_with escaped_newline s = false).
Proof.
  destruct s as [|c s]; auto. right.
  destruct (starts_with escaped_newline (c :: s)) eqn:E.
  - left. apply starts_with_spec in E. destruct E as [post E].
    injection E as -> ->. eauto.
  - right. eauto.
Qed.

Lemma unescape_no_escape_len (n : nat) :
  forall s, length s <= n ->
    (forall pre, ~ occurs_at escaped_newline (unescape s) pre)
    /\ (forall rest, unescape s = "n"%char :: rest ->
                     exists s', s = "n"%char :: s')
    /\ length (unescape s) <= length s.
Proof.
  induction n as [|n IH]; intros s L.
  - destruct s; [|simpl in L; lia]. rewrite unescape_nil.
    split; [|split; [discriminate|simpl; lia]].
    intros [|x pre] [post E]; discriminate.
  - destruct (unescape_cases s) as [->|[[s' ->]|(c & s' & -> & N)]].
    + rewrite unescape_nil. split; [|split; [discriminate|simpl; lia]].
      intros [|x pre] [post E]; discriminate.
    + rewrite unescape_escape. simpl in L.
      destruct (IH s' ltac:(lia)) as (O & _ & Len).
      split; [|split].
      * intros [|x pre] [post E]; [discriminate|].
        injection E as _ E. apply (O pre). now exists post.
      * discriminate.
      * simpl. lia.
    + rewrite (unescape_other _ _ N). simpl in L.
      destruct (IH s' ltac:(lia)) as (O & Hd & Len).
      split; [|split].
      * intros [|x pre] [post E].
        -- simpl in E. injection E as -> E.
           destruct (Hd _ E) as [s'' ->]. discriminate N.
        -- injection E as _ E. apply (O pre). now exists post.
      * intros rest [= -> _]. eauto.
      * simpl. lia.
Qed.

Lemma occurs_in_slice (needle s : str) (a b : Z) (pre : str) :
  occurs_at needle (slice s a b) pre -> exists pre', occurs_at needle s pre'.
Proof.
  unfold slice. intros [post E].
  set (i := Z.to_nat (clamp_index (len s) a)) in *.
  set (k := Z.to_nat (clamp_index (len s) b - clamp_index (len s) a)) in *.
  exists (firstn i s ++ pre), (post ++ skipn k (skipn i s)).
  rewrite <- (firstn_skipn i s) at 1.
  rewrite <- (firstn_skipn k (skipn i s)) at 1.
  rewrite E. now rewrite <- !app_assoc.
Qed.

Lemma slice_length (s : str) (a b : Z) : length (slice s a b) <= length s.
Proof.
  unfold slice. rewrite length_firstn, length_skipn. lia.
Qed.

Lemma no_escape_singleton (c : ascii) :
  c <> "n"%char -> c <> backslash -> starts_with escaped_newline [c] = false.
Proof.
  intros N B. unfold escaped_newline. cbn [starts_with]. apply andb_false_r.
Qed.

Lemma no_escape_append (x c : ascii) (s : str) :
  c <> "n"%char ->
  starts_with escaped_newline (x :: s) = false ->
  starts_with escaped_newline (x :: s ++ [c]) = false.
Proof.
  intros N. unfold escaped_newline. cbn [starts_with app].
  destruct (Ascii.eqb backslash x); auto.
  destruct s as [|y s]; cbn [starts_with app andb]; auto.
  intros _. destruct (Ascii.eqb "n" c) eqn:E; auto.
  apply Ascii.eqb_eq in E. congruence.
Qed.

Lemma unescape_append (n : nat) :
  forall s c, length s <= n -> c <> "n"%char -> c <> backslash ->
    unescape (s ++ [c]) = unescape s ++ [c].
Proof.
  induction n as [|n IH]; intros s c L N B.
  - destruct s; [|simpl in L; lia]. simpl app.
    now rewrite unescape_other, unescape_nil by now apply no_escape_singleton.
  - destruct (unescape_cases s) as [->|[[s' ->]|(x & s' & -> & Nx)]].
    + simpl app.
      now rewrite unescape_other, unescape_nil by now apply no_escape_singleton.
    + simpl app. rewrite !unescape_escape. simpl in L.
      rewrite IH by (auto; lia). reflexivity.
    + simpl app. simpl in L.
      rewrite unescape_other by now apply no_escape_append.
      rewrite IH by (auto; lia). now rewrite (unescape_other _ _ Nx).
Qed.

Lemma ends_with_last (c : ascii) (s : str) : ends_with [c] (s ++ [c]) = true.
Proof.
  unfold ends_with. rewrite rev_app_distr. simpl. now rewrite Ascii.eqb_refl.
Qed.

Lemma slice_inner (c d : ascii) (s : str) :
  slice (c :: s ++ [d]) 1 (-1) = s.
Proof.
  unfold slice, clamp_index, len. simpl length. rewrite length_app. simpl length.
  replace (1 <? 0)%Z with false by reflexivity.
  replace (-1 <? 0)%Z with true by reflexivity.
  rewrite Z.min_l by lia. rewrite Z.max_r by lia.
  replace (Z.to_nat 1) with 1 by reflexivity. simpl skipn.
  replace (Z.to_nat (-1 + Z.of_nat (S (length s + 1)) - 1)) with (length s) by lia.
  rewrite firstn_app, Nat.sub_diag, firstn_all. simpl. apply app_nil_r.
Qed.

(** The private key read from the environment (lines 83-88): after the
    cleaning no backslash followed by [n] is left anywhere in the key,
    and the key is never longer than the raw value; a raw value between
    two double quotes loses exactly those two quotes, its escaped
    newlines replaced. *)
Theorem clean_private_key_unescaped :
  (forall raw : str,
     find escaped_newline (Extractor.clean_private_key raw) = (-1)%Z
     /\ length (Extractor.clean_private_key raw) <= length raw)
  /\ (forall key : str,
        Extractor.clean_private_key (inch :: key ++ [inch])
        = replace escaped_newline [newline] key).
Proof.
  split.
  - intros raw. unfold Extractor.clean_private_key.
    fold escaped_newline. fold (unescape raw).
    destruct (@unescape_no_escape_len _ raw (le_n _)) as (O & _ & L).
    destruct (starts_with [inch] (unescape raw) && ends_with [inch] (unescape raw)).
    + split.
      * apply find_none. intros pre H. apply occurs_in_slice in H.
        destruct H as [pre' H]. exact (O _ H).
      * pose proof (slice_length (unescape raw) 1 (-1)). lia.
    + split; [now apply find_none|exact L].
  - intros key. unfold Extractor.clean_private_key.
    fold escaped_newline. fold (unescape (inch :: key ++ [inch])). fold (unescape key).
    rewrite unescape_other by reflexivity.
    rewrite (@unescape_append (length key)); auto; try (intros H; discriminate H).
    change (inch :: unescape key ++ [inch])
      with ((inch :: unescape key) ++ [inch]) at 2.
    rewrite ends_with_last. cbn [starts_with]. rewrite Ascii.eqb_refl.
    cbn [andb]. apply slice_inner.
Qed.

(* ================================================================== *)
(** ** Paths and the default output *)
(* ================================================================== *)

Lemma rfind_from_app (c : ascii) (a b : str) :
  forall i last,
    rfind_from i c (a ++ b) last
    = rfind_from (i + len a) c b (rfind_from i c a last).
Proof.
  induction a as [|x a IH]; intros i last.
  - simpl. unfold len. simpl. now rewrite Z.add_0_r.
  - simpl. rewrite IH. f_equal. unfold len. simpl length. lia.
Qed.

Lemma rfind_from_free (c : ascii) (s : str) :
  forall i last, free c s = true -> rfind_from i c s last = last.
Proof.
  induction s as [|x s IH]; intros i last; simpl; [reflexivity|].
  rewrite andb_true_iff, negb_true_iff. intros [E F].
  rewrite IH by assumption. unfold is_char in E.
  rewrite Ascii.eqb_sym in E. now rewrite E.
Qed.

Lemma rfind_free (c : ascii) (s : str) :
  free c s = true -> rfind c s = (-1)%Z.
Proof. apply rfind_from_free. Qed.

Lemma rfind_last (c : ascii) (pre post : str) :
  free c post = true -> rfind c (pre ++ c :: post) = len pre.
Proof.
  intros F. unfold rfind. rewrite rfind_from_app. simpl.
  rewrite Ascii.eqb_refl. now rewrite rfind_from_free.
Qed.

(** The string after its last [c], or all of it. *)
Lemma rfind_cases (c : ascii) (s : str) :
  (free c s = true /\ rfind c s = (-1)%Z)
  \/ (exists pre post,
        s = pre ++ c :: post /\ free c post = true /\ rfind c s = len pre).
Proof.
  induction s as [|x s IH] using rev_ind.
  - left. split; reflexivity.
  - destruct (is_char c x) eqn:E.
    + apply is_char_eq in E. subst x. right. exists s, [].
      split; [reflexivity|]. split; [reflexivity|]. now apply rfind_last.
    + destruct IH as [[F R]|(pre & post & -> & F & R)].
      * left. assert (F' : free c (s ++ [x]) = true).
        { rewrite free_app, F. simpl. now rewrite E. }
        split; [exact F'|now apply rfind_free].
      * right. exists pre, (post ++ [x]).
        assert (F' : free c (post ++ [x]) = true).
        { rewrite free_app, F. simpl. now rewrite E. }
        split; [now rewrite <- app_assoc|]. split; [exact F'|].
        rewrite <- app_assoc. simpl. now apply rfind_last.
Qed.

Lemma slice_from (pre post : str) :
  slice (pre ++ post) (len pre) (len (pre ++ post)) = post.
Proof.
  unfold slice, clamp_index, len. rewrite length_app.
  replace (Z.of_nat (length pre) <? 0)%Z with false by (symmetry; apply Z.ltb_ge; lia).
  replace (Z.of_nat (length pre + length post) <? 0)%Z with false
    by (symmetry; apply Z.ltb_ge; lia).
  rewrite !Z.min_l by lia.
  rewrite Nat2Z.id. rewrite skipn_app, Nat.sub_diag, skipn_all. simpl.
  apply firstn_all2. lia.
Qed.

Lemma slice_upto (pre post : str) :
  slice (pre ++ post) 0 (len pre) = pre.
Proof.
  unfold slice, clamp_index, len. rewrite length_app.
  replace (0 <? 0)%Z with false by reflexivity.
  replace (Z.of_nat (length pre) <? 0)%Z with false by (symmetry; apply Z.ltb_ge; lia).
  rewrite !Z.min_l by lia. simpl skipn.
  rewrite Z.sub_0_r, Nat2Z.id.
  rewrite firstn_app, Nat.sub_diag, firstn_all. simpl. apply app_nil_r.
Qed.

Lemma slice_all (s : str) : slice s 0 (len s) = s.
Proof.
  pose proof (slice_from [] s) as H. simpl in H. exact H.
Qed.

(** [basename] is what follows the last slash. *)
Lemma basename_free (p : str) : free slash p = true -> basename p = p.
Proof.
  intros F. unfold basename. rewrite rfind_free by assumption. apply slice_all.
Qed.

Lemma basename_last (dir name : str) :
  free slash name = true -> basename (dir ++ slash :: name) = name.
Proof.
  intros F. unfold basename. rewrite rfind_last by assumption.
  replace (dir ++ slash :: name) with ((dir ++ [slash]) ++ name)
    by now rewrite <- app_assoc.
  replace (len dir + 1)%Z with (len (dir ++ [slash])).
  - apply slice_from.
  - unfold len. rewrite length_app. simpl. lia.
Qed.

Lemma basename_no_slash (p : str) : free slash (basename p) = true.
Proof.
  destruct (rfind_cases slash p) as [[F _]|(pre & post & -> & F & _)].
  - now rewrite basename_free.
  - now rewrite basename_last.
Qed.

Lemma free_firstn_skipn (c : ascii) (n : nat) (s : str) :
  free c s = true ->
  free c (firstn n s) = true /\ free c (skipn n s) = true.
Proof.
  intros F. rewrite <- (firstn_skipn n s), free_app in F.
  now apply andb_true_iff in F.
Qed.

Lemma free_slice (c : ascii) (s : str) (a b : Z) :
  free c s = true -> free c (slice s a b) = true.
Proof.
  intros F. unfold slice. apply free_firstn_skipn. now apply free_firstn_skipn.
Qed.

Lemma splitext_root_free (c : ascii) (p : str) :
  free c p = true -> free c (fst (splitext p)) = true.
Proof.
  intros F. unfold splitext.
  destruct (_ && _); simpl; auto. now apply free_slice.
Qed.

(** The extension of a name without slash: what follows its last dot,
    when something other than a dot comes before. *)
Lemma splitext_name (stem ext : str) :
  free slash stem = true -> free slash ext = true -> free dot ext = true ->
  existsb (fun c => negb (Ascii.eqb c dot)) stem = true ->
  splitext (stem ++ dot :: ext) = (stem, dot :: ext).
Proof.
  intros Fs Fe Fd NE. unfold splitext.
  assert (F : free slash (stem ++ dot :: ext) = true).
  { rewrite free_app, Fs. simpl. now rewrite Fe. }
  rewrite rfind_free, rfind_last by assumption.
  replace (-1 + 1)%Z with 0%Z by reflexivity.
  rewrite slice_upto, NE.
  replace (-1 <? len stem)%Z with true by (symmetry; apply Z.ltb_lt; unfold len; lia).
  simpl. f_equal. apply slice_from.
Qed.

(** The default output name (lines 400-403) holds no slash: the result
    goes to the working directory, and the directory of the PDF plays
    no part in its name. *)
Theorem default_output_bare_name :
  forall pdf_path : str,
    free slash (Extractor.default_output pdf_path) = true
    /\ forall dir name, free slash name = true ->
         Extractor.default_output (dir ++ slash :: name)
         = Extractor.default_output name.
Proof.
  intros pdf_path. split.
  - unfold Extractor.default_output. rewrite free_app.
    rewrite splitext_root_free by apply basename_no_slash. reflexivity.
  - intros dir name F. unfold Extractor.default_output.
    now rewrite basename_last, basename_free.
Qed.

(** For a PDF named [stem.ext] in any directory, where [stem] has a
    character other than a dot and [ext] has no dot, the default output
    is [stem_piping_lines.json]: only the last extension is dropped. *)
Theorem default_output_stem :
  forall dir stem ext : str,
    dir = [] \/ (exists d, dir = d ++ [slash]) ->
    free slash stem = true -> free slash ext = true -> free dot ext = true ->
    existsb (fun c => negb (Ascii.eqb c dot)) stem = true ->
    Extractor.default_output (dir ++ stem ++ dot :: ext)
    = stem ++ lit "_piping_lines.json".
Proof.
  intros dir stem ext D Fs Fe Fd NE. unfold Extractor.default_output.
  assert (F : free slash (stem ++ dot :: ext) = true).
  { rewrite free_app, Fs. simpl. now rewrite Fe. }
  assert (B : basename (dir ++ stem ++ dot :: ext) = stem ++ dot :: ext).
  { destruct D as [->|[d ->]].
    - now apply basename_free.
    - rewrite <- app_assoc. simpl. now apply basename_last. }
  rewrite B, splitext_name by assumption. reflexivity.
Qed.

(** A name with two dots in a directory with a dot. *)
Lemma default_output_stem_witness :
  Extractor.default_output (lit "drawings/unit.7/P-101.rev2.pdf")
  = lit "P-101.rev2_piping_lines.json".
Proof.
  apply (@default_output_stem (lit "drawings/unit.7/") (lit "P-101.rev2") (lit "pdf"));
    try reflexivity.
  right. exists (lit "drawings/unit.7"). reflexivity.
Defined.

(* ================================================================== *)
(** ** The environment and the credentials *)
(* ================================================================== *)

Lemma missing_vars_cases (self : Extractor.PipingLineExtractor) :
  Extractor.missing_vars self
  = (if truthy_str (Extractor.project_id self) then []
     else [lit "GOOGLE_CLOUD_PROJECT_ID"])
    ++ (if truthy_str (Extractor.processor_id self) then []
        else [lit "DOCUMENT_AI_PROCESSOR_ID"]).
Proof.
  unfold Extractor.missing_vars. cbn [fold_left fst snd].
  destruct (truthy_str (Extractor.project_id self)),
           (truthy_str (Extractor.processor_id self)); reflexivity.
Qed.

Lemma validate_environment_iff (self : Extractor.PipingLineExtractor) :
  Extractor.validate_environment_variables self
  = truthy_str (Extractor.project_id self)
    && truthy_str (Extractor.processor_id self).
Proof.
  unfold Extractor.validate_environment_variables.
  rewrite missing_vars_cases.
  destruct (truthy_str (Extractor.project_id self)),
           (truthy_str (Extractor.processor_id self)); reflexivity.
Qed.

(** The health endpoint and the extractor agree on the environment:
    [health_check] reports OK exactly when
    [validate_environment_variables] of a fresh extractor returns true,
    and otherwise lists, after [Missing: ] and separated by a comma and a
    space, exactly the names the extractor finds missing, project before
    processor.  The validation succeeds exactly when both
    GOOGLE_CLOUD_PROJECT_ID and DOCUMENT_AI_PROCESSOR_ID are set to a
    non-empty value. *)
Theorem health_agrees_with_validation :
  forall w : World,
    let self := Extractor.init w in
    Server.health_check w
    = (if Extractor.validate_environment_variables self then lit "OK"
       else lit "Missing: "
            ++ join_str (lit ", ") (Extractor.missing_vars self))
    /\ (Extractor.validate_environment_variables self = true
        <-> (exists p, os_getenv w (lit "GOOGLE_CLOUD_PROJECT_ID") = Some p
                       /\ p <> [])
            /\ (exists q, os_getenv w (lit "DOCUMENT_AI_PROCESSOR_ID") = Some q
                          /\ q <> [])).
Proof.
  intros w self. split.
  - unfold Extractor.validate_environment_variables.
    rewrite missing_vars_cases. unfold Server.health_check, self, Extractor.init.
    cbn [fold_left Extractor.project_id Extractor.processor_id].
    destruct (truthy_str (os_getenv w (lit "GOOGLE_CLOUD_PROJECT_ID"))),
             (truthy_str (os_getenv w (lit "DOCUMENT_AI_PROCESSOR_ID")));
      reflexivity.
  - rewrite validate_environment_iff, andb_true_iff.
    unfold self, Extractor.init. cbn [Extractor.project_id Extractor.processor_id].
    assert (T : forall v, truthy_str v = true <-> exists p, v = Some p /\ p <> []).
    { intros v. split.
      - destruct v as [[|c v]|]; try discriminate. intros _.
        exists (c :: v). split; [reflexivity|discriminate].
      - intros (p & -> & N). destruct p; [contradiction|reflexivity]. }
    now rewrite !T.
Qed.

Lemma get_client_run (S : Type) (w : World)
    (self : Extractor.PipingLineExtractor) (s : S) :
  Extractor.get_client w self s
  = ([], s,
     if env_credentials_set w then
       match from_service_account_info w (Extractor.info_from_environment w) with
       | None => Ret {| client_credentials :=
                          FromInfo (Extractor.info_from_environment w);
                        api_endpoint := endpoint_of self |}
       | Some _ => application_default w self
       end
     else if key_file_usable w self then
       match from_service_account_file w
               (get_or (Extractor.service_account_file self) []) with
       | None => Ret {| client_credentials :=
                          FromFile (get_or (Extractor.service_account_file self) []);
                        api_endpoint := endpoint_of self |}
       | Some e => Exn e
       end
     else application_default w self).
Proof.
  unfold Extractor.get_client, application_default.
  fold (env_credentials_set w). fold (key_file_usable w self).
  fold (endpoint_of self).
  destruct (env_credentials_set w).
  - unfold try_except, and_then, check.
    destruct (from_service_account_info w (Extractor.info_from_environment w));
      [|reflexivity].
    cbv [raise]. destruct (default_credentials w); reflexivity.
  - destruct (key_file_usable w self).
    + unfold and_then, check.
      destruct (from_service_account_file w _); reflexivity.
    + unfold and_then, check. destruct (default_credentials w); reflexivity.
Qed.

(** Which credentials [get_client] ends up with.  Whenever it returns
    a client, nothing was done to the outside and the endpoint is the
    location followed by [-documentai.googleapis.com].  The client
    carries the credentials of the environment only if the eight
    GOOGLE_SERVICE_ACCOUNT variables are all set and the library took
    them; those of the key file only if one of the eight is unset or
    empty and GOOGLE_APPLICATION_CREDENTIALS names an existing file; and
    the default credentials if the key of the environment was rejected
    or if neither the eight variables nor a usable key file are there.
    So after a rejected key of the environment the key file is never
    tried, even when it exists. *)
Theorem get_client_credentials :
  forall (S : Type) (w : World) (self : Extractor.PipingLineExtractor)
         (s : S) (c : client),
    outcome (Extractor.get_client w self s) = Ret c ->
    trace (Extractor.get_client w self s) = []
    /\ api_endpoint c
       = Extractor.location self ++ lit "-documentai.googleapis.com"
    /\ match client_credentials c with
       | FromInfo i =>
           env_credentials_set w = true
           /\ i = Extractor.info_from_environment w
           /\ from_service_account_info w i = None
       | FromFile path =>
           env_credentials_set w = false
           /\ Extractor.service_account_file self = Some path
           /\ path <> []
           /\ os_path_exists w path = true
           /\ from_service_account_file w path = None
       | ApplicationDefault =>
           default_credentials w = None
           /\ (if env_credentials_set w
               then from_service_account_info w
                      (Extractor.info_from_environment w) <> None
               else key_file_usable w self = false)
       end.
Proof.
  intros S w self s c. rewrite get_client_run. unfold trace, outcome. simpl.
  intros H. split; [reflexivity|].
  unfold application_default in H.
  destruct (env_credentials_set w) eqn:E.
  - destruct (from_service_account_info w _) eqn:I.
    + destruct (default_credentials w) eqn:D; [discriminate|].
      injection H as <-. simpl. repeat split; auto. discriminate.
    + injection H as <-. simpl. auto.
  - destruct (key_file_usable w self) eqn:K.
    + destruct (from_service_account_file w _) eqn:F; [discriminate|].
      injection H as <-. simpl. split; [reflexivity|].
      unfold key_file_usable in K. apply andb_true_iff in K. destruct K as [T X].
      destruct (Extractor.service_account_file self) as [[|x p]|];
        try discriminate T.
      simpl in *. repeat split; auto. discriminate.
    + destruct (default_credentials w) eqn:D; [discriminate|].
      injection H as <-. simpl. auto.
Qed.

(** With the eight variables set to a key that is rejected, the client
    is that of the default credentials although a key file is there. *)
Lemma get_client_credentials_witness :
  let w := rejected_key_world in
  let c := {| client_credentials := ApplicationDefault;
              api_endpoint := lit "eu-documentai.googleapis.com" |} in
  outcome (Extractor.get_client w (Extractor.init w) tt) = Ret c
  /\ key_file_usable w (Extractor.init w) = true
  /\ from_service_account_info w (Extractor.info_from_environment w) <> None.
Proof.
  intros w c. split; [reflexivity|]. split; [reflexivity|].
  pose proof (@get_client_credentials unit w (Extractor.init w) tt c
                ltac:(reflexivity)) as H.
  simpl in H. destruct H as (_ & _ & _ & I). exact I.
Defined.

(* ================================================================== *)
(** ** The command line *)
(* ================================================================== *)

(** One run of [process_pdf_with_document_ai]. *)
Lemma document_ai_run (S : Type) (w : World)
    (self : Extractor.PipingLineExtractor) (pdf_path : str) (s : S) :
  Extractor.process_pdf_with_document_ai w self pdf_path s
  = match outcome (Extractor.get_client w self s) with
    | Exn e => ([], s, Exn e)
    | Ret c =>
        match read_bytes w pdf_path with
        | Exn e => ([], s, Exn e)
        | Ret content =>
            ([Requested (request_of self c content)], s,
             process_document w (request_of self c content))
        end
    end.
Proof.
  unfold Extractor.process_pdf_with_document_ai.
  unfold and_then at 1. unfold outcome.
  destruct (Extractor.get_client w self s) as [[t s'] r] eqn:G.
  rewrite get_client_run in G. injection G as <- <- _. cbn [snd].
  destruct r as [c|e]; [|reflexivity].
  unfold and_then, of_result, emit. fold (request_of self c).
  destruct (read_bytes w pdf_path) as [content|e]; [|reflexivity].
  fold (request_of self c content).
  destruct (process_document w (request_of self c content)); reflexivity.
Qed.

(** One run of the whole method, step by step. *)
Lemma cli_run_eq (S : Type) (w : World) (self : Extractor.PipingLineExtractor)
    (pdf_path : str) (output_json_path : option str) (s : S) :
  Extractor.process_pdf_to_piping_lines w self pdf_path output_json_path s
  = let out := get_or output_json_path (Extractor.default_output pdf_path) in
    if negb (os_path_exists w pdf_path) then
      ([], s, Exn (FileNotFoundError (lit "PDF file not found: " ++ pdf_path)))
    else if negb (Extractor.validate_environment_variables self) then
      ([], s, Exn (ValueError (lit "Missing required environment variables")))
    else
      match outcome (Extractor.get_client w self s) with
      | Exn e => ([], s, Exn e)
      | Ret c =>
          match read_bytes w pdf_path with
          | Exn e => ([], s, Exn e)
          | Ret content =>
              let rq := request_of self c content in
              match process_document w rq with
              | Exn e => ([Requested rq], s, Exn e)
              | Ret doc =>
                  match process_pdf_to_piping_lines pdf_path doc with
                  | Raise e => ([Requested rq], s, Exn (Core e))
                  | Ok r =>
                      match json_dump w out with
                      | Some e => ([Requested rq], s, Exn e)
                      | None =>
                          ([Requested rq; Written out (cli_output r)], s, Ret out)
                      end
                  end
              end
          end
      end.
Proof.
  unfold Extractor.process_pdf_to_piping_lines.
  destruct (os_path_exists w pdf_path); cbn [negb]; [|reflexivity].
  destruct (Extractor.validate_environment_variables self); cbn [negb];
    [|reflexivity].
  replace (match output_json_path with
           | Some p => p
           | None => Extractor.default_output pdf_path
           end)
    with (get_or output_json_path (Extractor.default_output pdf_path))
    by now destruct output_json_path.
  cbv zeta. unfold and_then at 1. rewrite document_ai_run.
  destruct (outcome (Extractor.get_client w self s)) as [c|e]; [|reflexivity].
  destruct (read_bytes w pdf_path) as [content|e]; [|reflexivity].
  destruct (process_document w (request_of self c content)) as [doc|e];
    [|reflexivity].
  unfold process_pdf_to_piping_lines, bind.
  unfold and_then, of_exc, Extractor.dump, and_then, check, emit, ret, raise.
  destruct (extract_text_and_layout_from_document doc) as [tl|e];
    [|reflexivity].
  unfold cli_output.
  destruct (json_dump w _); reflexivity.
Qed.

(** The runs of the whole method: it stops before any effect, or after
    its request, or it writes the result of the service's document. *)
Lemma cli_run (S : Type) (w : World) (self : Extractor.PipingLineExtractor)
    (pdf_path : str) (output_json_path : option str) (s : S) :
  let run :=
    Extractor.process_pdf_to_piping_lines w self pdf_path output_json_path s in
  let out := get_or output_json_path (Extractor.default_output pdf_path) in
  (exists e, run = ([], s, Exn e))
  \/ (os_path_exists w pdf_path = true
      /\ Extractor.validate_environment_variables self = true
      /\ exists c content,
           outcome (Extractor.get_client w self s) = Ret c
           /\ read_bytes w pdf_path = Ret content
           /\ ((exists e, run = ([Requested (request_of self c content)], s, Exn e))
               \/ (exists doc r,
                     process_document w (request_of self c content) = Ret doc
                     /\ process_pdf_to_piping_lines pdf_path doc = Ok r
                     /\ json_dump w out = None
                     /\ run = ([Requested (request_of self c content);
                                Written out (cli_output r)], s, Ret out)))).
Proof.
  intros run out. unfold run. rewrite cli_run_eq. cbv zeta. fold out.
  destruct (os_path_exists w pdf_path) eqn:X; cbn [negb]; [|left; eauto].
  destruct (Extractor.validate_environment_variables self) eqn:V; cbn [negb];
    [|left; eauto].
  destruct (outcome (Extractor.get_client w self s)) as [c|e] eqn:C;
    [|left; eauto].
  destruct (read_bytes w pdf_path) as [content|e] eqn:R; [|left; eauto].
  right. split; [reflexivity|]. split; [reflexivity|].
  exists c, content. split; [reflexivity|]. split; [reflexivity|].
  destruct (process_document w (request_of self c content)) as [doc|e] eqn:P;
    [|left; eauto].
  destruct (process_pdf_to_piping_lines pdf_path doc) as [r|e] eqn:F;
    [|left; eauto].
  destruct (json_dump w out) as [e|] eqn:J; [left; eauto|].
  right. exists doc, r. repeat split; first [assumption|reflexivity].
Qed.

Lemma get_client_endpoint (S : Type) (w : World)
    (self : Extractor.PipingLineExtractor) (s : S) (c : client) :
  outcome (Extractor.get_client w self s) = Ret c ->
  api_endpoint c = endpoint_of self.
Proof.
  rewrite get_client_run. unfold outcome, application_default. cbn [snd].
  destruct (env_credentials_set w).
  - destruct (from_service_account_info w _).
    + destruct (default_credentials w); [discriminate|]. now intros [= <-].
    + now intros [= <-].
  - destruct (key_file_usable w self).
    + destruct (from_service_account_file w _); [discriminate|]. now intros [= <-].
    + destruct (default_credentials w); [discriminate|]. now intros [= <-].
Qed.

(** What [process_pdf_to_piping_lines] asks of the document service.
    A request is sent only for a PDF that exists and with both required
    variables set; the project and the processor of the request are not
    empty; the endpoint of its client is in the region of the
    processor's name; its client is the one [get_client] returns; its
    content is what was read from the PDF; and there is at most one
    request in a run. *)
Theorem request_well_formed :
  forall (S : Type) (w : World) (self : Extractor.PipingLineExtractor)
         (pdf_path : str) (output_json_path : option str) (s : S)
         (rq : request),
    let run :=
      Extractor.process_pdf_to_piping_lines w self pdf_path output_json_path s in
    In (Requested rq) (trace run) ->
    os_path_exists w pdf_path = true
    /\ truthy_str (rq_project rq) = true
    /\ truthy_str (rq_processor rq) = true
    /\ api_endpoint (rq_client rq)
       = rq_location rq ++ lit "-documentai.googleapis.com"
    /\ outcome (Extractor.get_client w self s) = Ret (rq_client rq)
    /\ read_bytes w pdf_path = Ret (rq_content rq)
    /\ (forall rq', In (Requested rq') (trace run) -> rq' = rq).
Proof.
  intros S w self pdf_path output_json_path s rq run.
  destruct (cli_run w self pdf_path output_json_path s)
    as [[e E]|(X & V & c & content & C & R & H)]; fold run in E || fold run in H.
  - rewrite E. intros [].
  - assert (T : forall rq', In (Requested rq') (trace run) ->
                            rq' = request_of self c content).
    { intros rq'. destruct H as [[e ->]|(doc & r & _ & _ & _ & ->)];
        unfold trace; simpl; intros [[= <-]|I]; auto; try contradiction.
      destruct I as [I|[]]. discriminate I. }
    intros I. pose proof (T _ I) as ->.
    rewrite validate_environment_iff in V. apply andb_true_iff in V.
    destruct V as [V1 V2]. cbn [request_of rq_project rq_processor rq_client
                                rq_location rq_content].
    repeat split; auto.
    now apply get_client_endpoint with (s := s) (w := w).
Qed.

(** The request of the example: the default region [eu] in the endpoint
    and in the processor's name. *)
Lemma request_well_formed_witness :
  let w := example_world in
  let rq :=
    request_of (Extractor.init w)
      {| client_credentials := ApplicationDefault;
         api_endpoint := lit "eu-documentai.googleapis.com" |}
      (lit "%PDF-1.7") in
  In (Requested rq)
     (trace (Extractor.process_pdf_to_piping_lines w (Extractor.init w)
               (lit "drawings/P-101.pdf") None tt))
  /\ api_endpoint (rq_client rq)
     = rq_location rq ++ lit "-documentai.googleapis.com".
Proof.
  intros w rq.
  assert (I : In (Requested rq)
                 (trace (Extractor.process_pdf_to_piping_lines w (Extractor.init w)
                           (lit "drawings/P-101.pdf") None tt))).
  { vm_compute. left. reflexivity. }
  split; [exact I|].
  exact (proj1 (proj2 (proj2 (proj2
           (@request_well_formed unit w (Extractor.init w)
              (lit "drawings/P-101.pdf") None tt rq I))))).
Defined.

(** [process_pdf_to_piping_lines] returns a path exactly when it has
    written a result file at that path.  The file written is the last
    thing the method does, after its one request; its path is the one
    given, or the default name when none is given.  A run that raises,
    at whatever step, has written nothing. *)
Theorem result_file_iff_returned :
  forall (S : Type) (w : World) (self : Extractor.PipingLineExtractor)
         (pdf_path : str) (output_json_path : option str) (s : S),
    let run :=
      Extractor.process_pdf_to_piping_lines w self pdf_path output_json_path s in
    (forall path, outcome run = Ret path
                  <-> exists o, In (Written path o) (trace run))
    /\ (forall path o,
          In (Written path o) (trace run) ->
          path = get_or output_json_path (Extractor.default_output pdf_path)
          /\ json_dump w path = None
          /\ exists rq, trace run = [Requested rq; Written path o]).
Proof.
  intros S w self pdf_path output_json_path s run.
  destruct (cli_run w self pdf_path output_json_path s)
    as [[e E]|(X & V & c & content & C & R & [[e E]|(doc & r & P & F & J & E)])];
    fold run in E; rewrite E; unfold trace, outcome; simpl.
  - split.
    + intros path. split; [discriminate|]. intros [o []].
    + intros path o [].
  - split.
    + intros path. split; [discriminate|]. intros [o [I|[]]]. discriminate I.
    + intros path o [I|[]]. discriminate I.
  - split.
    + intros path. split.
      * intros [= <-]. eexists. right. left. reflexivity.
      * intros [o [I|[[= <- _]|[]]]]; [discriminate I|reflexivity].
    + intros path o [I|[[= <- <-]|[]]]; [discriminate I|].
      split; [reflexivity|]. split; [exact J|]. eauto.
Qed.

(** What the command writes is the result of steps 2 to 6 on the
    document the service answered with, computed for the given path of
    the PDF, under the script name [process_pdf_to_piping_lines.py]; so
    what is proved of the assembled result holds of every file
    written. *)
Theorem written_result :
  forall (S : Type) (w : World) (self : Extractor.PipingLineExtractor)
         (pdf_path : str) (output_json_path : option str) (s : S)
         (path : str) (o : Output),
    let run :=
      Extractor.process_pdf_to_piping_lines w self pdf_path output_json_path s in
    In (Written path o) (trace run) ->
    exists rq doc,
      In (Requested rq) (trace run)
      /\ process_document w rq = Ret doc
      /\ process_pdf_to_piping_lines pdf_path doc = Ok (results o)
      /\ extraction_script o = lit "process_pdf_to_piping_lines.py"
      /\ source_file (results o) = pdf_path.
Proof.
  intros S w self pdf_path output_json_path s path o run.
  destruct (cli_run w self pdf_path output_json_path s)
    as [[e E]|(X & V & c & content & C & R & [[e E]|(doc & r & P & F & J & E)])];
    fold run in E; rewrite E; unfold trace; simpl.
  - intros [].
  - intros [I|[]]. discriminate I.
  - intros [I|[[= _ <-]|[]]]; [discriminate I|].
    exists (request_of self c content), doc. simpl.
    repeat split; auto.
    unfold process_pdf_to_piping_lines, bind in F.
    destruct (extract_text_and_layout_from_document doc); [|discriminate].
    injection F as <-. reflexivity.
Qed.

(** The file of the example: the default name, one record. *)
Lemma written_result_witness :
  let w := example_world in
  let pdf_path := lit "drawings/P-101.pdf" in
  let o := cli_output (process_text pdf_path example_text []) in
  In (Written (lit "P-101_piping_lines.json") o)
     (trace (Extractor.process_pdf_to_piping_lines w (Extractor.init w)
               pdf_path None tt))
  /\ exists rq doc,
       process_document w rq = Ret doc
       /\ process_pdf_to_piping_lines pdf_path doc = Ok (results o).
Proof.
  intros w pdf_path o.
  assert (I : In (Written (lit "P-101_piping_lines.json") o)
                 (trace (Extractor.process_pdf_to_piping_lines w (Extractor.init w)
                           pdf_path None tt))).
  { vm_compute. right. left. reflexivity. }
  split; [exact I|].
  destruct (@written_result unit w (Extractor.init w) pdf_path None tt _ o I)
    as (rq & doc & _ & P & F & _).
  exists rq, doc. split; [exact P|exact F].
Defined.


(* ================================================================== *)
(** ** The server *)
(* ================================================================== *)

Lemma append_entries (f : str -> Entry) (keys : list str) :
  forall r : Results,
    fold_left
      (fun (result : Results) piping_line =>
         {| source_file := source_file result;
            total_found := total_found result;
            pid_identifier := pid_identifier result;
            piping_lines := piping_lines result ++ [f piping_line] |})
      keys r
    = {| source_file := source_file r;
         total_found := total_found r;
         pid_identifier := pid_identifier r;
         piping_lines := piping_lines r ++ map f keys |}.
Proof.
  induction keys as [|k keys IH]; intros r; simpl.
  - rewrite app_nil_r. now destruct r.
  - rewrite IH. simpl. now rewrite <- app_assoc.
Qed.

(** The handler assembles what [save_results_as_json] assembles. *)
Lemma assemble_save (source : str) (d : dict info) (pid : option str) :
  Server.assemble source d pid
  = {| extraction_script := lit "fastapi_server/main.py";
       results := save_results_as_json d source pid |}.
Proof.
  unfold Server.assemble. now rewrite append_entries.
Qed.

(** One run of the handler, step by step. *)
Lemma server_run_eq (w : World) (file : Server.UploadFile) :
  Server.extract_piping_lines w file Server.unbound
  = if negb (ends_with (lit ".pdf") (lower (Server.filename file))) then
      ([], Server.unbound,
       Exn (HTTPException 400
              (lit "File must be a PDF (.pdf extension required)")))
    else if match Server.size file with
            | Some n => negb (n =? 0)%Z && (50 * 1024 * 1024 <? n)%Z
            | None => false
            end then
      ([], Server.unbound,
       Exn (HTTPException 400 (lit "File size too large. Maximum size: 50MB")))
    else
      match named_temporary_file w with
      | Exn e => ([], Server.unbound, wrapped w (Exn e))
      | Ret name =>
          match Server.read file, temp_write w with
          | Ret _, None =>
              (TempCreated name
               :: fst (pipeline w (Server.filename file) name)
                  ++ removal w name,
               path_assigned name,
               wrapped w (snd (pipeline w (Server.filename file) name)))
          | _, _ =>
              ([TempCreated name], file_made name,
               Exn (UnboundLocalError (lit "temp_file_path")))
          end
      end.
Proof.
  unfold Server.extract_piping_lines.
  destruct (ends_with (lit ".pdf") (lower (Server.filename file)));
    cbn [negb]; [|reflexivity].
  destruct (match Server.size file with
            | Some n => negb (n =? 0)%Z && (50 * 1024 * 1024 <? n)%Z
            | None => false
            end); [reflexivity|].
  unfold and_then at 1, assign, try_finally, try_except, Server.handle.
  unfold and_then at 1, of_result.
  cbn [Server.unbound Server.temp_file Server.temp_file_path].
  fold Server.unbound.
  destruct (named_temporary_file w) as [name|e]; [|reflexivity].
  unfold and_then at 1, emit. unfold and_then at 1, assign.
  cbn [Server.unbound Server.temp_file Server.temp_file_path].
  fold (file_made name).
  unfold and_then at 1, of_result.
  destruct (Server.read file) as [content|e];
    [|destruct (temp_write w); reflexivity].
  unfold and_then at 1, check.
  destruct (temp_write w) as [e|]; [reflexivity|].
  cbv [ret]. unfold and_then at 1, assign.
  cbn [file_made Server.temp_file Server.temp_file_path].
  fold (path_assigned name).
  unfold pipeline.
  destruct (Extractor.validate_environment_variables (Extractor.init w));
    cbn [negb].
  2:{ cbv [raise wrapped fst snd Server.cleanup and_then local path_assigned
           Server.temp_file Server.temp_file_path truthy Server.load ret].
      fold (path_assigned name). unfold removal.
      destruct (os_path_exists w name); [|reflexivity].
      cbv [try_except and_then check ret emit raise].
      destruct (os_unlink w name); reflexivity. }
  unfold and_then at 1, local.
  unfold and_then at 1.
  cbn [path_assigned Server.temp_file_path Server.load]. fold (path_assigned name).
  cbv [ret]. unfold and_then at 1. rewrite document_ai_run.
  assert (Clean : Server.cleanup w (path_assigned name)
                  = (removal w name, path_assigned name, Ret tt)).
  { cbv [Server.cleanup and_then local path_assigned
           Server.temp_file Server.temp_file_path truthy Server.load ret].
    fold (path_assigned name). unfold removal.
    destruct (os_path_exists w name); [|reflexivity].
    cbv [try_except and_then check ret emit raise].
    destruct (os_unlink w name); reflexivity. }
  destruct (outcome (Extractor.get_client w (Extractor.init w) (path_assigned name)))
    as [c|e]; [|cbv [raise wrapped fst snd]; now rewrite Clean].
  destruct (read_bytes w name) as [bytes|e];
    [|cbv [raise wrapped fst snd]; now rewrite Clean].
  destruct (process_document w (request_of (Extractor.init w) c bytes)) as [doc|e];
    [|cbv [raise wrapped fst snd]; now rewrite Clean].
  unfold process_pdf_to_piping_lines, bind, and_then, of_exc.
  destruct (extract_text_and_layout_from_document doc) as [tl|e];
    [|cbv [raise wrapped fst snd]; now rewrite Clean].
  cbv [ret raise wrapped fst snd]. rewrite Clean.
  rewrite assemble_save. reflexivity.
Qed.

Lemma ends_with_spec (suffix s : str) :
  ends_with suffix s = true <-> exists pre, s = pre ++ suffix.
Proof.
  unfold ends_with. rewrite starts_with_spec. split.
  - intros [post E]. exists (rev post).
    rewrite <- (rev_involutive s), E, rev_app_distr. now rewrite rev_involutive.
  - intros [pre ->]. exists (rev pre). apply rev_app_distr.
Qed.

Lemma map_eq_app_inv (A B : Type) (f : A -> B) (l : list A) (a b : list B) :
  map f l = a ++ b ->
  exists l1 l2, l = l1 ++ l2 /\ map f l1 = a /\ map f l2 = b.
Proof.
  revert l. induction a as [|x a IH]; intros l E.
  - exists [], l. auto.
  - destruct l as [|y l]; [discriminate|]. simpl in E. injection E as <- E.
    destruct (IH _ E) as (l1 & l2 & -> & <- & <-).
    exists (y :: l1), l2. auto.
Qed.

(** The test of the extension: the name ends in [.pdf] in any case of
    letters. *)
Lemma pdf_name_spec (name : str) :
  ends_with (lit ".pdf") (lower name) = true
  <-> exists stem ext, name = stem ++ ext /\ lower ext = lit ".pdf".
Proof.
  rewrite ends_with_spec. split.
  - intros [pre E]. apply map_eq_app_inv in E.
    destruct E as (stem & ext & -> & _ & E). eauto.
  - intros (stem & ext & -> & E). exists (lower stem).
    unfold lower in *. now rewrite map_app, E.
Qed.

Lemma size_test (sz : option Z) :
  match sz with
  | Some n => negb (n =? 0)%Z && (50 * 1024 * 1024 <? n)%Z
  | None => false
  end = true
  <-> exists n, sz = Some n /\ (size_limit < n)%Z.
Proof.
  unfold size_limit. destruct sz as [n|].
  - rewrite andb_true_iff, negb_true_iff, Z.eqb_neq, Z.ltb_lt. split.
    + intros [_ H]. exists n. split; [reflexivity|lia].
    + intros (m & [= <-] & H). lia.
  - split; [discriminate|]. intros (n & [=] & _).
Qed.

Lemma wrapped_cases (w : World) (r : result Output) :
  (exists o, r = Ret o /\ wrapped w r = Ret o)
  \/ (exists e, r = Exn e
                /\ wrapped w r = Exn (HTTPException 500 (error_prefix ++ str_of w e))).
Proof. destruct r as [o|e]; simpl; eauto. Qed.

(** The handler answers with status 400 in two cases only: the name of
    the upload does not end in [.pdf] (the case of the letters apart),
    or its size is given and exceeds 52428800 bytes (an absent size, a
    size of 0 and a size of exactly 50 MB pass).  A refused upload
    touches nothing: no temporary file, no request. *)
Theorem upload_rejected :
  forall (w : World) (file : Server.UploadFile),
    let run := Server.extract_piping_lines w file Server.unbound in
    ((exists detail, outcome run = Exn (HTTPException 400 detail))
     <-> ~ (exists stem ext, Server.filename file = stem ++ ext
                             /\ lower ext = lit ".pdf")
         \/ (exists n, Server.size file = Some n /\ (size_limit < n)%Z))
    /\ ((exists detail, outcome run = Exn (HTTPException 400 detail))
        -> trace run = []).
Proof.
  intros w file run. unfold run. rewrite server_run_eq.
  rewrite <- pdf_name_spec, <- size_test.
  destruct (ends_with (lit ".pdf") (lower (Server.filename file))); cbn [negb].
  { destruct (match Server.size file with
              | Some n => negb (n =? 0)%Z && (50 * 1024 * 1024 <? n)%Z
              | None => false
              end).
    - split; [|reflexivity]. split; [auto|]. intros _. eexists. reflexivity.
    - assert (N : ~ exists detail,
                    outcome
                      match named_temporary_file w with
                      | Ret name =>
                          match Server.read file, temp_write w with
                          | Ret _, None =>
                              (TempCreated name
                               :: fst (pipeline w (Server.filename file) name)
                                  ++ removal w name,
                               path_assigned name,
                               wrapped w (snd (pipeline w (Server.filename file) name)))
                          | _, _ =>
                              ([TempCreated name], file_made name,
                               Exn (UnboundLocalError (lit "temp_file_path")))
                          end
                      | Exn e => ([], Server.unbound, wrapped w (Exn e))
                      end = Exn (HTTPException 400 detail)).
      { intros [detail H]. unfold outcome in H.
        destruct (named_temporary_file w) as [name|e]; [|discriminate H].
        destruct (Server.read file); [|discriminate H].
        destruct (temp_write w); [discriminate H|]. cbn [snd] in H.
        destruct (wrapped_cases w (snd (pipeline w (Server.filename file) name)))
          as [(o & _ & E)|(e & _ & E)]; rewrite E in H; discriminate H. }
      split; [|intros H; contradiction].
      split; [intros H; contradiction|].
      intros [H|H]; [exfalso; now apply H|discriminate H]. }
  split; [|reflexivity]. split.
  - intros _. left. discriminate.
  - intros _. eexists. reflexivity.
Qed.

(** A 200 response of the handler carries the result of steps 2 to 6
    on the document the service answered with for the temporary file,
    with the name of the upload as [source_file] and
    [fastapi_server/main.py] as script name.  Its records, its count and
    its drawing number are those the command line writes for the same
    document: the copy of the assembly in the handler agrees with
    [save_results_as_json]. *)
Theorem server_result :
  forall (w : World) (file : Server.UploadFile) (o : Output),
    let run := Server.extract_piping_lines w file Server.unbound in
    outcome run = Ret o ->
    exists name rq doc,
      named_temporary_file w = Ret name
      /\ In (Requested rq) (trace run)
      /\ read_bytes w name = Ret (rq_content rq)
      /\ process_document w rq = Ret doc
      /\ process_pdf_to_piping_lines (Server.filename file) doc = Ok (results o)
      /\ extraction_script o = lit "fastapi_server/main.py"
      /\ source_file (results o) = Server.filename file
      /\ forall pdf_path r,
           process_pdf_to_piping_lines pdf_path doc = Ok r ->
           piping_lines r = piping_lines (results o)
           /\ total_found r = total_found (results o)
           /\ pid_identifier r = pid_identifier (results o).
Proof.
  intros w file o run. unfold run. rewrite server_run_eq.
  destruct (ends_with _ _); cbn [negb]; [|discriminate].
  destruct (match Server.size file with Some _ => _ | None => _ end);
    [discriminate|].
  destruct (named_temporary_file w) as [name|e]; [|discriminate].
  destruct (Server.read file); [|discriminate].
  destruct (temp_write w); [discriminate|].
  unfold outcome, trace. cbn [fst snd]. unfold pipeline.
  destruct (Extractor.validate_environment_variables (Extractor.init w));
    cbn [negb]; [|discriminate].
  destruct (outcome (Extractor.get_client w (Extractor.init w) (path_assigned name)))
    as [c|e]; [|discriminate].
  destruct (read_bytes w name) as [bytes|e] eqn:R; [|discriminate].
  cbv zeta.
  destruct (process_document w (request_of (Extractor.init w) c bytes))
    as [doc|e] eqn:P; [|discriminate].
  destruct (process_pdf_to_piping_lines (Server.filename file) doc)
    as [r|e] eqn:F; [|discriminate].
  cbn [fst snd wrapped]. intros [= <-].
  exists name, (request_of (Extractor.init w) c bytes), doc.
  cbn [results extraction_script request_of rq_content].
  split; [reflexivity|]. split; [right; left; reflexivity|].
  split; [exact R|]. split; [exact P|]. split; [exact F|].
  split; [reflexivity|].
  unfold process_pdf_to_piping_lines, bind in *.
  destruct (extract_text_and_layout_from_document doc) as [tl|e]; [|discriminate].
  injection F as <-. split; [reflexivity|].
  intros pdf_path r' [= <-]. repeat split; reflexivity.
Qed.

(** The response to the example upload. *)
Lemma server_result_witness :
  let w := example_world in
  let o := {| extraction_script := lit "fastapi_server/main.py";
              results := process_text (lit "P-101.PDF") example_text [] |} in
  outcome (Server.extract_piping_lines w example_upload Server.unbound) = Ret o
  /\ exists doc,
       process_pdf_to_piping_lines (lit "P-101.PDF") doc = Ok (results o).
Proof.
  intros w o.
  assert (E : outcome (Server.extract_piping_lines w example_upload Server.unbound)
              = Ret o) by (vm_compute; reflexivity).
  split; [exact E|].
  destruct (@server_result w example_upload o E)
    as (name & rq & doc & _ & _ & _ & _ & F & _).
  exists doc. exact F.
Defined.

(** Once the upload has been read and written to the temporary file,
    the handler removes that file at its end, whether the rest succeeds
    or fails, provided the file is still there and the removal works:
    the run is the creation of the file, the requests, and the removal
    as the last step. *)
Theorem temp_file_removed :
  forall (w : World) (file : Server.UploadFile) (name content : str),
    let run := Server.extract_piping_lines w file Server.unbound in
    In (TempCreated name) (trace run) ->
    Server.read file = Ret content ->
    temp_write w = None ->
    os_path_exists w name = true ->
    os_unlink w name = None ->
    exists requests,
      trace run = TempCreated name :: map Requested requests ++ [Unlinked name].
Proof.
  intros w file name content run. unfold run. rewrite server_run_eq.
  destruct (ends_with _ _); cbn [negb]; [|intros []].
  destruct (match Server.size file with Some _ => _ | None => _ end);
    [intros []|].
  destruct (named_temporary_file w) as [name'|e]; [|intros []].
  intros I R T X U. rewrite R, T in *. unfold trace in *. cbn [fst] in *.
  assert (Q : exists requests,
                fst (pipeline w (Server.filename file) name')
                = map Requested requests).
  { unfold pipeline.
    destruct (negb _); [now exists []|].
    destruct (outcome _); [|now exists []].
    destruct (read_bytes w name'); [|now exists []]. cbv zeta.
    destruct (process_document w _); [|eexists [_]; reflexivity].
    destruct (process_pdf_to_piping_lines _ _); eexists [_]; reflexivity. }
  destruct Q as [requests Q]. rewrite Q in *.
  assert (name' = name) as ->.
  { destruct I as [[= ->]|I]; [reflexivity|].
    apply in_app_or in I. destruct I as [I|I].
    - apply in_map_iff in I. destruct I as (rq & E & _). discriminate E.
    - unfold removal in I. destruct (os_path_exists w name'); [|destruct I].
      destruct (os_unlink w name');
        [destruct I|destruct I as [I|[]]; discriminate I]. }
  exists requests. unfold removal. now rewrite X, U.
Qed.

(** The run for the example upload. *)
Lemma temp_file_removed_witness :
  let w := example_world in
  exists requests,
    trace (Server.extract_piping_lines w example_upload Server.unbound)
    = TempCreated (lit "/tmp/tmpa1b2.pdf")
      :: map Requested requests ++ [Unlinked (lit "/tmp/tmpa1b2.pdf")].
Proof.
  intros w.
  apply (@temp_file_removed w example_upload (lit "/tmp/tmpa1b2.pdf")
           (lit "%PDF-1.7")); try reflexivity.
  vm_compute. left. reflexivity.
Defined.

(** When reading the upload or writing the temporary file fails, the
    variable [temp_file_path] has not been assigned when the [finally]
    looks at it: the handler ends with an [UnboundLocalError] in place
    of its own 500 response, and the temporary file, made without
    automatic deletion, is not removed. *)
Theorem temp_file_left_behind :
  forall (w : World) (file : Server.UploadFile) (name : str),
    ends_with (lit ".pdf") (lower (Server.filename file)) = true ->
    (forall n, Server.size file = Some n -> (n <= size_limit)%Z) ->
    named_temporary_file w = Ret name ->
    (exists e, Server.read file = Exn e) \/ (exists e, temp_write w = Some e) ->
    Server.extract_piping_lines w file Server.unbound
    = ([TempCreated name], file_made name,
       Exn (UnboundLocalError (lit "temp_file_path"))).
Proof.
  intros w file name P Sz N H. rewrite server_run_eq, P, N. cbn [negb].
  destruct (match Server.size file with Some _ => _ | None => _ end) eqn:B.
  - apply size_test in B. destruct B as (n & E & L). apply Sz in E. lia.
  - destruct H as [[e ->]|[e ->]]; [reflexivity|].
    now destruct (Server.read file).
Qed.

(** An upload whose connection breaks while it is read. *)
Lemma temp_file_left_behind_witness :
  Server.extract_piping_lines example_world broken_upload Server.unbound
  = ([TempCreated (lit "/tmp/tmpa1b2.pdf")], file_made (lit "/tmp/tmpa1b2.pdf"),
     Exn (UnboundLocalError (lit "temp_file_path"))).
Proof.
  apply (@temp_file_left_behind example_world broken_upload
           (lit "/tmp/tmpa1b2.pdf")).
  - reflexivity.
  - intros n E. discriminate E.
  - reflexivity.
  - left. eexists. reflexivity.
Defined.

(** Every run of the handler ends in one of four ways: a 200 response
    after a request to the service; a 400 response with nothing done; a
    500 response whose detail is [Error processing PDF file: ] followed
    by the text of the exception caught, which covers the handler's own
    configuration error, raised inside the [try]; or the
    [UnboundLocalError] of the cleanup, with the temporary file as the
    only thing done.  No exception of the pipeline leaves the handler
    as it is.  With a required variable missing no request is sent and
    no result returned. *)
Theorem server_outcomes :
  forall (w : World) (file : Server.UploadFile),
    let run := Server.extract_piping_lines w file Server.unbound in
    match outcome run with
    | Ret o => exists rq, In (Requested rq) (trace run)
    | Exn (HTTPException status detail) =>
        (status = 400 /\ trace run = [])
        \/ (status = 500 /\ exists e, detail = error_prefix ++ str_of w e)
    | Exn (UnboundLocalError v) =>
        v = lit "temp_file_path"
        /\ exists name, trace run = [TempCreated name]
    | Exn _ => False
    end
    /\ (Extractor.validate_environment_variables (Extractor.init w) = false ->
        (forall rq, ~ In (Requested rq) (trace run))
        /\ forall o, outcome run <> Ret o).
Proof.
  intros w file run. unfold run. rewrite server_run_eq. unfold outcome, trace.
  destruct (ends_with _ _); cbn [negb fst snd].
  2:{ split; [left; auto|]. intros _. split; [intros rq []|discriminate]. }
  destruct (match Server.size file with Some _ => _ | None => _ end);
    cbn [fst snd].
  { split; [left; auto|]. intros _. split; [intros rq []|discriminate]. }
  destruct (named_temporary_file w) as [name|e]; cbn [fst snd wrapped].
  2:{ split; [right; eauto|]. intros _. split; [intros rq []|discriminate]. }
  assert (U : (lit "temp_file_path" = lit "temp_file_path"
               /\ exists name0, [TempCreated name] = [TempCreated name0])
              /\ (Extractor.validate_environment_variables (Extractor.init w) = false ->
                  (forall rq, ~ In (Requested rq) [TempCreated name])
                  /\ forall o, @Exn Output (UnboundLocalError (lit "temp_file_path"))
                               <> Ret o)).
  { split; [split; eauto|]. intros _.
    split; [intros rq [I|[]]; discriminate I|discriminate]. }
  destruct (Server.read file); [|exact U].
  destruct (temp_write w); [exact U|]. clear U.
  cbn [fst snd]. unfold pipeline.
  destruct (Extractor.validate_environment_variables (Extractor.init w));
    cbn [negb].
  2:{ cbn [fst snd wrapped app]. split; [right; eauto|]. intros _.
      split; [|discriminate]. intros rq [I|I]; [discriminate I|].
      unfold removal in I. destruct (os_path_exists w name); [|destruct I].
      destruct (os_unlink w name);
        [destruct I|destruct I as [I|[]]; discriminate I]. }
  split; [|discriminate].
  destruct (outcome _) as [c|e]; [|cbn [fst snd wrapped]; right; eauto].
  destruct (read_bytes w name) as [bytes|e]; [|cbn [fst snd wrapped]; right; eauto].
  cbv zeta.
  destruct (process_document w _) as [doc|e]; [|cbn [fst snd wrapped]; right; eauto].
  destruct (process_pdf_to_piping_lines _ _) as [r|e];
    [|cbn [fst snd wrapped]; right; eauto].
  cbn [fst snd wrapped]. eexists. right. left. reflexivity.
Qed.

(* ================================================================== *)
(** ** A polygon of one or two vertices, end to end *)
(* ================================================================== *)

(** A token with a polygon of one or two vertices fails the whole run.
    For a document that has one, steps 2 to 6 raise [IndexError]; a
    command whose request is answered with it exits with status 1 and
    writes no file; and the handler answers with status 500, the detail
    being the prefix followed by the text of that [IndexError]. *)
Theorem short_polygon_aborts :
  forall (w : World) (doc : Document),
    polygons_ok doc = false ->
    (forall pdf_path, process_pdf_to_piping_lines pdf_path doc = Raise IndexError)
    /\ (forall (argv : list str) (rq : request),
          In (Requested rq) (fst (Extractor.main w argv)) ->
          process_document w rq = Ret doc ->
          snd (Extractor.main w argv) = 1
          /\ forall path o, ~ In (Written path o) (fst (Extractor.main w argv)))
    /\ (forall (file : Server.UploadFile) (rq : request),
          let run := Server.extract_piping_lines w file Server.unbound in
          In (Requested rq) (trace run) ->
          process_document w rq = Ret doc ->
          outcome run
          = Exn (HTTPException 500 (error_prefix ++ str_of w (Core IndexError)))).
Proof.
  intros w doc Bad.
  assert (F : forall pdf_path,
            process_pdf_to_piping_lines pdf_path doc = Raise IndexError).
  { intros pdf_path. unfold process_pdf_to_piping_lines.
    now rewrite extract_layout_raise. }
  split; [exact F|]. split.
  - intros argv rq. unfold Extractor.main.
    destruct (length argv <? 2); [intros []|].
    set (pdf_path := nth 1 argv []).
    set (out := if 2 <? length argv then Some (nth 2 argv []) else None).
    rewrite cli_run_eq. cbv zeta.
    destruct (negb (os_path_exists w pdf_path)); [intros []|].
    destruct (negb (Extractor.validate_environment_variables (Extractor.init w)));
      [intros []|].
    destruct (outcome _) as [c|e]; [|intros []].
    destruct (read_bytes w pdf_path) as [content|e]; [|intros []].
    destruct (process_document w (request_of (Extractor.init w) c content))
      as [doc'|e] eqn:P.
    + intros I Q.
      assert (E : rq = request_of (Extractor.init w) c content).
      { destruct (process_pdf_to_piping_lines pdf_path doc') as [r|e];
          [destruct (json_dump w _)|]; cbn [fst] in I;
          (destruct I as [I'|I']; [now injection I'|]);
          try (destruct I' as [I'|I']; [discriminate I'|]); destruct I'. }
      subst rq. rewrite P in Q. injection Q as ->.
      rewrite F. cbn [fst snd]. split; [reflexivity|].
      intros path o [I'|[]]. discriminate I'.
    + cbn [fst snd]. intros [I|[]] Q. injection I as <-. congruence.
  - intros file rq run. unfold run. rewrite server_run_eq. unfold trace, outcome.
    destruct (negb _); [intros []|].
    destruct (match Server.size file with Some _ => _ | None => _ end);
      [intros []|].
    destruct (named_temporary_file w) as [name|e]; [|intros []].
    assert (U : In (Requested rq) [TempCreated name] -> False)
      by (intros [I|[]]; discriminate I).
    destruct (Server.read file); [|intros I; destruct (U I)].
    destruct (temp_write w); [intros I; destruct (U I)|]. clear U.
    cbn [fst snd]. intros I Q. destruct I as [I|I]; [discriminate I|].
    apply in_app_or in I. destruct I as [I|I].
    2:{ unfold removal in I. destruct (os_path_exists w name); [|destruct I].
        destruct (os_unlink w name);
          [destruct I|destruct I as [I|[]]; discriminate I]. }
    revert I. unfold pipeline.
    destruct (negb _); [intros []|].
    destruct (outcome _) as [c|e]; [|intros []].
    destruct (read_bytes w name) as [bytes|e]; [|intros []]. cbv zeta.
    destruct (process_document w (request_of (Extractor.init w) c bytes))
      as [doc'|e] eqn:P.
    + assert (T : forall r : result Output,
                In (Requested rq)
                   [Requested (request_of (Extractor.init w) c bytes)] ->
                doc' = doc).
      { intros _ [I|[]]. injection I as <-. congruence. }
      destruct (process_pdf_to_piping_lines (Server.filename file) doc')
        as [r|e] eqn:G; cbn [fst snd]; intros I;
        pose proof (T (Exn (Core IndexError)) I) as ->;
        rewrite F in G; [discriminate G|injection G as <-; reflexivity].
    + cbn [fst]. intros [I|[]]. injection I as <-. congruence.
Qed.

(** The command on the document of one vertex. *)
Lemma short_polygon_aborts_witness :
  snd (Extractor.main short_polygon_world [lit "extract"; lit "P-101.pdf"]) = 1
  /\ process_pdf_to_piping_lines (lit "P-101.pdf") one_vertex_document
     = Raise IndexError.
Proof.
  destruct (@short_polygon_aborts short_polygon_world one_vertex_document
              ltac:(reflexivity)) as (F & M & _).
  split; [|apply F].
  apply (M [lit "extract"; lit "P-101.pdf"]
           (request_of (Extractor.init short_polygon_world)
              {| client_credentials := ApplicationDefault;
                 api_endpoint := lit "eu-documentai.googleapis.com" |}
              (lit "%PDF-1.7"))).
  - vm_compute. left. reflexivity.
  - reflexivity.
Defined.
